(** * PipelineExecutor: a shallow embedding of
      src/Processors/Executors/PipelineExecutor.cpp

    The executor drives a graph of processors.  This development models the
    sequential code of one executor thread: the node and edge tables, the
    two work stacks of [prepareProcessor], pipeline expansion, the seeding
    of childless nodes, the exception scan of [execute], [finalizeExecution],
    [dumpPipeline], [cancel] and [finish], and the loop of one thread in
    [executeStepImpl] with its callers [executeSingleThread], [executeStep]
    and [execute] with one thread.  Mutexes and the pipeline lock guard these code
    paths against other threads and have no effect on what one thread
    computes, so they do not appear.

    Conventions
    - [std::vector] and [std::list] are [list]; [v[i]] is [v !! i], and an
      index out of range (undefined behaviour in C++) makes the model
      return [None] / [Undefined].
    - [std::stack] is a [list] whose head is the top.
    - [std::queue] is a [list] whose head is the front; [push] appends.
    - A [Node *] is the node's index in [graph->nodes]; an [Edge *] is an
      [EdgePtr]: owner node, which of its two edge lists, position.
    - The processors themselves are external.  Their state lives in an
      opaque world [W]; the virtual calls of [IProcessor] are the methods
      of the class [Processors W]. *)

From stdpp Require Import base option list gmap strings pretty.
From Stdlib Require Import NArith Lia.

Set Default Proof Using "Type".

(** ** Statuses and exceptions *)

(** [ExecutingGraph::ExecStatus]. *)
Module ExecStatus.
Inductive t := Idle | Preparing | Executing | Finished.

#[global] Instance exec_status_eq_dec : EqDecision t.
Proof. solve_decision. Defined.
End ExecStatus.

(** [IProcessor::Status], the result of [prepare]. *)
Module IProcessor.
Inductive Status :=
  NeedData | PortFull | Finished | Ready | Async | ExpandPipeline.

#[global] Instance status_eq_dec : EqDecision Status.
Proof. solve_decision. Defined.
End IProcessor.

(** [ErrorCodes]: the two codes this file uses, and any other code a
    processor may throw with. *)
Inductive ErrorCode :=
  | LOGICAL_ERROR
  | QUERY_WAS_CANCELLED
  | OTHER_ERROR (n : nat).

#[global] Instance ErrorCode_eq_dec : EqDecision ErrorCode.
Proof. solve_decision. Defined.

(** What a [std::exception_ptr] points to. *)
Record Exception := { code : ErrorCode; message : string }.

#[global] Instance Exception_eq_dec : EqDecision Exception.
Proof. solve_decision. Defined.

(** A call either returns or throws. *)
Inductive Result (A : Type) :=
  | Returned (a : A)
  | Threw (e : Exception).
Arguments Returned {A} a.
Arguments Threw {A} e.

(** ** Edges and nodes *)

Definition ProcPtr := nat.

(** [ExecutingGraph::Edge].  Its [update_info] is shared with the port of
    the processor and lives in the world. *)
Record Edge := {
  to : nat;
  backward : bool;
  input_port_number : nat;
  output_port_number : nat;
}.

(** Address of an edge: element [edge_index] of [back_edges] (when
    [edge_back]) or of [direct_edges] of node [edge_owner]. *)
Record EdgePtr := {
  edge_owner : nat;
  edge_back : bool;
  edge_index : nat;
}.

#[global] Instance EdgePtr_eq_dec : EqDecision EdgePtr.
Proof. solve_decision. Defined.

(** [ExecutingGraph::Node]. *)
Record Node := {
  processor : ProcPtr;
  status : ExecStatus.t;
  direct_edges : list Edge;
  back_edges : list Edge;
  updated_input_ports : list nat;
  updated_output_ports : list nat;
  post_updated_input_ports : list EdgePtr;
  post_updated_output_ports : list EdgePtr;
  exception : option Exception;
  last_processor_status : IProcessor.Status;
  num_executed_jobs : N;
  execution_time_ns : N;
  preparation_time_ns : N;
}.

Definition set_status (s : ExecStatus.t) (n : Node) : Node :=
  {| processor := processor n; status := s;
     direct_edges := direct_edges n; back_edges := back_edges n;
     updated_input_ports := updated_input_ports n;
     updated_output_ports := updated_output_ports n;
     post_updated_input_ports := post_updated_input_ports n;
     post_updated_output_ports := post_updated_output_ports n;
     exception := exception n;
     last_processor_status := last_processor_status n;
     num_executed_jobs := num_executed_jobs n;
     execution_time_ns := execution_time_ns n;
     preparation_time_ns := preparation_time_ns n |}.

Definition set_edges (ds bs : list Edge) (n : Node) : Node :=
  {| processor := processor n; status := status n;
     direct_edges := ds; back_edges := bs;
     updated_input_ports := updated_input_ports n;
     updated_output_ports := updated_output_ports n;
     post_updated_input_ports := post_updated_input_ports n;
     post_updated_output_ports := post_updated_output_ports n;
     exception := exception n;
     last_processor_status := last_processor_status n;
     num_executed_jobs := num_executed_jobs n;
     execution_time_ns := execution_time_ns n;
     preparation_time_ns := preparation_time_ns n |}.

(** Both pending lists at once: [updated_input_ports], [updated_output_ports]. *)
Definition set_updated_ports (ins outs : list nat) (n : Node) : Node :=
  {| processor := processor n; status := status n;
     direct_edges := direct_edges n; back_edges := back_edges n;
     updated_input_ports := ins;
     updated_output_ports := outs;
     post_updated_input_ports := post_updated_input_ports n;
     post_updated_output_ports := post_updated_output_ports n;
     exception := exception n;
     last_processor_status := last_processor_status n;
     num_executed_jobs := num_executed_jobs n;
     execution_time_ns := execution_time_ns n;
     preparation_time_ns := preparation_time_ns n |}.

(** Both self-reported lists at once: [post_updated_input_ports],
    [post_updated_output_ports]. *)
Definition set_post_updated_ports (ins outs : list EdgePtr) (n : Node) : Node :=
  {| processor := processor n; status := status n;
     direct_edges := direct_edges n; back_edges := back_edges n;
     updated_input_ports := updated_input_ports n;
     updated_output_ports := updated_output_ports n;
     post_updated_input_ports := ins;
     post_updated_output_ports := outs;
     exception := exception n;
     last_processor_status := last_processor_status n;
     num_executed_jobs := num_executed_jobs n;
     execution_time_ns := execution_time_ns n;
     preparation_time_ns := preparation_time_ns n |}.

Definition set_exception (e : option Exception) (n : Node) : Node :=
  {| processor := processor n; status := status n;
     direct_edges := direct_edges n; back_edges := back_edges n;
     updated_input_ports := updated_input_ports n;
     updated_output_ports := updated_output_ports n;
     post_updated_input_ports := post_updated_input_ports n;
     post_updated_output_ports := post_updated_output_ports n;
     exception := e;
     last_processor_status := last_processor_status n;
     num_executed_jobs := num_executed_jobs n;
     execution_time_ns := execution_time_ns n;
     preparation_time_ns := preparation_time_ns n |}.

Definition set_last_processor_status (s : IProcessor.Status) (n : Node) : Node :=
  {| processor := processor n; status := status n;
     direct_edges := direct_edges n; back_edges := back_edges n;
     updated_input_ports := updated_input_ports n;
     updated_output_ports := updated_output_ports n;
     post_updated_input_ports := post_updated_input_ports n;
     post_updated_output_ports := post_updated_output_ports n;
     exception := exception n;
     last_processor_status := s;
     num_executed_jobs := num_executed_jobs n;
     execution_time_ns := execution_time_ns n;
     preparation_time_ns := preparation_time_ns n |}.

Definition set_preparation_time_ns (t : N) (n : Node) : Node :=
  {| processor := processor n; status := status n;
     direct_edges := direct_edges n; back_edges := back_edges n;
     updated_input_ports := updated_input_ports n;
     updated_output_ports := updated_output_ports n;
     post_updated_input_ports := post_updated_input_ports n;
     post_updated_output_ports := post_updated_output_ports n;
     exception := exception n;
     last_processor_status := last_processor_status n;
     num_executed_jobs := num_executed_jobs n;
     execution_time_ns := execution_time_ns n;
     preparation_time_ns := t |}.

(** [*ptr] for an [Edge *]. *)
Definition lookup_edge (nodes : list Node) (p : EdgePtr) : option Edge :=
  n ← nodes !! edge_owner p;
  (if edge_back p then back_edges n else direct_edges n) !! edge_index p.

(** ** The processors

    The outcome of a virtual call on a processor: what it returned or
    threw, the world it left, and the edges whose ports it updated while
    running.  A port update appends the port's edge to
    [post_updated_input_ports] or [post_updated_output_ports] of the node
    that owns the processor. *)
Record Call (W A : Type) := {
  returned : Result A;
  world_after : W;
  dirty_inputs : list EdgePtr;
  dirty_outputs : list EdgePtr;
}.
Arguments returned {W A} c.
Arguments world_after {W A} c.
Arguments dirty_inputs {W A} c.
Arguments dirty_outputs {W A} c.

(** A node of the graph, extended by [old] with appended edges only. *)
Definition grown_from (old new : Node) : Prop :=
  ∃ ds bs, new = set_edges (direct_edges old ++ ds) (back_edges old ++ bs) old.

(** The contract the executor consumes.  None of this code is part of
    PipelineExecutor.cpp: [prepare], [expandPipeline], [onUpdatePorts],
    [getName] are virtual methods of [IProcessor];
    [trigger] is [edge->update_info.trigger()]; [clock] is what a
    [Stopwatch] reads; [printPipeline] is [printPipeline(processors,
    statuses, out)], which reads the processors and their descriptions;
    [write_seconds t] is what [buffer << t / 1e9] writes. *)
Class Processors (W : Type) := {
  prepare : ProcPtr → list nat → list nat → W → Call W IProcessor.Status;
  proc_expandPipeline : ProcPtr → W → Call W (list ProcPtr);
  onUpdatePorts : ProcPtr → W → Call W ();
  getName : ProcPtr → W → string;
  trigger : EdgePtr → W → W;
  clock : W → N;
  printPipeline : list ProcPtr → gmap ProcPtr string → W →
                  list IProcessor.Status → string;
  write_seconds : N → string;
}.

(** Modelled from the spec: [ExecutingGraph::expandPipeline] (the class
    [ExecutingGraph] is not part of this file), which "appends new nodes,
    wires any new edges the just-expanded processor created, returns the
    set of node indices whose edge set changed"; edges are "appended-only
    (never removed) even across pipeline expansion".  It is given the
    processors list and returns the indices and the new node table.  Its
    three laws say what the spec says: afterwards there is a node for every
    processor, the indices returned are indices of nodes, and a node that
    was there has only gained edges. *)
Class ExecutingGraph (W : Type) := {
  graph_expandPipeline : list ProcPtr → W → list Node → list nat * list Node;
  graph_expandPipeline_nodes (ps : list ProcPtr) (w : W) (ns : list Node) :
    length ns ≤ length ps →
    length (graph_expandPipeline ps w ns).2 = length ps;
  graph_expandPipeline_updated (ps : list ProcPtr) (w : W) (ns : list Node) u :
    length ns ≤ length ps →
    u ∈ (graph_expandPipeline ps w ns).1 → u < length ps;
  graph_expandPipeline_grows (ps : list ProcPtr) (w : W) (ns : list Node) i n :
    ns !! i = Some n →
    ∃ n', (graph_expandPipeline ps w ns).2 !! i = Some n' ∧ grown_from n n';
}.

(** [#ifndef NDEBUG] blocks are compiled in when [NDEBUG] is [false];
    [LOG_TRACE] evaluates its arguments when the trace level is enabled. *)
Class Build := { NDEBUG : bool; log_trace_enabled : bool }.

(** ** The executor *)

(** [QueryStatus], as far as the executor looks at it. *)
Record QueryStatus := { isKilled : bool }.

(** Modelled from the spec: [ExecutorTasks] (not part of this file): the
    "[finished] flag", the "per-thread context" with its "sticky exception
    slot", and the "global ready queue". *)
Record ExecutorTasks := {
  finished : bool;
  thread_exceptions : list (option Exception);
  task_queue : list nat;
}.

(** [PipelineExecutor].  [processors] is the flat list the executor holds
    by reference, [nodes] is [graph->nodes], [world] is the state of the
    processors themselves and [descriptions] what
    [IProcessor::setDescription] has set for each of them. *)
Record PipelineExecutor (W : Type) := {
  processors : list ProcPtr;
  nodes : list Node;
  world : W;
  descriptions : gmap ProcPtr string;
  process_list_element : option QueryStatus;
  cancelled : bool;
  is_execution_initialized : bool;
  tasks : ExecutorTasks;
}.
Arguments processors {W} p.
Arguments nodes {W} p.
Arguments world {W} p.
Arguments descriptions {W} p.
Arguments process_list_element {W} p.
Arguments cancelled {W} p.
Arguments is_execution_initialized {W} p.
Arguments tasks {W} p.

Definition set_nodes {W} (ns : list Node) (ex : PipelineExecutor W) : PipelineExecutor W :=
  {| processors := processors ex; nodes := ns; world := world ex;
     descriptions := descriptions ex;
     process_list_element := process_list_element ex;
     cancelled := cancelled ex;
     is_execution_initialized := is_execution_initialized ex;
     tasks := tasks ex |}.

Definition set_world {W} (w : W) (ex : PipelineExecutor W) : PipelineExecutor W :=
  {| processors := processors ex; nodes := nodes ex; world := w;
     descriptions := descriptions ex;
     process_list_element := process_list_element ex;
     cancelled := cancelled ex;
     is_execution_initialized := is_execution_initialized ex;
     tasks := tasks ex |}.

Definition set_processors {W} (ps : list ProcPtr) (ex : PipelineExecutor W) : PipelineExecutor W :=
  {| processors := ps; nodes := nodes ex; world := world ex;
     descriptions := descriptions ex;
     process_list_element := process_list_element ex;
     cancelled := cancelled ex;
     is_execution_initialized := is_execution_initialized ex;
     tasks := tasks ex |}.

Definition set_descriptions {W} (d : gmap ProcPtr string) (ex : PipelineExecutor W) : PipelineExecutor W :=
  {| processors := processors ex; nodes := nodes ex; world := world ex;
     descriptions := d;
     process_list_element := process_list_element ex;
     cancelled := cancelled ex;
     is_execution_initialized := is_execution_initialized ex;
     tasks := tasks ex |}.

Definition set_is_execution_initialized {W} (b : bool) (ex : PipelineExecutor W) : PipelineExecutor W :=
  {| processors := processors ex; nodes := nodes ex; world := world ex;
     descriptions := descriptions ex;
     process_list_element := process_list_element ex;
     cancelled := cancelled ex;
     is_execution_initialized := b;
     tasks := tasks ex |}.

Definition set_tasks {W} (t : ExecutorTasks) (ex : PipelineExecutor W) : PipelineExecutor W :=
  {| processors := processors ex; nodes := nodes ex; world := world ex;
     descriptions := descriptions ex;
     process_list_element := process_list_element ex;
     cancelled := cancelled ex;
     is_execution_initialized := is_execution_initialized ex;
     tasks := t |}.

(** ** addChildlessProcessorsToStack *)

(** The body of the [for] loop for [proc], [proc + 1], ... ([count] rounds). *)
Fixpoint addChildless_from (count proc : nat) (stack : list nat) (ns : list Node)
  : option (list nat * list Node) :=
  match count with
  | 0 => Some (stack, ns)
  | S count' =>
      n ← ns !! proc;
      if decide (direct_edges n = [])
      then addChildless_from count' (S proc) (proc :: stack)
             (<[proc := set_status ExecStatus.Preparing n]> ns)
      else addChildless_from count' (S proc) stack ns
  end.

Definition addChildlessProcessorsToStack {W} (stack : list nat) (ex : PipelineExecutor W)
  : option (list nat * PipelineExecutor W) :=
  let num_processors := length (processors ex) in
  '(stack', ns) ← addChildless_from num_processors 0 stack (nodes ex);
  Some (stack', set_nodes ns ex).

(** ** prepareProcessor and expandPipeline *)

(** [std::stack::push] of the elements of [xs], first to last. *)
Definition push_all {A} (xs : list A) (stack : list A) : list A :=
  foldl (λ st x, x :: st) stack xs.

(** The locals of [prepareProcessor] that outlive one round of its loop:
    the two work stacks and the two queues passed by reference. *)
Record Walk := {
  updated_edges : list EdgePtr;
  updated_processors : list nat;
  queue : list nat;
  async_queue : list nat;
}.

(** How one round of the [while] loop of [prepareProcessor] ends. *)
Inductive Iter (W : Type) :=
  | Next (ex : PipelineExecutor W) (wk : Walk)
  | Return (b : bool) (ex : PipelineExecutor W) (wk : Walk)
  | Raise (e : Exception) (ex : PipelineExecutor W) (wk : Walk)
  | Undefined.
Arguments Next {W} ex wk.
Arguments Return {W} b ex wk.
Arguments Raise {W} e ex wk.
Arguments Undefined {W}.

(** How a bounded run of a loop ends. *)
Inductive Run (A : Type) :=
  | Done (a : A)
  | Uncaught (e : Exception)
  | Fault
  | OutOfFuel.
Arguments Done {A} a.
Arguments Uncaught {A} e.
Arguments Fault {A}.
Arguments OutOfFuel {A}.

Section Executor.
Context {W : Type} {procs : Processors W} {graph : ExecutingGraph W}
        {build : Build}.

(** The port updates a processor made during a call reach the lists of
    its node. *)
Definition absorb {A} (c : Call W A) (n : Node) : Node :=
  set_post_updated_ports
    (post_updated_input_ports n ++ dirty_inputs c)
    (post_updated_output_ports n ++ dirty_outputs c) n.

(** [edge->update_info.trigger()] for each pointer, first to last. *)
Definition trigger_all (ptrs : list EdgePtr) (w : W) : W :=
  foldl (λ w p, trigger p w) w ptrs.

(** Lines 104-124: the loop of [expandPipeline] over [updated_nodes]. *)
Fixpoint restage (updated_nodes : list nat)
    (back_edges_sizes direct_edge_sizes : list nat)
    (stack : list nat) (ns : list Node) : option (list nat * list Node) :=
  match updated_nodes with
  | [] => Some (stack, ns)
  | updated_node :: rest =>
      node ← ns !! updated_node;
      from_back ← back_edges_sizes !! updated_node;
      from_direct ← direct_edge_sizes !! updated_node;
      let num_direct_edges := length (direct_edges node) in
      let num_back_edges := length (back_edges node) in
      let node1 :=
        set_updated_ports
          (updated_input_ports node ++ seq from_back (num_back_edges - from_back))
          (updated_output_ports node ++ seq from_direct (num_direct_edges - from_direct))
          node in
      if decide (status node1 = ExecStatus.Idle)
      then restage rest back_edges_sizes direct_edge_sizes (updated_node :: stack)
             (<[updated_node := set_status ExecStatus.Preparing node1]> ns)
      else restage rest back_edges_sizes direct_edge_sizes stack
             (<[updated_node := node1]> ns)
  end.

(** [PipelineExecutor::expandPipeline(stack, pid)]: the returned flag,
    the stack and the executor afterwards. *)
Definition expandPipeline (stack : list nat) (pid : nat) (ex : PipelineExecutor W)
  : option (bool * list nat * PipelineExecutor W) :=
  cur_node ← nodes ex !! pid;
  let c := proc_expandPipeline (processor cur_node) (world ex) in
  let cur_node := absorb c cur_node in
  match returned c with
  | Threw e =>
      Some (false, stack,
            set_world (world_after c)
              (set_nodes (<[pid := set_exception (Some e) cur_node]> (nodes ex)) ex))
  | Returned new_processors =>
      let ns := <[pid := cur_node]> (nodes ex) in
      let processors' := processors ex ++ new_processors in
      let num_processors := length processors' in
      if decide (length ns ≤ num_processors) then
        let pad := replicate (num_processors - length ns) 0 in
        let back_edges_sizes := ((λ n, length (back_edges n)) <$> ns) ++ pad in
        let direct_edge_sizes := ((λ n, length (direct_edges n)) <$> ns) ++ pad in
        let '(updated_nodes, ns') :=
          graph_expandPipeline processors' (world_after c) ns in
        '(stack', ns'') ← restage updated_nodes back_edges_sizes direct_edge_sizes stack ns';
        Some (true, stack',
              set_world (world_after c) (set_nodes ns'' (set_processors processors' ex)))
      else None
  end.

(** Lines 206-236: the [switch] on [node.last_processor_status]. *)
Definition switch_status (pid : nat) (node : Node) (wk : Walk) : Node * Walk * bool :=
  match last_processor_status node with
  | IProcessor.NeedData | IProcessor.PortFull =>
      (set_status ExecStatus.Idle node, wk, false)
  | IProcessor.Finished =>
      (set_status ExecStatus.Finished node, wk, false)
  | IProcessor.Ready =>
      (set_status ExecStatus.Executing node,
       {| updated_edges := updated_edges wk;
          updated_processors := updated_processors wk;
          queue := queue wk ++ [pid];
          async_queue := async_queue wk |}, false)
  | IProcessor.Async =>
      (set_status ExecStatus.Executing node,
       {| updated_edges := updated_edges wk;
          updated_processors := updated_processors wk;
          queue := queue wk;
          async_queue := async_queue wk ++ [pid] |}, false)
  | IProcessor.ExpandPipeline =>
      (node, wk, true)
  end.

(** Lines 187-204: the call of [prepare] on [node]: whether it returned,
    and the node afterwards.  When it threw, the exception is on the
    node; when it returned, the result is in [last_processor_status] and
    the two pending lists are cleared. *)
Definition call_prepare (node : Node) (w : W) : bool * Node * W :=
  let c := prepare (processor node) (updated_input_ports node)
             (updated_output_ports node) w in
  let node := absorb c node in
  match returned c with
  | Threw e => (false, set_exception (Some e) node, world_after c)
  | Returned st =>
      let node := set_last_processor_status st node in
      let node :=
        if NDEBUG then node
        else set_preparation_time_ns
               (preparation_time_ns node + (clock (world_after c) - clock w))%N node in
      (true, set_updated_ports [] [] node, world_after c)
  end.

(** Lines 139-168: the round that takes an edge from [updated_edges]. *)
Definition edge_round (ex : PipelineExecutor W) (wk : Walk) : Iter W :=
  match updated_edges wk with
  | [] => Undefined
  | edge :: rest =>
      let wk := {| updated_edges := rest;
                   updated_processors := updated_processors wk;
                   queue := queue wk; async_queue := async_queue wk |} in
      match lookup_edge (nodes ex) edge with
      | None => Undefined
      | Some e =>
          match nodes ex !! to e with
          | None => Undefined
          | Some node =>
              if decide (status node ≠ ExecStatus.Finished) then
                let node :=
                  if backward e
                  then set_updated_ports (updated_input_ports node)
                         (updated_output_ports node ++ [output_port_number e]) node
                  else set_updated_ports
                         (updated_input_ports node ++ [input_port_number e])
                         (updated_output_ports node) node in
                if decide (status node = ExecStatus.Idle) then
                  Next (set_nodes (<[to e := set_status ExecStatus.Preparing node]> (nodes ex)) ex)
                       {| updated_edges := updated_edges wk;
                          updated_processors := to e :: updated_processors wk;
                          queue := queue wk; async_queue := async_queue wk |}
                else
                  let c := onUpdatePorts (processor node) (world ex) in
                  let ex := set_world (world_after c)
                              (set_nodes (<[to e := absorb c node]> (nodes ex)) ex) in
                  match returned c with
                  | Threw x => Raise x ex wk
                  | Returned _ => Next ex wk
                  end
              else Next ex wk
          end
      end
  end.

(** Lines 169-278: the round that takes a node from
    [updated_processors]. *)
Definition node_round (ex : PipelineExecutor W) (wk : Walk) : Iter W :=
  match updated_processors wk with
  | [] => Undefined
  | pid :: rest =>
      let wk := {| updated_edges := updated_edges wk;
                   updated_processors := rest;
                   queue := queue wk; async_queue := async_queue wk |} in
      match nodes ex !! pid with
      | None => Undefined
      | Some node =>
          let '(returned_normally, node, w) := call_prepare node (world ex) in
          if negb returned_normally then
            Return false (set_world w (set_nodes (<[pid := node]> (nodes ex)) ex)) wk
          else
            let '(node, wk, need_expand_pipeline) := switch_status pid node wk in
            if need_expand_pipeline then
              let ex := set_world w (set_nodes (<[pid := node]> (nodes ex)) ex) in
              match expandPipeline (updated_processors wk) pid ex with
              | None => Undefined
              | Some (false, stack, ex) =>
                  Return false ex
                    {| updated_edges := updated_edges wk;
                       updated_processors := stack;
                       queue := queue wk; async_queue := async_queue wk |}
              | Some (true, stack, ex) =>
                  Next ex
                    {| updated_edges := updated_edges wk;
                       updated_processors := pid :: stack;
                       queue := queue wk; async_queue := async_queue wk |}
              end
            else
              let outs := rev (post_updated_output_ports node) in
              let ins := rev (post_updated_input_ports node) in
              let w := trigger_all ins (trigger_all outs w) in
              let node := set_post_updated_ports [] [] node in
              Next (set_world w (set_nodes (<[pid := node]> (nodes ex)) ex))
                   {| updated_edges := push_all ins (push_all outs (updated_edges wk));
                      updated_processors := updated_processors wk;
                      queue := queue wk; async_queue := async_queue wk |}
      end
  end.

(** One round of the loop at lines 135-279. *)
Definition round (ex : PipelineExecutor W) (wk : Walk) : Iter W :=
  match updated_processors wk with
  | [] => edge_round ex wk
  | _ :: _ => node_round ex wk
  end.

(** The loop itself, for at most [fuel] rounds. *)
Fixpoint walk (fuel : nat) (ex : PipelineExecutor W) (wk : Walk)
  : Run (bool * PipelineExecutor W * Walk) :=
  match updated_processors wk, updated_edges wk with
  | [], [] => Done (true, ex, wk)
  | _, _ =>
      match fuel with
      | 0 => OutOfFuel
      | S fuel =>
          match round ex wk with
          | Next ex wk => walk fuel ex wk
          | Return b ex wk => Done (b, ex, wk)
          | Raise e _ _ => Uncaught e
          | Undefined => Fault
          end
      end
  end.

(** [prepareProcessor(pid, queue, async_queue, pipeline_lock)]: the
    returned flag, the executor and the two queues afterwards. *)
Definition prepareProcessor (fuel : nat) (pid : nat) (q aq : list nat)
    (ex : PipelineExecutor W) : Run (bool * PipelineExecutor W * list nat * list nat) :=
  match walk fuel ex {| updated_edges := []; updated_processors := [pid];
                        queue := q; async_queue := aq |} with
  | Done (b, ex, wk) => Done (b, ex, queue wk, async_queue wk)
  | Uncaught e => Uncaught e
  | Fault => Fault
  | OutOfFuel => OutOfFuel
  end.

(** ** dumpPipeline *)

(** Lines 557-565: what the buffer holds for [node]. *)
Definition node_description (node : Node) : string :=
  "(" +:+ pretty (num_executed_jobs node) +:+ " jobs" +:+
  (if NDEBUG then ""
   else ", execution time: " +:+ write_seconds (execution_time_ns node) +:+ " sec."
        +:+ ", preparation time: " +:+ write_seconds (preparation_time_ns node) +:+ " sec.")
  +:+ ")".

(** Lines 554-568: [node->processor->setDescription(buffer.str())] for
    every node, first to last. *)
Definition describe_nodes (ns : list Node) (d : gmap ProcPtr string) : gmap ProcPtr string :=
  foldl (λ d node, <[processor node := node_description node]> d) d ns.

(** [dumpPipeline()]: the returned string, and the executor afterwards. *)
Definition dumpPipeline (ex : PipelineExecutor W) : string * PipelineExecutor W :=
  let ex := set_descriptions (describe_nodes (nodes ex) (descriptions ex)) ex in
  let statuses := last_processor_status <$> nodes ex in
  (printPipeline (processors ex) (descriptions ex) (world ex) statuses, ex).

(** ** finalizeExecution *)

(** Lines 360-369. *)
Fixpoint all_processors_finished (ns : list Node) : bool :=
  match ns with
  | [] => true
  | node :: rest =>
      if decide (status node ≠ ExecStatus.Finished) then false
      else all_processors_finished rest
  end.

Definition newline : string := String (Ascii.ascii_of_nat 10) "".

Definition finalizeExecution (ex : PipelineExecutor W) : Result () * PipelineExecutor W :=
  if (match process_list_element ex with
      | Some elem => isKilled elem
      | None => false
      end)
  then (Threw {| code := QUERY_WAS_CANCELLED; message := "Query was cancelled" |}, ex)
  else if cancelled ex then (Returned (), ex)
  else if negb (all_processors_finished (nodes ex)) then
    let '(dump, ex) := dumpPipeline ex in
    (Threw {| code := LOGICAL_ERROR;
              message := "Pipeline stuck. Current state:" +:+ newline +:+ dump |}, ex)
  else (Returned (), ex).

(** ** initializeExecution *)

(** Modelled from the spec: [ExecutorTasks::init] (not part of this
    file): "Task Queue contexts are created per execute/executeStep
    invocation sized to the requested thread count". *)
Definition tasks_init (num_threads : nat) (t : ExecutorTasks) : ExecutorTasks :=
  {| finished := finished t;
     thread_exceptions := replicate num_threads None;
     task_queue := task_queue t |}.

(** Modelled from the spec: [ExecutorTasks::fill] (not part of this
    file): it hands the ready nodes of [queue] to the task queue. *)
Definition tasks_fill (q : list nat) (t : ExecutorTasks) : ExecutorTasks :=
  {| finished := finished t;
     thread_exceptions := thread_exceptions t;
     task_queue := task_queue t ++ q |}.

(** Lines 469-479: the loop over the seeded stack.  Every call of
    [prepareProcessor] may take [fuel] rounds. *)
Fixpoint seed_loop (fuel : nat) (stack : list nat) (q aq : list nat)
    (ex : PipelineExecutor W) : Run (Result (list nat) * PipelineExecutor W) :=
  match stack with
  | [] => Done (Returned q, ex)
  | proc :: stack =>
      match prepareProcessor fuel proc q aq ex with
      | Done (_, ex, q, aq) =>
          match aq with
          | [] => seed_loop fuel stack q aq ex
          | front :: _ =>
              match nodes ex !! front with
              | None => Fault
              | Some node =>
                  Done (Threw {| code := LOGICAL_ERROR;
                                 message := "Async is only possible after work() call. Processor "
                                            +:+ getName (processor node) (world ex) |}, ex)
              end
          end
      | Uncaught e => Uncaught e
      | Fault => Fault
      | OutOfFuel => OutOfFuel
      end
  end.

Definition initializeExecution (fuel : nat) (num_threads : nat) (ex : PipelineExecutor W)
  : Run (Result () * PipelineExecutor W) :=
  let ex := set_is_execution_initialized true ex in
  match addChildlessProcessorsToStack [] ex with
  | None => Fault
  | Some (stack, ex) =>
      let ex := set_tasks (tasks_init num_threads (tasks ex)) ex in
      match seed_loop fuel stack [] [] ex with
      | Done (Returned q, ex) =>
          Done (Returned (), set_tasks (tasks_fill q (tasks ex)) ex)
      | Done (Threw e, ex) => Done (Threw e, ex)
      | Uncaught e => Uncaught e
      | Fault => Fault
      | OutOfFuel => OutOfFuel
      end
  end.

(** ** execute *)

(** Lines 309-311: the exception of the first node that has one. *)
Fixpoint first_node_exception (ns : list Node) : option Exception :=
  match ns with
  | [] => None
  | node :: rest =>
      match exception node with
      | Some e => Some e
      | None => first_node_exception rest
      end
  end.

(** Modelled from the spec: [ExecutorTasks::rethrowFirstThreadException]
    (not part of this file): of the per-thread "sticky exception
    slot[s]" it rethrows the first that is set. *)
Fixpoint rethrowFirstThreadException (slots : list (option Exception)) : option Exception :=
  match slots with
  | [] => None
  | Some e :: _ => Some e
  | None :: rest => rethrowFirstThreadException rest
  end.

(** [execute(num_threads)] from the point where [executeImpl] has ended
    and its threads are joined: [impl] is how [executeImpl] ended and
    [ex] the executor it left. *)
Definition execute (impl : Result ()) (ex : PipelineExecutor W)
  : Result () * PipelineExecutor W :=
  let tried :=
    match impl with
    | Threw e => Threw e
    | Returned _ =>
        match first_node_exception (nodes ex) with
        | Some e => Threw e
        | None =>
            match rethrowFirstThreadException (thread_exceptions (tasks ex)) with
            | Some e => Threw e
            | None => Returned ()
            end
        end
    end in
  match tried with
  | Threw e =>
      (Threw e,
       if NDEBUG then ex
       else if log_trace_enabled then (dumpPipeline ex).2 else ex)
  | Returned _ => finalizeExecution ex
  end.

End Executor.

(** ** What a run of the executor does, as lists of events

    These functions follow the loops above round by round and collect what
    happens in them; the theorems relate them to the stacks and queues. *)

(** The childless nodes of a graph, by increasing index. *)
Definition is_childless (ns : list Node) (i : nat) : bool :=
  match ns !! i with
  | Some n => bool_decide (direct_edges n = [])
  | None => false
  end.

Definition childless_indices (ns : list Node) : list nat :=
  filter (λ i, is_childless ns i) (seq 0 (length ns)).

(** What the loop of [addChildlessProcessorsToStack] has done to node [i] once it has covered the indices
    from [proc] up to [proc + count]. *)
Definition seeded (proc count i : nat) (n : Node) : Node :=
  if decide (proc ≤ i < proc + count ∧ direct_edges n = [])
  then set_status ExecStatus.Preparing n else n.

(** A node as an expansion of the pipeline may leave it: same processor
    and exception slot, and the same status unless it was [Idle] and is
    now staged as [Preparing]. *)
Definition kept (n n' : Node) : Prop :=
  processor n' = processor n
  ∧ exception n' = exception n
  ∧ (status n' = status n
     ∨ (status n = ExecStatus.Idle ∧ status n' = ExecStatus.Preparing)).

(** The status the table of the node state machine gives a node after
    [prepare] has returned [st], [old] being its status before:
    NeedData / PortFull: Idle; Finished: Finished; Ready, Async:
    Executing; ExpandPipeline: unchanged. *)
Definition status_after (st : IProcessor.Status) (old : ExecStatus.t) : ExecStatus.t :=
  match st with
  | IProcessor.NeedData | IProcessor.PortFull => ExecStatus.Idle
  | IProcessor.Finished => ExecStatus.Finished
  | IProcessor.Ready | IProcessor.Async => ExecStatus.Executing
  | IProcessor.ExpandPipeline => old
  end.

Definition node_status {W} (ex : PipelineExecutor W) (i : nat) : option ExecStatus.t :=
  status <$> nodes ex !! i.

Definition node_exception {W} (ex : PipelineExecutor W) (i : nat) : option (option Exception) :=
  exception <$> nodes ex !! i.

(** All nodes of [ex] are still in [ex'], with the exception slots they
    had, but for node [skip]. *)
Definition slots_kept {W} (skip : option nat) (ex ex' : PipelineExecutor W) : Prop :=
  ∀ i n, Some i ≠ skip → nodes ex !! i = Some n →
         ∃ n', nodes ex' !! i = Some n' ∧ exception n' = exception n.

(** The processor [p] can throw [e], from [prepare] or from
    [expandPipeline]. *)
Definition thrown_by {W} {procs : Processors W} (p : ProcPtr) (e : Exception) : Prop :=
  (∃ ins outs (w : W), returned (prepare p ins outs w) = Threw e)
  ∨ (∃ w : W, returned (proc_expandPipeline p w) = Threw e).

(** The exception slot of node [pid] holds [e], thrown by its processor. *)
Definition captured {W} {procs : Processors W} (ex : PipelineExecutor W) (pid : nat)
    (e : Exception) : Prop :=
  ∃ n, nodes ex !! pid = Some n ∧ exception n = Some e ∧ thrown_by (W:=W) (processor n) e.

(** The parts of the executor that [prepareProcessor] never writes. *)
Definition same_control {W} (ex ex' : PipelineExecutor W) : Prop :=
  tasks ex' = tasks ex
  ∧ is_execution_initialized ex' = is_execution_initialized ex
  ∧ cancelled ex' = cancelled ex
  ∧ process_list_element ex' = process_list_element ex
  ∧ descriptions ex' = descriptions ex.

(** The loop condition of [prepareProcessor] is false: both stacks are
    empty. *)
Definition walk_over (wk : Walk) : Prop :=
  updated_processors wk = [] ∧ updated_edges wk = [].

#[global] Instance walk_over_dec wk : Decision (walk_over wk).
Proof. unfold walk_over. apply _. Defined.

Section Events.
Context {W : Type} {procs : Processors W} {graph : ExecutingGraph W}
        {build : Build}.

(** The edge that the next round takes from [updated_edges], if it is
    a round for an edge. *)
Definition taken_edge (wk : Walk) : list EdgePtr :=
  match updated_processors wk with
  | [] => take 1 (updated_edges wk)
  | _ :: _ => []
  end.

(** The edges taken from [updated_edges] by [walk fuel ex wk], in the
    order they are taken. *)
Fixpoint deliveries (fuel : nat) (ex : PipelineExecutor W) (wk : Walk) : list EdgePtr :=
  match updated_processors wk, updated_edges wk with
  | [], [] => []
  | _, _ =>
      match fuel with
      | 0 => []
      | S fuel =>
          match round ex wk with
          | Next ex' wk' => taken_edge wk ++ deliveries fuel ex' wk'
          | Raise _ _ _ => taken_edge wk
          | Return _ _ _ | Undefined => []
          end
      end
  end.

(** The node that the next round prepares and the status its [prepare]
    returns, if it is a round for a node and [prepare] returns. *)
Definition prepared (ex : PipelineExecutor W) (wk : Walk) : list (nat * IProcessor.Status) :=
  match updated_processors wk with
  | [] => []
  | pid :: _ =>
      match nodes ex !! pid with
      | None => []
      | Some node =>
          match returned (prepare (processor node) (updated_input_ports node)
                            (updated_output_ports node) (world ex)) with
          | Returned st => [(pid, st)]
          | Threw _ => []
          end
      end
  end.

(** The round of [prepareProcessor] for node [pid] fails with [e]: its
    [prepare] throws [e], or returns [ExpandPipeline] and then its
    [expandPipeline()] throws [e]. *)
Definition fails_with (ex : PipelineExecutor W) (pid : nat) (e : Exception) : Prop :=
  ∃ node,
    nodes ex !! pid = Some node
    ∧ (returned (prepare (processor node) (updated_input_ports node)
                   (updated_output_ports node) (world ex)) = Threw e
       ∨ (returned (prepare (processor node) (updated_input_ports node)
                      (updated_output_ports node) (world ex))
          = Returned IProcessor.ExpandPipeline
          ∧ returned (proc_expandPipeline (processor node)
                        (world_after (prepare (processor node) (updated_input_ports node)
                                        (updated_output_ports node) (world ex))))
            = Threw e)).

(** The calls of [prepare] that return during [walk fuel ex wk]. *)
Fixpoint prepare_trace (fuel : nat) (ex : PipelineExecutor W) (wk : Walk)
  : list (nat * IProcessor.Status) :=
  match updated_processors wk, updated_edges wk with
  | [], [] => []
  | _, _ =>
      match fuel with
      | 0 => []
      | S fuel =>
          match round ex wk with
          | Next ex' wk' => prepared ex wk ++ prepare_trace fuel ex' wk'
          | Return _ _ _ | Raise _ _ _ | Undefined => prepared ex wk
          end
      end
  end.

(** The nodes of a trace whose [prepare] returned [st]. *)
Definition returning (st : IProcessor.Status) (tr : list (nat * IProcessor.Status)) : list nat :=
  (filter (λ x, x.2 = st) tr).*1.

(** The calls of [prepare] that return during [seed_loop]. *)
Fixpoint seed_trace (fuel : nat) (stack : list nat) (q aq : list nat)
    (ex : PipelineExecutor W) : list (nat * IProcessor.Status) :=
  match stack with
  | [] => []
  | proc :: stack =>
      prepare_trace fuel ex {| updated_edges := []; updated_processors := [proc];
                               queue := q; async_queue := aq |}
      ++ match prepareProcessor fuel proc q aq ex with
         | Done (_, ex, q, []) => seed_trace fuel stack q [] ex
         | _ => []
         end
  end.

(** The calls of [prepare] that return during [initializeExecution]. *)
Definition initialize_trace (fuel : nat) (num_threads : nat) (ex : PipelineExecutor W)
  : list (nat * IProcessor.Status) :=
  let ex := set_is_execution_initialized true ex in
  match addChildlessProcessorsToStack [] ex with
  | None => []
  | Some (stack, ex) =>
      seed_trace fuel stack [] [] (set_tasks (tasks_init num_threads (tasks ex)) ex)
  end.

(** [process_list_element && process_list_element->isKilled()]. *)
Definition query_killed (ex : PipelineExecutor W) : bool :=
  match process_list_element ex with
  | Some elem => isKilled elem
  | None => false
  end.

End Events.

(** ** A scripted world

    Processors whose calls follow a script, for running the executor on
    concrete graphs.  Each processor has a list of outcomes of [prepare],
    consumed one per call ([NeedData] once the list is used up), and one
    outcome of [expandPipeline]; every call of [prepare] is logged with its
    arguments and advances the clock by one. *)
Record Scripted := {
  prepare_script : gmap ProcPtr (list (Result IProcessor.Status));
  expand_script : gmap ProcPtr (Result (list ProcPtr));
  prepare_log : list (ProcPtr * list nat * list nat);
  triggered : list EdgePtr;
  ticks : N;
}.

Definition scripted_prepare (p : ProcPtr) (ins outs : list nat) (w : Scripted)
  : Call Scripted IProcessor.Status :=
  let script := default [] (prepare_script w !! p) in
  {| returned := default (Returned IProcessor.NeedData) (head script);
     world_after :=
       {| prepare_script := <[p := tail script]> (prepare_script w);
          expand_script := expand_script w;
          prepare_log := prepare_log w ++ [(p, ins, outs)];
          triggered := triggered w;
          ticks := ticks w + 1 |};
     dirty_inputs := [];
     dirty_outputs := [] |}.

Definition scripted_expandPipeline (p : ProcPtr) (w : Scripted)
  : Call Scripted (list ProcPtr) :=
  {| returned := default (Returned []) (expand_script w !! p);
     world_after := w;
     dirty_inputs := [];
     dirty_outputs := [] |}.

Definition scripted_trigger (e : EdgePtr) (w : Scripted) : Scripted :=
  {| prepare_script := prepare_script w;
     expand_script := expand_script w;
     prepare_log := prepare_log w;
     triggered := triggered w ++ [e];
     ticks := ticks w |}.

(** A node for a processor just added to the graph, as the constructor of
    [ExecutingGraph::Node] leaves it. *)
Definition fresh_node (p : ProcPtr) : Node :=
  {| processor := p; status := ExecStatus.Idle;
     direct_edges := []; back_edges := [];
     updated_input_ports := []; updated_output_ports := [];
     post_updated_input_ports := []; post_updated_output_ports := [];
     exception := None;
     last_processor_status := IProcessor.NeedData;
     num_executed_jobs := 0; execution_time_ns := 0; preparation_time_ns := 0 |}.

(** Expansion in the scripted world: a node for every processor that has
    none yet, no new edges. *)
Definition scripted_graph_expandPipeline (ps : list ProcPtr) (w : Scripted)
    (ns : list Node) : list nat * list Node :=
  ([], ns ++ (fresh_node <$> drop (length ns) ps)).

#[global] Instance scripted_processors : Processors Scripted :=
  {| prepare := scripted_prepare;
     proc_expandPipeline := scripted_expandPipeline;
     onUpdatePorts := λ _ w,
       {| returned := Returned (); world_after := w;
          dirty_inputs := []; dirty_outputs := [] |};
     getName := λ p _, ("P" +:+ pretty p)%string;
     trigger := scripted_trigger;
     clock := ticks;
     printPipeline := λ ps d _ _,
       String.concat ";" ((λ p, default "" (d !! p)) <$> ps);
     write_seconds := λ t, pretty t |}.

#[global] Instance scripted_graph : ExecutingGraph Scripted.
Proof.
  refine {| graph_expandPipeline := scripted_graph_expandPipeline |}.
  - intros ps w ns Hlen. unfold scripted_graph_expandPipeline. simpl.
    rewrite length_app, length_fmap, length_drop. lia.
  - intros ps w ns u _ Hu. by apply elem_of_nil in Hu.
  - intros ps w ns i n Hi. exists n. split.
    + unfold scripted_graph_expandPipeline. simpl.
      rewrite lookup_app_l; [done | by eapply lookup_lt_Some].
    + exists [], []. rewrite !app_nil_r. by destruct n.
Defined.

Definition release_build : Build := {| NDEBUG := true; log_trace_enabled := false |}.
Definition debug_build : Build := {| NDEBUG := false; log_trace_enabled := true |}.

(** A scripted world with the given [prepare] and [expandPipeline] scripts. *)
Definition scripted (ps : list (ProcPtr * list (Result IProcessor.Status)))
    (es : list (ProcPtr * Result (list ProcPtr))) : Scripted :=
  {| prepare_script := list_to_map ps;
     expand_script := list_to_map es;
     prepare_log := [];
     triggered := [];
     ticks := 0 |}.

(** An executor over the given nodes, one processor per node. *)
Definition executor_of (ns : list Node) (w : Scripted) : PipelineExecutor Scripted :=
  {| processors := processor <$> ns;
     nodes := ns;
     world := w;
     descriptions := ∅;
     process_list_element := None;
     cancelled := false;
     is_execution_initialized := false;
     tasks := {| finished := false; thread_exceptions := []; task_queue := [] |} |}.

Definition boom (n : nat) : Exception :=
  {| code := OTHER_ERROR n; message := "boom" |}.

(** ** Concrete pipelines *)

Definition ptr_back (owner i : nat) : EdgePtr :=
  {| edge_owner := owner; edge_back := true; edge_index := i |}.

Definition ptr_direct (owner i : nat) : EdgePtr :=
  {| edge_owner := owner; edge_back := false; edge_index := i |}.

Definition direct_edge (target port : nat) : Edge :=
  {| to := target; backward := false; input_port_number := port; output_port_number := 0 |}.

Definition back_edge (target port : nat) : Edge :=
  {| to := target; backward := true; input_port_number := 0; output_port_number := port |}.

(** The locals of [prepareProcessor(pid, queue, async_queue, ...)] when
    its loop is entered, with two empty queues. *)
Definition walk_from (pid : nat) : Walk :=
  {| updated_edges := []; updated_processors := [pid]; queue := []; async_queue := [] |}.

(** Three processors in a row, 0 -> 1 -> 2.  Node 1 has just executed; its
    [work()] has touched its input port and its output port. *)
Definition chain_nodes : list Node :=
  [ set_edges [direct_edge 1 0] [] (fresh_node 0);
    set_post_updated_ports [ptr_back 1 0] [ptr_direct 1 0]
      (set_status ExecStatus.Executing
         (set_edges [direct_edge 2 0] [back_edge 0 0] (fresh_node 1)));
    set_edges [] [back_edge 1 0] (fresh_node 2) ].

Definition chain : PipelineExecutor Scripted :=
  executor_of chain_nodes
    (scripted [(1, [Returned IProcessor.PortFull]);
               (0, [Returned IProcessor.Ready]);
               (2, [Returned IProcessor.Async])] []).

(** The same row before anything has run: every node is as the graph is
    built, and the sink answers [Async] to its first [prepare]. *)
Definition early_async : PipelineExecutor Scripted :=
  executor_of
    [ set_edges [direct_edge 1 0] [] (fresh_node 0);
      set_edges [] [back_edge 0 0] (fresh_node 1) ]
    (scripted [(1, [Returned IProcessor.Async])] []).

(** A source and a sink; the sink asks for data, the source is ready. *)
Definition source_and_sink : PipelineExecutor Scripted :=
  executor_of
    [ set_edges [direct_edge 1 0] [] (fresh_node 0);
      set_post_updated_ports [ptr_back 1 0] []
        (set_edges [] [back_edge 0 0] (fresh_node 1)) ]
    (scripted [(1, [Returned IProcessor.NeedData]); (0, [Returned IProcessor.Ready])] []).

(** One staged processor that asks for an expansion by the processors 7
    and 8, and is finished when prepared again. *)
Definition expanding : PipelineExecutor Scripted :=
  executor_of [set_status ExecStatus.Preparing (fresh_node 0)]
    (scripted [(0, [Returned IProcessor.ExpandPipeline; Returned IProcessor.Finished])]
              [(0, Returned [7; 8])]).

(** One staged processor that asks for an expansion and whose
    [expandPipeline()] throws. *)
Definition failing_expansion : PipelineExecutor Scripted :=
  executor_of [set_status ExecStatus.Preparing (fresh_node 0)]
    (scripted [(0, [Returned IProcessor.ExpandPipeline])] [(0, Threw (boom 3))]).

(** One processor whose [prepare] throws at its first two calls. *)
Definition failing_twice : PipelineExecutor Scripted :=
  executor_of [fresh_node 0] (scripted [(0, [Threw (boom 1); Threw (boom 2)])] []).

(** Two nodes after a run: node 0 finished after 3 jobs, node 1 stuck
    after 12 jobs with an exception; one thread has an exception too. *)
Definition after_run : PipelineExecutor Scripted :=
  {| processors := [0; 1];
     nodes :=
       [ {| processor := 0; status := ExecStatus.Finished;
            direct_edges := [direct_edge 1 0]; back_edges := [];
            updated_input_ports := []; updated_output_ports := [];
            post_updated_input_ports := []; post_updated_output_ports := [];
            exception := None;
            last_processor_status := IProcessor.Finished;
            num_executed_jobs := 3; execution_time_ns := 0; preparation_time_ns := 0 |};
         {| processor := 1; status := ExecStatus.Idle;
            direct_edges := []; back_edges := [back_edge 0 0];
            updated_input_ports := []; updated_output_ports := [];
            post_updated_input_ports := []; post_updated_output_ports := [];
            exception := Some (boom 1);
            last_processor_status := IProcessor.NeedData;
            num_executed_jobs := 12; execution_time_ns := 0; preparation_time_ns := 0 |} ];
     world := scripted [] [];
     descriptions := ∅;
     process_list_element := Some {| isKilled := false |};
     cancelled := false;
     is_execution_initialized := true;
     tasks := {| finished := true;
                 thread_exceptions := [None; Some (boom 2)];
                 task_queue := [] |} |}.

(** The executor a call of [initializeExecution] leaves (release build,
    one thread, walks of at most five rounds). *)
Definition initialized (ex : PipelineExecutor Scripted) : PipelineExecutor Scripted :=
  match initializeExecution (build := release_build) 5 1 ex with
  | Done (_, ex') => ex'
  | _ => ex
  end.

(** The claim that exception slots are sticky, for [initializeExecution]:
    a slot that holds an exception holds the same one afterwards. *)
Definition exception_slots_sticky {W} {procs : Processors W} {graph : ExecutingGraph W}
    {build : Build} : Prop :=
  ∀ fuel num_threads (ex : PipelineExecutor W) r ex' pid e,
    node_exception ex pid = Some (Some e) →
    initializeExecution fuel num_threads ex = Done (r, ex') →
    node_exception ex' pid = Some (Some e).

(** ** What a walk keeps

    A node as any step of the executor leaves it: the same processor and
    job count, and the edges it had, in place. *)
Definition same_core (n n' : Node) : Prop :=
  processor n' = processor n
  ∧ num_executed_jobs n' = num_executed_jobs n
  ∧ direct_edges n `prefix_of` direct_edges n'
  ∧ back_edges n `prefix_of` back_edges n'.

(** A node a round does not prepare: nothing of it changes but the
    pending ports, edges it gains, and its staging from [Idle] to
    [Preparing]. *)
Definition bystander (n n' : Node) : Prop :=
  same_core n n'
  ∧ last_processor_status n' = last_processor_status n
  ∧ exception n' = exception n
  ∧ (status n' = status n
     ∨ (status n = ExecStatus.Idle ∧ status n' = ExecStatus.Preparing)).

(** What the loop of lines 104-124 does to a node: it may append to its
    pending lists and stage it. *)
Definition restaged_from (n n' : Node) : Prop :=
  processor n' = processor n
  ∧ num_executed_jobs n' = num_executed_jobs n
  ∧ direct_edges n' = direct_edges n
  ∧ back_edges n' = back_edges n
  ∧ last_processor_status n' = last_processor_status n
  ∧ exception n' = exception n.

(** What one round of [prepareProcessor] that ends in [ex'], [wk'] has done:
    to the nodes it found, to the stack of nodes to prepare, and to the
    node it has prepared. *)
Definition round_post {W} {procs : Processors W} (ex : PipelineExecutor W) (wk : Walk)
    (ex' : PipelineExecutor W) (wk' : Walk) : Prop :=
  (∀ i n, nodes ex !! i = Some n →
     ∃ n', nodes ex' !! i = Some n' ∧ same_core n n'
           ∧ (head (updated_processors wk) ≠ Some i → bystander n n'))
  ∧ (∃ pushed,
       NoDup pushed
       ∧ (∀ j, j ∈ pushed →
            node_status ex' j = Some ExecStatus.Preparing
            ∧ (node_status ex j = Some ExecStatus.Idle ∨ node_status ex j = None))
       ∧ (updated_processors wk' = pushed ++ tail (updated_processors wk)
          ∨ ∃ pid n n',
              head (updated_processors wk) = Some pid
              ∧ updated_processors wk' = pid :: pushed ++ tail (updated_processors wk)
              ∧ prepared ex wk = [(pid, IProcessor.ExpandPipeline)]
              ∧ nodes ex !! pid = Some n ∧ nodes ex' !! pid = Some n'
              ∧ (status n' = status n
                 ∨ (status n = ExecStatus.Idle ∧ status n' = ExecStatus.Preparing))))
  ∧ (∀ pid st, prepared ex wk = [(pid, st)] → st ≠ IProcessor.ExpandPipeline →
       updated_processors wk' = tail (updated_processors wk)
       ∧ ∃ n n', nodes ex !! pid = Some n ∧ nodes ex' !! pid = Some n'
                 ∧ status n' = status_after st (status n)
                 ∧ last_processor_status n' = st).

(** A node the walk has not disturbed: it is what it was, but for edges
    it may have gained, pending ports and ports its processor marked. *)
Definition undisturbed (n n' : Node) : Prop :=
  same_core n n'
  ∧ status n' = status n
  ∧ last_processor_status n' = last_processor_status n
  ∧ exception n' = exception n.

(** The nodes of a trace that were handed out for execution. *)
Definition handed_out (tr : list (nat * IProcessor.Status)) : list (nat * IProcessor.Status) :=
  filter (λ x, x.2 = IProcessor.Ready ∨ x.2 = IProcessor.Async) tr.

(** The invariant of the walk that makes it hand out a node at most once:
    the stack of nodes to prepare has no duplicates and none of its nodes
    is Idle; the nodes handed out so far, [H], are distinct, off the stack,
    Executing, and their last status is the one they were handed out
    with. *)
Definition walk_inv {W} (ex : PipelineExecutor W) (wk : Walk)
    (H : list (nat * IProcessor.Status)) : Prop :=
  NoDup (updated_processors wk)
  ∧ (∀ j, j ∈ updated_processors wk →
       ∃ n, nodes ex !! j = Some n ∧ status n ≠ ExecStatus.Idle)
  ∧ NoDup H.*1
  ∧ (∀ j st, (j, st) ∈ H →
       (j ∉ updated_processors wk)
       ∧ ∃ n, nodes ex !! j = Some n ∧ status n = ExecStatus.Executing
              ∧ last_processor_status n = st).


(** The invariant of the loop of [initializeExecution]: the seeded nodes
    still on [stack] are distinct and [Preparing], and none of them has
    been handed out; the nodes handed out so far, [H], are distinct,
    Executing, and their last status is the one they were handed out
    with. *)
Definition seed_inv {W} (ex : PipelineExecutor W) (stack : list nat)
    (H : list (nat * IProcessor.Status)) : Prop :=
  NoDup stack
  ∧ (∀ j, j ∈ stack →
       (∃ n, nodes ex !! j = Some n ∧ status n = ExecStatus.Preparing) ∧ j ∉ H.*1)
  ∧ NoDup H.*1
  ∧ (∀ j st, (j, st) ∈ H →
       ∃ n, nodes ex !! j = Some n ∧ status n = ExecStatus.Executing
            ∧ last_processor_status n = st).

(** ** cancel and finish *)

(** [IProcessor::cancel()] of a processor: how it ends and the world it
    leaves. *)
Class Cancelling (W : Type) := {
  proc_cancel : ProcPtr → W → Result () * W;
}.

Definition set_cancelled {W} (b : bool) (ex : PipelineExecutor W) : PipelineExecutor W :=
  {| processors := processors ex; nodes := nodes ex; world := world ex;
     descriptions := descriptions ex;
     process_list_element := process_list_element ex;
     cancelled := b;
     is_execution_initialized := is_execution_initialized ex;
     tasks := tasks ex |}.

(** Modelled from the spec: [ExecutorTasks::finish] (not part of this
    file): it "sets [finished = true] and wakes every blocked
    consumer". *)
Definition tasks_finish (t : ExecutorTasks) : ExecutorTasks :=
  {| finished := true;
     thread_exceptions := thread_exceptions t;
     task_queue := task_queue t |}.

(** [PipelineExecutor::finish()]. *)
Definition finish {W} (ex : PipelineExecutor W) : PipelineExecutor W :=
  set_tasks (tasks_finish (tasks ex)) ex.

(** Lines 290-291: [processor->cancel()] for each processor, first to
    last; an exception ends the loop. *)
Fixpoint cancel_all {W} {cancelling : Cancelling W} (ps : list ProcPtr) (w : W)
  : Result () * W :=
  match ps with
  | [] => (Returned (), w)
  | p :: ps =>
      match proc_cancel p w with
      | (Returned _, w) => cancel_all ps w
      | (Threw e, w) => (Threw e, w)
      end
  end.

(** [PipelineExecutor::cancel()]: how it ends and the executor it
    leaves. *)
Definition cancel {W} {cancelling : Cancelling W} (ex : PipelineExecutor W)
  : Result () * PipelineExecutor W :=
  let ex := set_cancelled true ex in
  let ex := finish ex in
  let '(r, w) := cancel_all (processors ex) (world ex) in
  (r, set_world w ex).

(** ** More concrete pipelines *)

(** The executor a call of [prepareProcessor(pid, queue, async_queue)]
    with two empty queues leaves (release build, at most ten rounds). *)
Definition after_prepare (pid : nat) (ex : PipelineExecutor Scripted)
  : PipelineExecutor Scripted :=
  match prepareProcessor (build := release_build) 10 pid [] [] ex with
  | Done (_, ex', _, _) => ex'
  | _ => ex
  end.

(** The row of [chain] with its sink in status [s]: node 1 has just
    executed and answers [PortFull], the source answers [Ready]. *)
Definition chain_with_sink (s : ExecStatus.t) : PipelineExecutor Scripted :=
  executor_of
    (<[2 := set_status s (set_edges [] [back_edge 1 0] (fresh_node 2))]> chain_nodes)
    (scripted [(1, [Returned IProcessor.PortFull]); (0, [Returned IProcessor.Ready])] []).

(** A graph with a node more than there are processors. *)
Definition surplus_node : PipelineExecutor Scripted :=
  {| processors := [0];
     nodes := [fresh_node 0; fresh_node 1];
     world := scripted [] [];
     descriptions := ∅;
     process_list_element := None;
     cancelled := false;
     is_execution_initialized := false;
     tasks := {| finished := false; thread_exceptions := []; task_queue := [] |} |}.

(** ** executeStepImpl, executeSingleThread and executeStep

    One thread of the executor, as [executeStep] runs it on the caller's
    thread.  The thread works on its [ExecutionThreadContext]; neither
    that class nor [ExecutorTasks] is part of PipelineExecutor.cpp, so the
    context is a value of a type [C] the model knows nothing about, and
    what the code calls on it are the methods of the class [Scheduler W C].
    Each of them may change the context and the executor in any way, or
    throw: the theorems hold whatever they do.

    [hasTask] is [context.hasTask()], [getProcessorID] is
    [context.getProcessorID()], [tryGetTask] is [tasks.tryGetTask(context)],
    [executeTask] is [context.executeTask()], which runs the [work()] of the
    processor and returns whether it went without an exception, and
    [pushTasks] is [tasks.pushTasks(queue, async_queue, context)].
    [add_processing_time] and [add_total_time] are the updates of the
    context's timers in a debug build.  [new_context] is the context of
    thread 0 as [tasks.init] creates it. *)
Class Scheduler (W C : Type) := {
  hasTask : C → bool;
  getProcessorID : C → nat;
  tryGetTask : C → PipelineExecutor W → Result (C * PipelineExecutor W);
  executeTask : C → PipelineExecutor W → Result (bool * C * PipelineExecutor W);
  pushTasks : list nat → list nat → C → PipelineExecutor W → Result (C * PipelineExecutor W);
  add_processing_time : N → C → C;
  add_total_time : N → C → C;
  new_context : C;
}.

(** [yield_flag && *yield_flag].  The flag is not the executor's: it is
    null, or what reading it gives is a function of the world. *)
Definition yield_requested {W} (yield_flag : option (W → bool)) (ex : PipelineExecutor W)
  : bool :=
  match yield_flag with
  | Some flag => flag (world ex)
  | None => false
  end.

Section Stepping.
Context {W C : Type} {procs : Processors W} {graph : ExecutingGraph W}
        {build : Build} {cancelling : Cancelling W} {scheduler : Scheduler W C}.

(** Lines 404-405: [while (!tasks.isFinished() && !context.hasTask())
    tasks.tryGetTask(context)], for at most [fuel] rounds. *)
Fixpoint find_task (fuel : nat) (c : C) (ex : PipelineExecutor W)
  : Run (C * PipelineExecutor W) :=
  if negb (finished (tasks ex)) && negb (hasTask c) then
    match fuel with
    | 0 => OutOfFuel
    | S fuel =>
        match tryGetTask c ex with
        | Returned (c, ex) => find_task fuel c ex
        | Threw e => Uncaught e
        end
    end
  else Done (c, ex).

(** Lines 409-444: the body of the loop over the tasks of the context.
    It gives whether the loop is left by [break], the value of [yield],
    the context and the executor.  A walk of [prepareProcessor] may take
    [fuel] rounds. *)
Definition task_round (fuel : nat) (yield_flag : option (W → bool)) (c : C)
    (ex : PipelineExecutor W) : Run (bool * bool * C * PipelineExecutor W) :=
  if finished (tasks ex) then Done (true, false, c, ex)
  else
    match executeTask c ex with
    | Threw e => Uncaught e
    | Returned (ok, c, ex) =>
        match (if ok then (Returned (), ex) else cancel ex) with
        | (Threw e, _) => Uncaught e
        | (Returned _, ex) =>
            if finished (tasks ex) then Done (true, false, c, ex)
            else
              let started := clock (world ex) in
              match prepareProcessor fuel (getProcessorID c) [] [] ex with
              | Done (ok, ex, q, aq) =>
                  let ex := if ok then ex else finish ex in
                  match pushTasks q aq c ex with
                  | Threw e => Uncaught e
                  | Returned (c, ex) =>
                      let c := if NDEBUG then c
                               else add_processing_time (clock (world ex) - started)%N c in
                      Done (false, yield_requested yield_flag ex, c, ex)
                  end
              | Uncaught e => Uncaught e
              | Fault => Fault
              | OutOfFuel => OutOfFuel
              end
        end
    end.

(** Lines 407-445: [while (context.hasTask() && !yield)], entered with
    [yield] false; it gives the value of [yield] when the loop is left. *)
Fixpoint run_tasks (fuel bound : nat) (yield_flag : option (W → bool)) (c : C)
    (ex : PipelineExecutor W) : Run (bool * C * PipelineExecutor W) :=
  if hasTask c then
    match fuel with
    | 0 => OutOfFuel
    | S fuel =>
        match task_round bound yield_flag c ex with
        | Done (true, _, c, ex) => Done (false, c, ex)
        | Done (false, true, c, ex) => Done (true, c, ex)
        | Done (false, false, c, ex) => run_tasks fuel bound yield_flag c ex
        | Uncaught e => Uncaught e
        | Fault => Fault
        | OutOfFuel => OutOfFuel
        end
    end
  else Done (false, c, ex).

(** Lines 400-446: [while (!tasks.isFinished() && !yield)], entered with
    [yield] false.  Every loop inside may take [bound] rounds. *)
Fixpoint step_loop (fuel bound : nat) (yield_flag : option (W → bool)) (c : C)
    (ex : PipelineExecutor W) : Run (C * PipelineExecutor W) :=
  if finished (tasks ex) then Done (c, ex)
  else
    match fuel with
    | 0 => OutOfFuel
    | S fuel =>
        match find_task bound c ex with
        | Done (c, ex) =>
            match run_tasks bound bound yield_flag c ex with
            | Done (true, c, ex) => Done (c, ex)
            | Done (false, c, ex) => step_loop fuel bound yield_flag c ex
            | Uncaught e => Uncaught e
            | Fault => Fault
            | OutOfFuel => OutOfFuel
            end
        | Uncaught e => Uncaught e
        | Fault => Fault
        | OutOfFuel => OutOfFuel
        end
    end.

(** [executeStepImpl(thread_num, yield_flag)] on the context [c] of the
    thread; every loop may take [fuel] rounds. *)
Definition executeStepImpl (fuel : nat) (yield_flag : option (W → bool)) (c : C)
    (ex : PipelineExecutor W) : Run (C * PipelineExecutor W) :=
  let started := clock (world ex) in
  match step_loop fuel fuel yield_flag c ex with
  | Done (c, ex) =>
      Done (if NDEBUG then c else add_total_time (clock (world ex) - started)%N c, ex)
  | Uncaught e => Uncaught e
  | Fault => Fault
  | OutOfFuel => OutOfFuel
  end.

(** [executeSingleThread(thread_num)]; its [LOG_TRACE] reads the timers of
    the context and changes nothing. *)
Definition executeSingleThread (fuel : nat) (c : C) (ex : PipelineExecutor W)
  : Run (C * PipelineExecutor W) :=
  executeStepImpl fuel None c ex.

(** Lines 329-335 of [executeStep]: the executor is initialized at the
    first call.  It gives what [executeStep] returns or throws if it ends
    here. *)
Definition first_step (fuel : nat) (yield_flag : option (W → bool)) (c : C)
    (ex : PipelineExecutor W) : Run (option (Result bool) * C * PipelineExecutor W) :=
  if is_execution_initialized ex then Done (None, c, ex)
  else
    match initializeExecution fuel 1 ex with
    | Done (Returned _, ex) =>
        Done (if yield_requested yield_flag ex then Some (Returned true) else None,
              new_context, ex)
    | Done (Threw e, ex) => Done (Some (Threw e), new_context, ex)
    | Uncaught e => Uncaught e
    | Fault => Fault
    | OutOfFuel => OutOfFuel
    end.

(** [executeStep(yield_flag)]: what it returns or throws, the context of
    thread 0 and the executor afterwards. *)
Definition executeStep (fuel : nat) (yield_flag : option (W → bool)) (c : C)
    (ex : PipelineExecutor W) : Run (Result bool * C * PipelineExecutor W) :=
  match first_step fuel yield_flag c ex with
  | Done (Some r, c, ex) => Done (r, c, ex)
  | Done (None, c, ex) =>
      match executeStepImpl fuel yield_flag c ex with
      | Done (c, ex) =>
          if negb (finished (tasks ex)) then Done (Returned true, c, ex)
          else
            match first_node_exception (nodes ex) with
            | Some e => Done (Threw e, c, ex)
            | None =>
                match finalizeExecution ex with
                | (Returned _, ex) => Done (Returned false, c, ex)
                | (Threw e, ex) => Done (Threw e, c, ex)
                end
            end
      | Uncaught e => Uncaught e
      | Fault => Fault
      | OutOfFuel => OutOfFuel
      end
  | Uncaught e => Uncaught e
  | Fault => Fault
  | OutOfFuel => OutOfFuel
  end.

(** [executeImpl(num_threads)] for [num_threads <= 1], where it starts no
    thread: lines 488 and 546 to 549.  An exception of
    [initializeExecution] is what [executeImpl] throws.  An exception that
    leaves [executeSingleThread] is [Uncaught]: the scope guard calls
    [finish()] and the exception goes on to the caller of [execute]. *)
Definition executeImpl_one_thread (fuel : nat) (ex : PipelineExecutor W)
  : Run (Result () * C * PipelineExecutor W) :=
  match initializeExecution fuel 1 ex with
  | Done (Returned _, ex) =>
      match executeSingleThread fuel new_context ex with
      | Done (c, ex) => Done (Returned (), c, ex)
      | Uncaught e => Uncaught e
      | Fault => Fault
      | OutOfFuel => OutOfFuel
      end
  | Done (Threw e, ex) => Done (Threw e, new_context, ex)
  | Uncaught e => Uncaught e
  | Fault => Fault
  | OutOfFuel => OutOfFuel
  end.

(** [execute(num_threads)] for [num_threads <= 1]: [executeImpl] and then
    the rest of [execute]. *)
Definition execute_one_thread (fuel : nat) (ex : PipelineExecutor W)
  : Run (Result () * PipelineExecutor W) :=
  match executeImpl_one_thread fuel ex with
  | Done (impl, _, ex) => Done (execute impl ex)
  | Uncaught e => Uncaught e
  | Fault => Fault
  | OutOfFuel => OutOfFuel
  end.

End Stepping.

(** ** A scripted scheduler

    Processors of the scripted world cancel without an exception.  The
    context of a thread is the node it works on, if any.  [tryGetTask]
    takes the front of the task queue, and finishes the tasks when the
    queue is empty; [executeTask] fails when the node holds an exception;
    [pushTasks] makes the first ready node the task of the thread and
    queues the others. *)
#[global] Instance scripted_cancelling : Cancelling Scripted :=
  {| proc_cancel := λ _ w, (Returned (), w) |}.

#[global] Instance scripted_scheduler : Scheduler Scripted (option nat) :=
  {| hasTask := λ c, match c with Some _ => true | None => false end;
     getProcessorID := λ c, default 0 c;
     tryGetTask := λ c ex,
       Returned
         match task_queue (tasks ex) with
         | [] => (c, finish ex)
         | t :: q =>
             (Some t,
              set_tasks {| finished := finished (tasks ex);
                           thread_exceptions := thread_exceptions (tasks ex);
                           task_queue := q |} ex)
         end;
     executeTask := λ c ex,
       Returned
         (match nodes ex !! default 0 c with
          | Some {| exception := Some _ |} => false
          | _ => true
          end, c, ex);
     pushTasks := λ q aq c ex,
       Returned (head q, set_tasks (tasks_fill (tail q) (tasks ex)) ex);
     add_processing_time := λ _ c, c;
     add_total_time := λ _ c, c;
     new_context := None |}.

(** One processor that is finished at its first [prepare]. *)
Definition one_finished : PipelineExecutor Scripted :=
  executor_of [fresh_node 0] (scripted [(0, [Returned IProcessor.Finished])] []).

(** The executor a call of [executeStep] without a yield flag leaves
    (release build, loops of at most five rounds). *)
Definition stepped (ex : PipelineExecutor Scripted) : PipelineExecutor Scripted :=
  match executeStep (build := release_build) 5 None None ex with
  | Done (_, _, ex') => ex'
  | _ => ex
  end.

(** The executor a call of [execute(1)] leaves (release build, loops of
    at most five rounds). *)
Definition executed (ex : PipelineExecutor Scripted) : PipelineExecutor Scripted :=
  match execute_one_thread (build := release_build) (C := option nat) 5 ex with
  | Done (_, ex') => ex'
  | _ => ex
  end.

(** * Properties *)

(** ** Lists as stacks *)

Lemma push_all_rev {A} (xs stack : list A) : push_all xs stack = rev xs ++ stack.
Proof.
  revert stack. induction xs as [|x xs IH]; intros stack; simpl; [done|].
  rewrite IH. by rewrite <- app_assoc.
Qed.

Lemma push_all_reversed {A} (xs stack : list A) : push_all (rev xs) stack = xs ++ stack.
Proof. by rewrite push_all_rev, rev_involutive. Qed.

(** ** addChildlessProcessorsToStack *)

Lemma is_childless_insert_status ns j s n i :
  ns !! j = Some n →
  is_childless (<[j := set_status s n]> ns) i = is_childless ns i.
Proof.
  intros Hj. unfold is_childless.
  destruct (decide (j = i)) as [->|Hne].
  - rewrite list_lookup_insert_eq by (by eapply lookup_lt_Some). by rewrite Hj.
  - by rewrite list_lookup_insert_ne.
Qed.

Lemma filter_is_childless_ext ns ns' (l : list nat) :
  (∀ i, is_childless ns' i = is_childless ns i) →
  filter (λ i, is_childless ns' i) l = filter (λ i, is_childless ns i) l.
Proof.
  intros Hext. apply list_filter_iff. intros i. by rewrite Hext.
Qed.

Lemma addChildless_from_spec count : ∀ proc stack ns,
  proc + count ≤ length ns →
  ∃ ns',
    addChildless_from count proc stack ns
      = Some (rev (filter (λ i, is_childless ns i) (seq proc count)) ++ stack, ns')
    ∧ length ns' = length ns
    ∧ ∀ i, ns' !! i = seeded proc count i <$> ns !! i.
Proof.
  induction count as [|count IH]; intros proc stack ns Hlen; simpl.
  - exists ns. split_and!; [done..|]. intros i.
    destruct (ns !! i) as [m|]; simpl; [|done]. unfold seeded.
    by rewrite decide_False by lia.
  - destruct (ns !! proc) as [n|] eqn:Hn; simpl.
    2: { apply lookup_ge_None in Hn. lia. }
    assert (Hc : is_childless ns proc = bool_decide (direct_edges n = [])).
    { unfold is_childless. by rewrite Hn. }
    destruct (decide (direct_edges n = [])) as [He|He].
    + destruct (IH (S proc) (proc :: stack)
                  (<[proc := set_status ExecStatus.Preparing n]> ns)) as (ns' & Hrun & Hl & Hns).
      { rewrite length_insert. lia. }
      exists ns'. split_and!.
      * rewrite Hrun. f_equal. f_equal.
        rewrite (filter_is_childless_ext ns) by (intros; by apply is_childless_insert_status).
        rewrite filter_cons_True by (rewrite Hc; by apply bool_decide_pack).
        simpl. by rewrite <- app_assoc.
      * by rewrite Hl, length_insert.
      * intros i. rewrite Hns. unfold seeded.
        destruct (decide (proc = i)) as [<-|Hne].
        -- rewrite list_lookup_insert_eq by (by eapply lookup_lt_Some).
           rewrite Hn. simpl. rewrite decide_False by lia.
           rewrite decide_True by (split; [lia|done]). done.
        -- rewrite list_lookup_insert_ne by done.
           destruct (ns !! i) as [m|]; simpl; [|done].
           f_equal. repeat case_decide; try done; exfalso;
             match goal with Hn : ¬ _ |- _ => apply Hn; clear Hn end;
             destruct_and!; split_and!; (done || lia).
    + destruct (IH (S proc) stack ns) as (ns' & Hrun & Hl & Hns); [lia|].
      exists ns'. split_and!.
      * rewrite Hrun. f_equal. f_equal.
        rewrite filter_cons_False; [done|].
        rewrite Hc. intros Ht. by apply bool_decide_unpack in Ht.
      * done.
      * intros i. rewrite Hns. unfold seeded.
        destruct (ns !! i) as [m|] eqn:Hi; simpl; [|done].
        f_equal. destruct (decide (proc = i)) as [<-|Hne].
        -- assert (m = n) as -> by congruence.
           rewrite !decide_False; [done|tauto|tauto].
        -- repeat case_decide; try done; exfalso;
             match goal with Hn : ¬ _ |- _ => apply Hn; clear Hn end;
             destruct_and!; split_and!; (done || lia).
Qed.

(** C8.  When the graph has a node for every processor,
    [addChildlessProcessorsToStack] returns; it pushes onto the stack
    exactly the indices of the nodes whose [direct_edges] is empty, in
    increasing index order (so the stack, read from its top, holds them in
    decreasing order above what it held before); each of these nodes is
    set to [Preparing] and nothing else of it changes; a node with a direct
    edge is not pushed and is left as it was; nothing but the nodes
    changes in the executor. *)
Theorem addChildlessProcessorsToStack_seeds {W} (ex : PipelineExecutor W) (stack : list nat) :
  length (processors ex) = length (nodes ex) →
  ∃ ex',
    addChildlessProcessorsToStack stack ex
      = Some (rev (childless_indices (nodes ex)) ++ stack, ex')
    ∧ (∀ i, i ∈ childless_indices (nodes ex) ↔
            ∃ n, nodes ex !! i = Some n ∧ direct_edges n = [])
    ∧ (∀ i n, nodes ex !! i = Some n → direct_edges n = [] →
              nodes ex' !! i = Some (set_status ExecStatus.Preparing n))
    ∧ (∀ i n, nodes ex !! i = Some n → direct_edges n ≠ [] →
              nodes ex' !! i = Some n ∧ i ∉ childless_indices (nodes ex))
    ∧ length (nodes ex') = length (nodes ex)
    ∧ ex' = set_nodes (nodes ex') ex.
Proof.
  intros Hlen.
  destruct (addChildless_from_spec (length (processors ex)) 0 stack (nodes ex))
    as (ns' & Hrun & Hl & Hns); [lia|].
  assert (Hmem : ∀ i, i ∈ childless_indices (nodes ex) ↔
                      ∃ n, nodes ex !! i = Some n ∧ direct_edges n = []).
  { intros i. unfold childless_indices. rewrite list_elem_of_filter, elem_of_seq.
    unfold is_childless. split.
    - intros [Hc _]. destruct (nodes ex !! i) as [n|]; [|done].
      exists n. split; [done|]. by apply bool_decide_unpack in Hc.
    - intros (n & Hi & He). rewrite Hi. split; [by apply bool_decide_pack|].
      apply lookup_lt_Some in Hi. lia. }
  exists (set_nodes ns' ex). split_and!.
  - unfold addChildlessProcessorsToStack. rewrite Hrun. simpl.
    unfold childless_indices. by rewrite Hlen.
  - done.
  - intros i n Hi He. simpl. rewrite Hns, Hi. simpl. unfold seeded.
    rewrite decide_True; [done|]. apply lookup_lt_Some in Hi. split; [lia|done].
  - intros i n Hi He. simpl. split.
    + rewrite Hns, Hi. simpl. unfold seeded. rewrite decide_False; [done|tauto].
    + rewrite Hmem. intros (m & Hm & Hme). congruence.
  - done.
  - done.
Qed.

(** ** Pipeline expansion *)

Lemma kept_refl n : kept n n.
Proof. unfold kept. auto. Qed.

Lemma kept_trans n1 n2 n3 : kept n1 n2 → kept n2 n3 → kept n1 n3.
Proof.
  unfold kept. intros (Hp1 & He1 & Hs1) (Hp2 & He2 & Hs2).
  split_and!; [congruence..|].
  destruct Hs1 as [Hs1|[Hs1 Hs1']], Hs2 as [Hs2|[Hs2 Hs2']];
    [left|right|right|]; try (split; congruence); congruence.
Qed.

Lemma kept_grown n n' : grown_from n n' → kept n n'.
Proof. intros (ds & bs & ->). unfold kept. simpl. auto. Qed.

Section ExpansionFacts.
Context {W : Type} {procs : Processors W} {graph : ExecutingGraph W}
        {build : Build}.

Lemma kept_absorb {A} (c : Call W A) n : kept n (absorb c n).
Proof. unfold kept. simpl. auto. Qed.

Lemma restage_kept us bs ds : ∀ stack ns stack' ns',
  restage us bs ds stack ns = Some (stack', ns') →
  length ns' = length ns
  ∧ (∀ i n, ns !! i = Some n → ∃ n', ns' !! i = Some n' ∧ kept n n')
  ∧ ∃ pushed, stack' = pushed ++ stack.
Proof.
  induction us as [|u us IH]; intros stack ns stack' ns' Hrun; simpl in Hrun.
  - simplify_eq. split_and!; [done| |by exists []].
    intros i n Hi. exists n. split; [done|apply kept_refl].
  - destruct (ns !! u) as [node|] eqn:Hu; simpl in Hrun; [|done].
    destruct (bs !! u) as [fb|]; simpl in Hrun; [|done].
    destruct (ds !! u) as [fd|]; simpl in Hrun; [|done].
    set (node1 := set_updated_ports _ _ node) in Hrun.
    assert (Hstep : ∀ node2 i n, kept node node2 → ns !! i = Some n →
              ∃ n', <[u := node2]> ns !! i = Some n' ∧ kept n n').
    { intros node2 i n Hk Hi. destruct (decide (u = i)) as [<-|Hne].
      - rewrite list_lookup_insert_eq by (by eapply lookup_lt_Some).
        exists node2. split; [done|]. congruence.
      - rewrite list_lookup_insert_ne by done. exists n. split; [done|apply kept_refl]. }
    case_decide as Hidle.
    + apply IH in Hrun as (Hl & Hk & pushed & ->).
      rewrite length_insert in Hl. split_and!; [done| |].
      * intros i n Hi.
        destruct (Hstep (set_status ExecStatus.Preparing node1) i n) as (n1 & Hn1 & Hk1);
          [|done|].
        { unfold kept. simpl. split_and!; [done..|]. right. done. }
        destruct (Hk i n1 Hn1) as (n' & Hn' & Hk').
        exists n'. split; [done|]. by eapply kept_trans.
      * exists (pushed ++ [u]). by rewrite <- app_assoc.
    + apply IH in Hrun as (Hl & Hk & pushed & ->).
      rewrite length_insert in Hl. split_and!; [done| |by exists pushed].
      intros i n Hi.
      destruct (Hstep node1 i n) as (n1 & Hn1 & Hk1); [|done|].
      { unfold kept. simpl. auto. }
      destruct (Hk i n1 Hn1) as (n' & Hn' & Hk').
      exists n'. split; [done|]. by eapply kept_trans.
Qed.

(** When the processor's [expandPipeline()] returns, the executor's
    [expandPipeline] appends the new processors, never drops a node and
    keeps every node it had. *)
Lemma restage_total us bs ds : ∀ stack ns,
  (∀ u, u ∈ us → u < length ns ∧ u < length bs ∧ u < length ds) →
  is_Some (restage us bs ds stack ns).
Proof.
  induction us as [|u us IH]; intros stack ns Hvalid; simpl; [done|].
  destruct (Hvalid u ltac:(by left)) as (Hn & Hb & Hd).
  apply lookup_lt_is_Some_2 in Hn as [node ->].
  apply lookup_lt_is_Some_2 in Hb as [fb ->].
  apply lookup_lt_is_Some_2 in Hd as [fd ->]. simpl.
  case_decide; apply IH; intros u' Hu'; rewrite length_insert;
    apply Hvalid; by right.
Qed.

Lemma expandPipeline_returned stack pid ex cur new_processors :
  nodes ex !! pid = Some cur →
  returned (proc_expandPipeline (processor cur) (world ex)) = Returned new_processors →
  expandPipeline stack pid ex = None
  ∨ ∃ stack' ex',
      expandPipeline stack pid ex = Some (true, stack', ex')
      ∧ processors ex' = processors ex ++ new_processors
      ∧ length (nodes ex') = length (processors ex')
      ∧ length (nodes ex) ≤ length (nodes ex')
      ∧ (∀ i n, nodes ex !! i = Some n → ∃ n', nodes ex' !! i = Some n' ∧ kept n n')
      ∧ (∃ pushed, stack' = pushed ++ stack)
      ∧ world ex' = world_after (proc_expandPipeline (processor cur) (world ex)).
Proof.
  intros Hcur Hret. unfold expandPipeline. rewrite Hcur. simpl. rewrite Hret.
  case_decide as Hlen; [|by left].
  destruct (graph_expandPipeline _ _ _) as [us ns'] eqn:Hg.
  destruct (restage us _ _ stack ns') as [[stack' ns'']|] eqn:Hrs; simpl; [|by left].
  right. eexists stack', _. split; [done|]. simpl.
  apply restage_kept in Hrs as (Hl & Hk & Hpushed).
  pose proof (graph_expandPipeline_nodes
                (processors ex ++ new_processors)
                (world_after (proc_expandPipeline (processor cur) (world ex)))
                (<[pid := absorb (proc_expandPipeline (processor cur) (world ex)) cur]>
                   (nodes ex))
                Hlen) as Hgl.
  rewrite length_insert in Hlen. rewrite Hg in Hgl. simpl in Hgl.
  split_and!; [done|congruence|lia| |done|done].
  intros i n Hi.
  assert (∃ n1, <[pid := absorb (proc_expandPipeline (processor cur) (world ex)) cur]>
                  (nodes ex) !! i = Some n1 ∧ kept n n1) as (n1 & Hn1 & Hk1).
  { destruct (decide (pid = i)) as [<-|Hne].
    - rewrite list_lookup_insert_eq by (by eapply lookup_lt_Some).
      eexists. split; [done|]. assert (n = cur) as -> by congruence. apply kept_absorb.
    - rewrite list_lookup_insert_ne by done. exists n. split; [done|apply kept_refl]. }
  destruct (graph_expandPipeline_grows (processors ex ++ new_processors)
              (world_after (proc_expandPipeline (processor cur) (world ex))) _ _ _ Hn1)
    as (n2 & Hn2 & Hgrow).
  rewrite Hg in Hn2. simpl in Hn2.
  destruct (Hk i n2 Hn2) as (n' & Hn' & Hk').
  exists n'. split; [done|].
  eapply kept_trans; [exact Hk1|]. eapply kept_trans; [by apply kept_grown|done].
Qed.

(** With a node for no more than every processor, lines 87-126 run into
    no index out of range. *)
Lemma expandPipeline_defined stack pid ex cur new_processors :
  nodes ex !! pid = Some cur →
  returned (proc_expandPipeline (processor cur) (world ex)) = Returned new_processors →
  length (nodes ex) ≤ length (processors ex) →
  is_Some (expandPipeline stack pid ex).
Proof.
  intros Hcur Hret Hle. unfold expandPipeline. rewrite Hcur. simpl. rewrite Hret.
  rewrite decide_True by (rewrite length_insert, length_app; lia).
  assert (Hlen : length (<[pid := absorb (proc_expandPipeline (processor cur) (world ex)) cur]>
                           (nodes ex))
                 ≤ length (processors ex ++ new_processors)).
  { rewrite length_insert, length_app. lia. }
  pose proof (graph_expandPipeline_nodes _
                (world_after (proc_expandPipeline (processor cur) (world ex))) _ Hlen) as Hn.
  pose proof (graph_expandPipeline_updated (processors ex ++ new_processors)
                (world_after (proc_expandPipeline (processor cur) (world ex)))
                (<[pid := absorb (proc_expandPipeline (processor cur) (world ex)) cur]>
                   (nodes ex))) as Hu.
  destruct (graph_expandPipeline _ _ _) as [us ns'] eqn:Hg. simpl in Hn, Hu.
  destruct (restage_total us
              (((λ n, length (back_edges n)) <$>
                <[pid := absorb (proc_expandPipeline (processor cur) (world ex)) cur]>
                  (nodes ex))
               ++ replicate (length (processors ex ++ new_processors)
                             - length (<[pid := absorb (proc_expandPipeline (processor cur)
                                                          (world ex)) cur]> (nodes ex))) 0)
              (((λ n, length (direct_edges n)) <$>
                <[pid := absorb (proc_expandPipeline (processor cur) (world ex)) cur]>
                  (nodes ex))
               ++ replicate (length (processors ex ++ new_processors)
                             - length (<[pid := absorb (proc_expandPipeline (processor cur)
                                                          (world ex)) cur]> (nodes ex))) 0)
              stack ns') as [[stack' ns''] ->]; [|done].
  intros u Hin. specialize (Hu u Hlen Hin).
  rewrite !length_app, !length_fmap, !length_replicate.
  rewrite length_app in Hlen, Hn, Hu. lia.
Qed.

Lemma same_control_trans (ex1 ex2 ex3 : PipelineExecutor W) :
  same_control ex1 ex2 → same_control ex2 ex3 → same_control ex1 ex3.
Proof. unfold same_control. intros ? ?. destruct_and!. split_and!; congruence. Qed.

(** [expandPipeline] does not touch the task queue. *)
Lemma expandPipeline_tasks stack pid ex b stack' ex' :
  expandPipeline stack pid ex = Some (b, stack', ex') → same_control ex ex'.
Proof.
  unfold expandPipeline. intros Hrun.
  destruct (nodes ex !! pid) as [cur|]; simpl in Hrun; [|done].
  destruct (returned (proc_expandPipeline _ _)); [|by simplify_eq].
  case_decide; [|done].
  destruct (graph_expandPipeline _ _ _) as [us ns'].
  destruct (restage _ _ _ _ _) as [[? ?]|]; simpl in Hrun; by simplify_eq.
Qed.

(** When the processor's [expandPipeline()] throws. *)
Lemma expandPipeline_threw stack pid ex cur e :
  nodes ex !! pid = Some cur →
  returned (proc_expandPipeline (processor cur) (world ex)) = Threw e →
  ∃ ex' cur',
    expandPipeline stack pid ex = Some (false, stack, ex')
    ∧ processors ex' = processors ex
    ∧ length (nodes ex') = length (nodes ex)
    ∧ (∀ i, i ≠ pid → nodes ex' !! i = nodes ex !! i)
    ∧ nodes ex' !! pid = Some cur'
    ∧ exception cur' = Some e
    ∧ status cur' = status cur
    ∧ direct_edges cur' = direct_edges cur
    ∧ back_edges cur' = back_edges cur
    ∧ updated_input_ports cur' = updated_input_ports cur
    ∧ updated_output_ports cur' = updated_output_ports cur
    ∧ (∀ i, node_status ex' i = node_status ex i)
    ∧ (∀ i, updated_input_ports <$> nodes ex' !! i = updated_input_ports <$> nodes ex !! i)
    ∧ (∀ i, updated_output_ports <$> nodes ex' !! i = updated_output_ports <$> nodes ex !! i)
    ∧ (∀ i, direct_edges <$> nodes ex' !! i = direct_edges <$> nodes ex !! i)
    ∧ (∀ i, back_edges <$> nodes ex' !! i = back_edges <$> nodes ex !! i).
Proof.
  intros Hcur Hret. unfold expandPipeline. rewrite Hcur. simpl. rewrite Hret.
  set (cur' := set_exception (Some e) (absorb _ cur)).
  assert (Hother : ∀ {B} (f : Node → B), f cur' = f cur → ∀ i,
            f <$> <[pid := cur']> (nodes ex) !! i = f <$> nodes ex !! i).
  { intros B f Hf i. destruct (decide (pid = i)) as [<-|Hne].
    - rewrite list_lookup_insert_eq by (by eapply lookup_lt_Some).
      rewrite Hcur. simpl. by rewrite Hf.
    - by rewrite list_lookup_insert_ne. }
  eexists _, cur'. split; [done|]. simpl. unfold node_status. simpl.
  split_and!; try done.
  - by rewrite length_insert.
  - intros i Hne. by rewrite list_lookup_insert_ne.
  - rewrite list_lookup_insert_eq by (by eapply lookup_lt_Some). done.
  - by apply Hother.
  - by apply Hother.
  - by apply Hother.
  - by apply Hother.
  - by apply Hother.
Qed.

(** C9.  When the processor's [expandPipeline()] throws,
    [PipelineExecutor::expandPipeline] returns [false] having stored the
    exception on the node and changed nothing else of the executor's own
    data: the stack and the flat processors list are as before, the graph
    has the same nodes, every other node is untouched, and the node itself
    keeps its status, its edges and its pending port lists. *)
Theorem expandPipeline_throw_leaves_graph stack pid ex cur e :
  nodes ex !! pid = Some cur →
  returned (proc_expandPipeline (processor cur) (world ex)) = Threw e →
  ∃ ex' cur',
    expandPipeline stack pid ex = Some (false, stack, ex')
    ∧ processors ex' = processors ex
    ∧ length (nodes ex') = length (nodes ex)
    ∧ (∀ i, i ≠ pid → nodes ex' !! i = nodes ex !! i)
    ∧ nodes ex' !! pid = Some cur'
    ∧ exception cur' = Some e
    ∧ status cur' = status cur
    ∧ direct_edges cur' = direct_edges cur
    ∧ back_edges cur' = back_edges cur
    ∧ updated_input_ports cur' = updated_input_ports cur
    ∧ updated_output_ports cur' = updated_output_ports cur
    ∧ (∀ i, node_status ex' i = node_status ex i)
    ∧ (∀ i, updated_input_ports <$> nodes ex' !! i = updated_input_ports <$> nodes ex !! i)
    ∧ (∀ i, updated_output_ports <$> nodes ex' !! i = updated_output_ports <$> nodes ex !! i)
    ∧ (∀ i, direct_edges <$> nodes ex' !! i = direct_edges <$> nodes ex !! i)
    ∧ (∀ i, back_edges <$> nodes ex' !! i = back_edges <$> nodes ex !! i).
Proof. apply expandPipeline_threw. Qed.

End ExpansionFacts.

(** ** One round of prepareProcessor *)

Section RoundFacts.
Context {W : Type} {procs : Processors W} {graph : ExecutingGraph W}
        {build : Build}.

(** Lines 187-204 when [prepare] returns. *)
Lemma call_prepare_returned node w st :
  returned (prepare (processor node) (updated_input_ports node)
              (updated_output_ports node) w) = Returned st →
  ∃ node',
    call_prepare node w
      = (true, node',
         world_after (prepare (processor node) (updated_input_ports node)
                        (updated_output_ports node) w))
    ∧ updated_input_ports node' = []
    ∧ updated_output_ports node' = []
    ∧ last_processor_status node' = st
    ∧ status node' = status node
    ∧ exception node' = exception node
    ∧ processor node' = processor node
    ∧ direct_edges node' = direct_edges node
    ∧ back_edges node' = back_edges node
    ∧ post_updated_input_ports node'
        = post_updated_input_ports node
          ++ dirty_inputs (prepare (processor node) (updated_input_ports node)
                             (updated_output_ports node) w)
    ∧ post_updated_output_ports node'
        = post_updated_output_ports node
          ++ dirty_outputs (prepare (processor node) (updated_input_ports node)
                              (updated_output_ports node) w).
Proof.
  intros Hret. unfold call_prepare. rewrite Hret.
  eexists. split; [done|]. by destruct NDEBUG.
Qed.

(** Lines 187-197 when [prepare] throws. *)
Lemma call_prepare_threw node w e :
  returned (prepare (processor node) (updated_input_ports node)
              (updated_output_ports node) w) = Threw e →
  ∃ node',
    call_prepare node w
      = (false, node',
         world_after (prepare (processor node) (updated_input_ports node)
                        (updated_output_ports node) w))
    ∧ exception node' = Some e
    ∧ status node' = status node
    ∧ processor node' = processor node
    ∧ updated_input_ports node' = updated_input_ports node
    ∧ updated_output_ports node' = updated_output_ports node.
Proof.
  intros Hret. unfold call_prepare. rewrite Hret. eexists. by split.
Qed.

(** A round for a node whose [prepare] returns anything but
    [ExpandPipeline]. *)
Lemma round_prepare_returned ex wk pid rest node st :
  updated_processors wk = pid :: rest →
  nodes ex !! pid = Some node →
  returned (prepare (processor node) (updated_input_ports node)
              (updated_output_ports node) (world ex)) = Returned st →
  st ≠ IProcessor.ExpandPipeline →
  ∃ node' w',
    round ex wk
      = Next (set_world w' (set_nodes (<[pid := node']> (nodes ex)) ex))
             {| updated_edges :=
                  (post_updated_input_ports node
                   ++ dirty_inputs (prepare (processor node) (updated_input_ports node)
                                      (updated_output_ports node) (world ex)))
                  ++ (post_updated_output_ports node
                      ++ dirty_outputs (prepare (processor node) (updated_input_ports node)
                                          (updated_output_ports node) (world ex)))
                  ++ updated_edges wk;
                updated_processors := rest;
                queue := queue wk ++ (if decide (st = IProcessor.Ready) then [pid] else []);
                async_queue :=
                  async_queue wk ++ (if decide (st = IProcessor.Async) then [pid] else []) |}
    ∧ status node' = status_after st (status node)
    ∧ exception node' = exception node
    ∧ processor node' = processor node
    ∧ last_processor_status node' = st
    ∧ updated_input_ports node' = []
    ∧ updated_output_ports node' = []
    ∧ post_updated_input_ports node' = []
    ∧ post_updated_output_ports node' = [].
Proof.
  intros Hwk Hn Hret Hst. unfold round, node_round. rewrite Hwk, Hn.
  destruct (call_prepare_returned node (world ex) st Hret)
    as (node1 & -> & Hi & Ho & Hl & Hs & He & Hp & _ & _ & Hpi & Hpo).
  simpl. unfold switch_status. rewrite Hl.
  destruct st; try done; simpl;
    rewrite !push_all_reversed, Hpi, Hpo, ?app_nil_r;
    eexists _, _; (split; [reflexivity|]); simpl; by rewrite ?Hs.
Qed.

(** A round for a node whose [prepare] throws. *)
Lemma round_prepare_threw ex wk pid rest node e :
  updated_processors wk = pid :: rest →
  nodes ex !! pid = Some node →
  returned (prepare (processor node) (updated_input_ports node)
              (updated_output_ports node) (world ex)) = Threw e →
  ∃ node' w',
    round ex wk
      = Return false (set_world w' (set_nodes (<[pid := node']> (nodes ex)) ex))
          {| updated_edges := updated_edges wk; updated_processors := rest;
             queue := queue wk; async_queue := async_queue wk |}
    ∧ exception node' = Some e
    ∧ status node' = status node
    ∧ processor node' = processor node
    ∧ updated_input_ports node' = updated_input_ports node
    ∧ updated_output_ports node' = updated_output_ports node.
Proof.
  intros Hwk Hn Hret. unfold round, node_round. rewrite Hwk, Hn.
  destruct (call_prepare_threw node (world ex) e Hret) as (node1 & -> & Hfacts).
  simpl. by eexists _, _.
Qed.

(** A round for a node whose [prepare] returns [ExpandPipeline]: the
    node keeps its status and the round goes on as [expandPipeline]
    says. *)
Lemma round_prepare_expand ex wk pid rest node :
  updated_processors wk = pid :: rest →
  nodes ex !! pid = Some node →
  returned (prepare (processor node) (updated_input_ports node)
              (updated_output_ports node) (world ex))
    = Returned IProcessor.ExpandPipeline →
  ∃ node1,
    status node1 = status node
    ∧ exception node1 = exception node
    ∧ processor node1 = processor node
    ∧ updated_input_ports node1 = []
    ∧ updated_output_ports node1 = []
    ∧ round ex wk
      = match expandPipeline rest pid
                (set_world
                   (world_after (prepare (processor node) (updated_input_ports node)
                                   (updated_output_ports node) (world ex)))
                   (set_nodes (<[pid := node1]> (nodes ex)) ex)) with
        | None => Undefined
        | Some (false, stack, ex') =>
            Return false ex'
              {| updated_edges := updated_edges wk; updated_processors := stack;
                 queue := queue wk; async_queue := async_queue wk |}
        | Some (true, stack, ex') =>
            Next ex'
              {| updated_edges := updated_edges wk; updated_processors := pid :: stack;
                 queue := queue wk; async_queue := async_queue wk |}
        end.
Proof.
  intros Hwk Hn Hret. unfold round, node_round. rewrite Hwk, Hn.
  destruct (call_prepare_returned node (world ex) _ Hret)
    as (node1 & -> & Hi & Ho & Hl & Hs & He & Hp & _).
  simpl. unfold switch_status. rewrite Hl. simpl.
  exists node1. split_and!; done.
Qed.

(** C1.  A round of [prepareProcessor] for node [pid] whose [prepare]
    returns [st] without throwing sets the node's status by [st] alone:
    NeedData and PortFull give Idle, Finished gives Finished, Ready gives
    Executing and appends the node to the ready queue, Async gives
    Executing and appends the node to the async queue; in these cases the
    other queue is untouched.  ExpandPipeline leaves the status as it was
    (a node that was Preparing is still Preparing) and neither queue
    changes; when the processor's [expandPipeline()] returns (and the
    graph had no more nodes than there were processors), the new
    processors are appended, the graph keeps all its nodes and has one for
    every processor, and the node is on top of the stack of nodes to
    prepare again. *)
Theorem prepare_status_transition ex wk pid rest node st :
  updated_processors wk = pid :: rest →
  nodes ex !! pid = Some node →
  returned (prepare (processor node) (updated_input_ports node)
              (updated_output_ports node) (world ex)) = Returned st →
  match st with
  | IProcessor.ExpandPipeline =>
      ∀ new_processors,
        returned (proc_expandPipeline (processor node)
                    (world_after (prepare (processor node) (updated_input_ports node)
                                    (updated_output_ports node) (world ex))))
          = Returned new_processors →
        length (nodes ex) ≤ length (processors ex) →
        ∃ ex' wk' restaged,
          round ex wk = Next ex' wk'
          ∧ (node_status ex' pid = Some (status_after st (status node))
             ∨ (status node = ExecStatus.Idle
                ∧ node_status ex' pid = Some ExecStatus.Preparing))
          ∧ (status node = ExecStatus.Preparing →
             node_status ex' pid = Some ExecStatus.Preparing)
          ∧ processors ex' = processors ex ++ new_processors
          ∧ length (nodes ex') = length (processors ex')
          ∧ length (nodes ex) ≤ length (nodes ex')
          ∧ updated_processors wk' = pid :: restaged ++ rest
          ∧ queue wk' = queue wk
          ∧ async_queue wk' = async_queue wk
  | _ =>
      ∃ ex' wk',
        round ex wk = Next ex' wk'
        ∧ node_status ex' pid = Some (status_after st (status node))
        ∧ updated_processors wk' = rest
        ∧ queue wk' = queue wk ++ (if decide (st = IProcessor.Ready) then [pid] else [])
        ∧ async_queue wk'
          = async_queue wk ++ (if decide (st = IProcessor.Async) then [pid] else [])
  end.
Proof.
  intros Hwk Hn Hret.
  assert (Hplain : st ≠ IProcessor.ExpandPipeline →
            ∃ ex' wk',
              round ex wk = Next ex' wk'
              ∧ node_status ex' pid = Some (status_after st (status node))
              ∧ updated_processors wk' = rest
              ∧ queue wk' = queue wk ++ (if decide (st = IProcessor.Ready) then [pid] else [])
              ∧ async_queue wk'
                = async_queue wk ++ (if decide (st = IProcessor.Async) then [pid] else [])).
  { intros Hst.
    destruct (round_prepare_returned ex wk pid rest node st Hwk Hn Hret Hst)
      as (node' & w' & -> & Hs & _).
    eexists _, _. split; [done|]. simpl. unfold node_status. simpl.
    rewrite list_lookup_insert_eq by (by eapply lookup_lt_Some). simpl.
    by rewrite Hs. }
  destruct st; try (by apply Hplain).
  intros new_processors Hexp Hle.
  destruct (round_prepare_expand ex wk pid rest node Hwk Hn Hret)
    as (node1 & Hs & He & Hp & _ & _ & ->).
  set (ex1 := set_world _ _).
  assert (Hn1 : nodes ex1 !! pid = Some node1).
  { simpl. by rewrite list_lookup_insert_eq by (by eapply lookup_lt_Some). }
  assert (Hexp1 : returned (proc_expandPipeline (processor node1) (world ex1))
                  = Returned new_processors).
  { simpl. by rewrite Hp. }
  assert (Hle1 : length (nodes ex1) ≤ length (processors ex1)).
  { simpl. by rewrite length_insert. }
  destruct (expandPipeline_defined rest pid ex1 node1 new_processors Hn1 Hexp1 Hle1)
    as [result Hdefined].
  destruct (expandPipeline_returned rest pid ex1 node1 new_processors Hn1 Hexp1)
    as [Hnone|(stack' & ex' & -> & Hps & Hfull & Hlen & Hkept & (pushed & ->) & _)];
    [congruence|].
  eexists _, _, pushed. split; [done|]. simpl.
  destruct (Hkept pid node1 Hn1) as (n' & Hn' & _ & _ & Hst).
  simpl in Hlen. rewrite length_insert in Hlen.
  unfold node_status. rewrite Hn'. simpl. rewrite Hs in Hst.
  split_and!; try done.
  - destruct Hst as [->|[-> ->]]; [by left|by right].
  - intros Hprep. destruct Hst as [->|[? _]]; congruence.
Qed.


End RoundFacts.

(** ** The walk as a whole *)

Section WalkFacts.
Context {W : Type} {procs : Processors W} {graph : ExecutingGraph W}
        {build : Build}.

Lemma walk_0 ex wk :
  walk 0 ex wk = if decide (walk_over wk) then Done (true, ex, wk) else OutOfFuel.
Proof.
  simpl. destruct (decide (walk_over wk)) as [[Hp He]|Hn]; [by rewrite Hp, He|].
  destruct (updated_processors wk) eqn:Hp, (updated_edges wk) eqn:He; try done.
  by destruct Hn.
Qed.

Lemma walk_S fuel ex wk :
  walk (S fuel) ex wk
  = if decide (walk_over wk) then Done (true, ex, wk)
    else match round ex wk with
         | Next ex' wk' => walk fuel ex' wk'
         | Return b ex' wk' => Done (b, ex', wk')
         | Raise e _ _ => Uncaught e
         | Undefined => Fault
         end.
Proof.
  simpl. destruct (decide (walk_over wk)) as [[Hp He]|Hn]; [by rewrite Hp, He|].
  destruct (updated_processors wk) eqn:Hp, (updated_edges wk) eqn:He; try done.
  by destruct Hn.
Qed.

Lemma deliveries_S fuel ex wk :
  deliveries (S fuel) ex wk
  = if decide (walk_over wk) then []
    else match round ex wk with
         | Next ex' wk' => taken_edge wk ++ deliveries fuel ex' wk'
         | Raise _ _ _ => taken_edge wk
         | Return _ _ _ | Undefined => []
         end.
Proof.
  simpl. destruct (decide (walk_over wk)) as [[Hp He]|Hn]; [by rewrite Hp, He|].
  destruct (updated_processors wk) eqn:Hp, (updated_edges wk) eqn:He; try done.
  by destruct Hn.
Qed.

Lemma prepare_trace_S fuel ex wk :
  prepare_trace (S fuel) ex wk
  = if decide (walk_over wk) then []
    else match round ex wk with
         | Next ex' wk' => prepared ex wk ++ prepare_trace fuel ex' wk'
         | Return _ _ _ | Raise _ _ _ | Undefined => prepared ex wk
         end.
Proof.
  simpl. destruct (decide (walk_over wk)) as [[Hp He]|Hn]; [by rewrite Hp, He|].
  destruct (updated_processors wk) eqn:Hp, (updated_edges wk) eqn:He; try done.
  by destruct Hn.
Qed.

(** What a round does to [updated_edges]: a round for a node pushes on
    top of it, a round for an edge takes its top. *)
Lemma round_edges ex wk :
  match round ex wk with
  | Next _ wk' =>
      (taken_edge wk = [] ∧ ∃ new, updated_edges wk' = new ++ updated_edges wk)
      ∨ (∃ e, taken_edge wk = [e] ∧ updated_edges wk = e :: updated_edges wk')
  | Return _ _ wk' => updated_edges wk' = updated_edges wk
  | Raise _ _ _ | Undefined => True
  end.
Proof.
  unfold round, taken_edge. destruct (updated_processors wk) as [|pid rest] eqn:Hp.
  - unfold edge_round. destruct (updated_edges wk) as [|e es] eqn:He; [done|].
    destruct (lookup_edge (nodes ex) e) as [edge|]; [|done].
    destruct (nodes ex !! to edge) as [node|]; [|done].
    case_decide; [|right; by exists e].
    case_decide; [right; by exists e|].
    destruct (returned (onUpdatePorts _ _)); [right; by exists e|done].
  - unfold node_round. rewrite Hp.
    destruct (nodes ex !! pid) as [node|]; [|done].
    destruct (call_prepare node (world ex)) as [[[] node1] w1]; simpl; [|done].
    unfold switch_status.
    destruct (last_processor_status node1); simpl;
      try (left; split; [done|]; rewrite !push_all_reversed;
           eexists (_ ++ _); by rewrite <- app_assoc).
    destruct (expandPipeline _ _ _) as [[[[] stack] ex']|]; simpl; [|done..].
    left. split; [done|]. by exists [].
Qed.

(** The stack discipline of [updated_edges]: whatever lies on the stack
    leaves it from the top down.  If [batch] is the lower part of the
    stack and the walk ends, it has taken the first [k] edges of [batch]
    in their order (among others it pushed meanwhile) and the rest
    of [batch] is still at the bottom of the stack. *)
Lemma walk_deliveries fuel : ∀ ex wk above batch b ex2 wk2,
  updated_edges wk = above ++ batch →
  walk fuel ex wk = Done (b, ex2, wk2) →
  ∃ k, take k batch `sublist_of` deliveries fuel ex wk
       ∧ drop k batch `suffix_of` updated_edges wk2.
Proof.
  induction fuel as [|fuel IH]; intros ex wk above batch b ex2 wk2 Hstack Hwalk.
  - rewrite walk_0 in Hwalk. case_decide as Hover; [|done]. simplify_eq.
    exists 0. split; [apply sublist_nil_l|]. rewrite Hstack. by apply suffix_app_r.
  - rewrite walk_S in Hwalk. rewrite deliveries_S.
    case_decide as Hover.
    { simplify_eq. exists 0. split; [apply sublist_nil_l|].
      rewrite Hstack. by apply suffix_app_r. }
    pose proof (round_edges ex wk) as Hround.
    destruct (round ex wk) as [ex' wk'|b' ex' wk'|e ex' wk'|]; [| |done..].
    + destruct Hround as [[-> [new Hnew]]|(e & -> & Hpop)].
      * rewrite Hstack, app_assoc in Hnew.
        destruct (IH _ _ _ _ _ _ _ Hnew Hwalk) as (k & Hk & Hs). by exists k.
      * rewrite Hstack in Hpop. destruct above as [|a above]; simpl in Hpop.
        -- destruct batch as [|x batch]; [done|]. simplify_eq.
           destruct (IH ex' wk' [] (updated_edges wk') _ _ _ eq_refl Hwalk)
             as (k & Hk & Hs).
           exists (S k). simpl. split; [by apply sublist_skip|done].
        -- simplify_eq.
           destruct (IH ex' wk' above batch _ _ _ ltac:(done) Hwalk) as (k & Hk & Hs).
           exists k. split; [by apply sublist_cons|done].
    + simplify_eq. exists 0. split; [apply sublist_nil_l|].
      rewrite Hround, Hstack. by apply suffix_app_r.
Qed.

(** ** Exception slots *)

Lemma slots_kept_refl skip (ex : PipelineExecutor W) : slots_kept skip ex ex.
Proof. intros i n _ Hi. by exists n. Qed.

Lemma slots_kept_trans skip (ex1 ex2 ex3 : PipelineExecutor W) :
  slots_kept None ex1 ex2 → slots_kept skip ex2 ex3 → slots_kept skip ex1 ex3.
Proof.
  intros H12 H23 i n Hskip Hi.
  destruct (H12 i n ltac:(done) Hi) as (n2 & Hn2 & He2).
  destruct (H23 i n2 Hskip Hn2) as (n3 & Hn3 & He3).
  exists n3. split; [done|congruence].
Qed.

Lemma slots_kept_insert skip (ex : PipelineExecutor W) w pid node node' :
  nodes ex !! pid = Some node →
  (Some pid ≠ skip → exception node' = exception node) →
  slots_kept skip ex (set_world w (set_nodes (<[pid := node']> (nodes ex)) ex)).
Proof.
  intros Hpid He i n Hskip Hi. simpl. destruct (decide (pid = i)) as [<-|Hne].
  - rewrite list_lookup_insert_eq by (by eapply lookup_lt_Some).
    exists node'. split; [done|]. rewrite He by done. congruence.
  - rewrite list_lookup_insert_ne by done. by exists n.
Qed.

Lemma expandPipeline_slots stack pid ex b stack' ex' :
  expandPipeline stack pid ex = Some (b, stack', ex') →
  if b then slots_kept None ex ex'
  else slots_kept (Some pid) ex ex' ∧ ∃ e, captured ex' pid e.
Proof.
  intros Hrun.
  destruct (nodes ex !! pid) as [cur|] eqn:Hcur.
  2: { unfold expandPipeline in Hrun. by rewrite Hcur in Hrun. }
  destruct (returned (proc_expandPipeline (processor cur) (world ex))) as [ps|e] eqn:Hret.
  - destruct (expandPipeline_returned stack pid ex cur ps Hcur Hret)
      as [Hnone|(stack2 & ex2 & Hsome & _ & _ & _ & Hkept & _)]; [congruence|].
    rewrite Hsome in Hrun. simplify_eq.
    intros i n _ Hi. destruct (Hkept i n Hi) as (n' & Hn' & _ & He & _). by exists n'.
  - unfold expandPipeline in Hrun. rewrite Hcur in Hrun. simpl in Hrun.
    rewrite Hret in Hrun. simplify_eq. split.
    + apply (slots_kept_insert (Some pid) ex _ pid cur); [done|]. by intros [].
    + exists e. eexists. simpl.
      rewrite list_lookup_insert_eq by (by eapply lookup_lt_Some).
      split; [done|]. simpl. split; [done|]. right. by exists (world ex).
Qed.

(** What a round does to the exception slots. *)
Lemma round_slots ex wk :
  match round ex wk with
  | Next ex' _ | Raise _ ex' _ => slots_kept None ex ex'
  | Return b ex' _ =>
      b = false ∧ ∃ pid e, captured ex' pid e ∧ slots_kept (Some pid) ex ex'
  | Undefined => True
  end.
Proof.
  unfold round. destruct (updated_processors wk) as [|pid rest] eqn:Hp.
  - unfold edge_round. destruct (updated_edges wk) as [|e es]; [done|].
    destruct (lookup_edge (nodes ex) e) as [edge|]; [|done].
    destruct (nodes ex !! to edge) as [node|] eqn:Hto; [|done].
    case_decide; [|apply slots_kept_refl].
    case_decide.
    { apply (slots_kept_insert None ex (world ex) (to edge) node); [done|].
      intros _. by destruct (backward edge). }
    destruct (returned (onUpdatePorts _ _));
      (apply (slots_kept_insert None ex _ (to edge) node); [done|]);
      intros _; by destruct (backward edge).
  - unfold node_round. rewrite Hp.
    destruct (nodes ex !! pid) as [node|] eqn:Hpid; [|done].
    destruct (returned (prepare (processor node) (updated_input_ports node)
                          (updated_output_ports node) (world ex))) as [st|e] eqn:Hret.
    + destruct (call_prepare_returned node (world ex) st Hret)
        as (node1 & -> & _ & _ & Hl & _ & He & _).
      simpl. unfold switch_status. rewrite Hl.
      destruct st; simpl;
        try (apply (slots_kept_insert None ex _ pid node); [done|]; intros _; by simpl).
      destruct (expandPipeline _ _ _) as [[[b stack] ex']|] eqn:Hexp; [|done].
      apply expandPipeline_slots in Hexp.
      assert (Hfirst : slots_kept None ex
                (set_world
                   (world_after (prepare (processor node) (updated_input_ports node)
                                   (updated_output_ports node) (world ex)))
                   (set_nodes (<[pid := node1]> (nodes ex)) ex))).
      { by apply (slots_kept_insert None ex _ pid node). }
      destruct b.
      * by eapply slots_kept_trans.
      * destruct Hexp as [Hkept [e He']]. split; [done|].
        exists pid, e. split; [done|]. by eapply slots_kept_trans.
    + destruct (call_prepare_threw node (world ex) e Hret)
        as (node1 & -> & He & _ & Hproc & _).
      simpl. split; [done|]. exists pid, e. split.
      * exists node1. simpl.
        rewrite list_lookup_insert_eq by (by eapply lookup_lt_Some).
        split_and!; [done..|]. left. rewrite Hproc. by eexists _, _, _.
      * apply (slots_kept_insert (Some pid) ex _ pid node); [done|]. by intros [].
Qed.

Lemma walk_slots fuel : ∀ ex wk b ex2 wk2,
  walk fuel ex wk = Done (b, ex2, wk2) →
  if b then slots_kept None ex ex2 ∧ walk_over wk2
  else ∃ pid e, captured ex2 pid e ∧ slots_kept (Some pid) ex ex2.
Proof.
  induction fuel as [|fuel IH]; intros ex wk b ex2 wk2 Hwalk.
  - rewrite walk_0 in Hwalk. case_decide; [|done]. simplify_eq.
    split; [apply slots_kept_refl|done].
  - rewrite walk_S in Hwalk. case_decide.
    { simplify_eq. split; [apply slots_kept_refl|done]. }
    pose proof (round_slots ex wk) as Hround.
    destruct (round ex wk) as [ex' wk'|b' ex' wk'|e ex' wk'|]; [| |done..].
    + apply IH in Hwalk. destruct b.
      * destruct Hwalk as [Hk Hover]. split; [|done]. by eapply slots_kept_trans.
      * destruct Hwalk as (pid & e & He & Hk). exists pid, e. split; [done|].
        by eapply slots_kept_trans.
    + simplify_eq. by destruct Hround as [-> Hround].
Qed.

(** C2.  A round for node [pid] whose [prepare] returns anything but
    [ExpandPipeline] leaves on [updated_edges], from the top: the node's
    dirty input ports in their order, then its dirty output ports in
    their order, then what the stack held before; the two lists of the
    node are then empty.  The walk takes edges from the top only, so if
    it ends, what it has taken contains, in this order, an initial part
    of that batch (input ports first, each group in its original order)
    and the rest of the batch is still on the stack; a walk that runs to
    its end with [true] has taken the whole batch in this order. *)
Theorem input_notifications_before_output ex wk pid rest node st :
  updated_processors wk = pid :: rest →
  nodes ex !! pid = Some node →
  returned (prepare (processor node) (updated_input_ports node)
              (updated_output_ports node) (world ex)) = Returned st →
  st ≠ IProcessor.ExpandPipeline →
  ∃ ex' wk' node' ins outs,
    round ex wk = Next ex' wk'
    ∧ ins = post_updated_input_ports node
            ++ dirty_inputs (prepare (processor node) (updated_input_ports node)
                               (updated_output_ports node) (world ex))
    ∧ outs = post_updated_output_ports node
             ++ dirty_outputs (prepare (processor node) (updated_input_ports node)
                                 (updated_output_ports node) (world ex))
    ∧ updated_edges wk' = ins ++ outs ++ updated_edges wk
    ∧ nodes ex' !! pid = Some node'
    ∧ post_updated_input_ports node' = []
    ∧ post_updated_output_ports node' = []
    ∧ (∀ fuel b ex2 wk2,
         walk fuel ex' wk' = Done (b, ex2, wk2) →
         ∃ k, take k (ins ++ outs ++ updated_edges wk)
                `sublist_of` deliveries fuel ex' wk'
              ∧ drop k (ins ++ outs ++ updated_edges wk)
                  `suffix_of` updated_edges wk2)
    ∧ (∀ fuel ex2 wk2,
         walk fuel ex' wk' = Done (true, ex2, wk2) →
         ins ++ outs ++ updated_edges wk `sublist_of` deliveries fuel ex' wk').
Proof.
  intros Hwk Hn Hret Hst.
  destruct (round_prepare_returned ex wk pid rest node st Hwk Hn Hret Hst)
    as (node' & w' & Hround & _ & _ & _ & _ & _ & _ & Hpi & Hpo).
  set (ins := post_updated_input_ports node ++ _) in *.
  set (outs := post_updated_output_ports node ++ _) in *.
  remember (set_world w' (set_nodes (<[pid := node']> (nodes ex)) ex)) as ex' eqn:Hex'.
  match type of Hround with _ = Next _ ?x => remember x as wk' eqn:Hwk' end.
  assert (Hedges : updated_edges wk' = [] ++ ins ++ outs ++ updated_edges wk).
  { by rewrite Hwk'. }
  exists ex', wk', node', ins, outs.
  split_and!; try done.
  - rewrite Hex'. simpl.
    by rewrite list_lookup_insert_eq by (by eapply lookup_lt_Some).
  - intros fuel b ex2 wk2 Hwalk.
    by apply (walk_deliveries fuel ex' wk' [] _ b ex2 wk2 Hedges Hwalk).
  - intros fuel ex2 wk2 Hwalk.
    destruct (walk_deliveries fuel ex' wk' [] _ true ex2 wk2 Hedges Hwalk)
      as (k & Hk & Hs).
    apply walk_slots in Hwalk as [_ [_ Hempty]].
    rewrite Hempty in Hs. apply suffix_nil_inv in Hs.
    rewrite <- (take_drop k (ins ++ outs ++ updated_edges wk)).
    rewrite Hs, app_nil_r. exact Hk.
Qed.

(** A failing round stores the exception it fails with. *)
Lemma round_fails ex wk pid rest e :
  updated_processors wk = pid :: rest →
  fails_with ex pid e →
  ∃ ex' wk',
    round ex wk = Return false ex' wk'
    ∧ node_exception ex' pid = Some (Some e)
    ∧ slots_kept (Some pid) ex ex'.
Proof.
  intros Hwk (node & Hn & [Hthrew|[Hret Hexp]]).
  - destruct (round_prepare_threw ex wk pid rest node e Hwk Hn Hthrew)
      as (node' & w' & -> & He & _).
    eexists _, _. split; [done|]. split.
    + unfold node_exception. simpl.
      rewrite list_lookup_insert_eq by (by eapply lookup_lt_Some). simpl. by rewrite He.
    + apply (slots_kept_insert (Some pid) ex _ pid node); [done|]. by intros [].
  - destruct (round_prepare_expand ex wk pid rest node Hwk Hn Hret)
      as (node1 & Hs & He & Hp & _ & _ & ->).
    set (ex1 := set_world _ _).
    assert (Hn1 : nodes ex1 !! pid = Some node1).
    { simpl. by rewrite list_lookup_insert_eq by (by eapply lookup_lt_Some). }
    assert (Hexp1 : returned (proc_expandPipeline (processor node1) (world ex1)) = Threw e).
    { simpl. by rewrite Hp. }
    destruct (expandPipeline_threw rest pid ex1 node1 e Hn1 Hexp1)
      as (ex' & cur' & -> & _ & _ & Hother & Hcur' & He' & _).
    eexists _, _. split; [done|]. split.
    + unfold node_exception. rewrite Hcur'. simpl. by rewrite He'.
    + intros i n Hskip Hi. assert (i ≠ pid) as Hne by congruence.
      rewrite Hother by done. simpl. rewrite list_lookup_insert_ne by done. by exists n.
Qed.

(** C6 (amended).  A node's exception slot holds at most one exception,
    and a failure is stored in it by plain assignment.  When the round for
    a node fails, because [prepare] throws or because [expandPipeline()]
    throws, the slot of that node holds the exception just thrown,
    whatever it held before, no other slot changes, and the walk returns
    [false] at once.  So a call of [prepareProcessor] that returns [true]
    has changed no slot, and one that returns [false] has changed the slot
    of exactly one node, which holds an exception thrown by its
    processor. *)
Theorem exception_slot_assigned_on_failure ex :
  (∀ wk pid rest e,
     updated_processors wk = pid :: rest →
     fails_with ex pid e →
     ∃ ex' wk',
       round ex wk = Return false ex' wk'
       ∧ node_exception ex' pid = Some (Some e)
       ∧ slots_kept (Some pid) ex ex')
  ∧ (∀ fuel pid q aq b ex2 q2 aq2,
       prepareProcessor fuel pid q aq ex = Done (b, ex2, q2, aq2) →
       if b then slots_kept None ex ex2
       else ∃ failed e, captured ex2 failed e ∧ slots_kept (Some failed) ex ex2).
Proof.
  split; [intros wk pid rest e; apply round_fails|].
  unfold prepareProcessor. intros fuel pid q aq b ex2 q2 aq2 Hrun.
  destruct (walk fuel ex _) as [[[b' ex'] wk']| | |] eqn:Hwalk; [|done..].
  simplify_eq. apply walk_slots in Hwalk. destruct b; [by destruct Hwalk|done].
Qed.

(** ** The two queues *)

Lemma returning_app st tr1 tr2 :
  returning st (tr1 ++ tr2) = returning st tr1 ++ returning st tr2.
Proof. unfold returning. by rewrite filter_app, fmap_app. Qed.

(** A node is appended to the ready queue exactly when its [prepare]
    returns [Ready], and to the async queue exactly when it returns
    [Async]. *)
Lemma round_queues ex wk :
  match round ex wk with
  | Next ex' wk' | Return _ ex' wk' | Raise _ ex' wk' =>
      queue wk' = queue wk ++ returning IProcessor.Ready (prepared ex wk)
      ∧ async_queue wk' = async_queue wk ++ returning IProcessor.Async (prepared ex wk)
      ∧ same_control ex ex'
  | Undefined => True
  end.
Proof.
  unfold round, prepared. destruct (updated_processors wk) as [|pid rest] eqn:Hp.
  - unfold edge_round. destruct (updated_edges wk) as [|e es]; [done|].
    destruct (lookup_edge (nodes ex) e) as [edge|]; [|done].
    destruct (nodes ex !! to edge) as [node|]; [|done].
    unfold returning. simpl. rewrite !app_nil_r.
    case_decide; [|done]. case_decide; [done|].
    by destruct (returned (onUpdatePorts _ _)).
  - unfold node_round. rewrite Hp.
    destruct (nodes ex !! pid) as [node|] eqn:Hpid; [|done].
    destruct (returned (prepare (processor node) (updated_input_ports node)
                          (updated_output_ports node) (world ex))) as [st|e] eqn:Hret.
    + destruct (call_prepare_returned node (world ex) st Hret)
        as (node1 & -> & _ & _ & Hl & _).
      simpl. unfold switch_status. rewrite Hl.
      destruct st; simpl; unfold returning; simpl; rewrite ?app_nil_r; try done.
      destruct (expandPipeline _ _ _) as [[[b stack] ex']|] eqn:Hexp; [|done].
      apply expandPipeline_tasks in Hexp. by destruct b.
    + destruct (call_prepare_threw node (world ex) e Hret) as (node1 & -> & _).
      simpl. unfold returning. simpl. by rewrite !app_nil_r.
Qed.

Lemma walk_queues fuel : ∀ ex wk b ex2 wk2,
  walk fuel ex wk = Done (b, ex2, wk2) →
  queue wk2 = queue wk ++ returning IProcessor.Ready (prepare_trace fuel ex wk)
  ∧ async_queue wk2 = async_queue wk ++ returning IProcessor.Async (prepare_trace fuel ex wk)
  ∧ same_control ex ex2.
Proof.
  induction fuel as [|fuel IH]; intros ex wk b ex2 wk2 Hwalk.
  - rewrite walk_0 in Hwalk. case_decide as Hover; [|done]. simplify_eq.
    destruct Hover as [Hp He]. simpl. rewrite Hp, He.
    unfold returning. simpl. by rewrite !app_nil_r.
  - rewrite walk_S in Hwalk. rewrite prepare_trace_S. case_decide.
    { simplify_eq. unfold returning. simpl. by rewrite !app_nil_r. }
    pose proof (round_queues ex wk) as Hround.
    destruct (round ex wk) as [ex' wk'|b' ex' wk'|e ex' wk'|]; [| |done..].
    + apply IH in Hwalk as (Hq & Haq & Ht). destruct Hround as (Hq' & Haq' & Ht').
      rewrite !returning_app, !app_assoc, <- Hq', <- Haq'.
      split_and!; [done..|]. by eapply same_control_trans.
    + by simplify_eq.
Qed.

End WalkFacts.

(** ** initializeExecution *)

Section InitializeFacts.
Context {W : Type} {procs : Processors W} {graph : ExecutingGraph W}
        {build : Build}.





Lemma prepareProcessor_queues fuel proc q aq ex b ex2 q2 aq2 :
  prepareProcessor fuel proc q aq ex = Done (b, ex2, q2, aq2) →
  q2 = q ++ returning IProcessor.Ready
              (prepare_trace fuel ex {| updated_edges := []; updated_processors := [proc];
                                        queue := q; async_queue := aq |})
  ∧ aq2 = aq ++ returning IProcessor.Async
                  (prepare_trace fuel ex {| updated_edges := []; updated_processors := [proc];
                                            queue := q; async_queue := aq |})
  ∧ same_control ex ex2.
Proof.
  unfold prepareProcessor. intros Hrun.
  destruct (walk fuel ex _) as [[[b' ex'] wk']| | |] eqn:Hwalk; [|done..].
  simplify_eq. by apply walk_queues in Hwalk.
Qed.

Lemma seed_loop_trace fuel : ∀ stack q ex r ex',
  seed_loop fuel stack q [] ex = Done (r, ex') →
  same_control ex ex'
  ∧ match r with
    | Returned q' =>
        returning IProcessor.Async (seed_trace fuel stack q [] ex) = []
        ∧ q' = q ++ returning IProcessor.Ready (seed_trace fuel stack q [] ex)
    | Threw e =>
        ∃ front node,
          head (returning IProcessor.Async (seed_trace fuel stack q [] ex)) = Some front
          ∧ nodes ex' !! front = Some node
          ∧ e = {| code := LOGICAL_ERROR;
                   message := "Async is only possible after work() call. Processor "
                              +:+ getName (processor node) (world ex') |}
    end.
Proof.
  induction stack as [|proc stack IH]; intros q ex r ex' Hrun; simpl in Hrun.
  - simplify_eq. split; [done|]. simpl. unfold returning. simpl. by rewrite app_nil_r.
  - simpl. destruct (prepareProcessor fuel proc q [] ex) as [[[[b ex1] q1] aq1]| | |] eqn:Hpp;
      [|done..].
    pose proof (prepareProcessor_queues _ _ _ _ _ _ _ _ _ Hpp) as (Hq & Haq & Ht).
    simpl in Haq. destruct aq1 as [|front aq1].
    + apply IH in Hrun as [Ht' Hr]. split; [by eapply same_control_trans|].
      destruct r as [q'|e].
      * destruct Hr as [Hasync ->]. rewrite !returning_app, <- Haq, Hasync.
        split; [done|]. by rewrite Hq, <- app_assoc.
      * destruct Hr as (front & node & Hhead & Hnode & ->).
        exists front, node. rewrite returning_app, <- Haq. done.
    + destruct (nodes ex1 !! front) as [node|] eqn:Hfront; [|done]. simplify_eq.
      split; [done|]. exists front, node.
      rewrite returning_app, <- Haq. done.
Qed.

Lemma addChildlessProcessorsToStack_frame stack (ex : PipelineExecutor W) stack' ex' :
  addChildlessProcessorsToStack stack ex = Some (stack', ex') →
  ex' = set_nodes (nodes ex') ex.
Proof.
  unfold addChildlessProcessorsToStack. intros Hrun.
  destruct (addChildless_from _ _ _ _) as [[s ns]|]; simpl in Hrun; by simplify_eq.
Qed.


End InitializeFacts.

(** ** dumpPipeline, finalizeExecution, execute *)

Section FinishFacts.
Context {W : Type} {procs : Processors W} {graph : ExecutingGraph W}
        {build : Build}.

Lemma describe_nodes_cons n ns (d : gmap ProcPtr string) :
  describe_nodes (n :: ns) d
  = describe_nodes ns (<[processor n := node_description n]> d).
Proof. done. Qed.

Lemma describe_nodes_other ns : ∀ (d : gmap ProcPtr string) p,
  p ∉ processor <$> ns → describe_nodes ns d !! p = d !! p.
Proof.
  induction ns as [|n ns IH]; intros d p Hp; [done|].
  rewrite fmap_cons, not_elem_of_cons in Hp. destruct Hp as [Hne Hp].
  rewrite describe_nodes_cons, IH by done. by rewrite lookup_insert_ne.
Qed.

Lemma describe_nodes_lookup ns : ∀ (d : gmap ProcPtr string) node,
  NoDup (processor <$> ns) → node ∈ ns →
  describe_nodes ns d !! processor node = Some (node_description node).
Proof.
  induction ns as [|n ns IH]; intros d node Hnd Hin; [by apply elem_of_nil in Hin|].
  rewrite fmap_cons in Hnd. apply NoDup_cons in Hnd as [Hfresh Hnd].
  rewrite describe_nodes_cons.
  destruct (decide (processor node = processor n)) as [Heq|Hne].
  - apply elem_of_cons in Hin as [->|Hin].
    + rewrite describe_nodes_other by done. by rewrite lookup_insert_eq.
    + destruct Hfresh. rewrite <- Heq. by apply list_elem_of_fmap_2.
  - apply elem_of_cons in Hin as [->|Hin]; [done|]. by apply IH.
Qed.

(** C10.  [dumpPipeline] writes to the processors although it only
    reports: when it returns, the description of the processor of every
    node is the string built from that node, "(N jobs" with N the node's
    count of executed jobs, then in a debug build the execution and the
    preparation time, then ")"; the text it returns is printed from the
    processors with these descriptions.  Whenever some processor had
    another description before, the executor's processors are not what
    they were.  The graph, the processors list and the rest of the
    executor are untouched. *)
Theorem dumpPipeline_overwrites_descriptions ex :
  NoDup (processor <$> nodes ex) →
  (∀ node, node ∈ nodes ex →
     descriptions (dumpPipeline ex).2 !! processor node = Some (node_description node)
     ∧ node_description node
       = ("(" +:+ pretty (num_executed_jobs node) +:+ " jobs" +:+
          (if NDEBUG then ""
           else ", execution time: " +:+ write_seconds (execution_time_ns node) +:+ " sec."
                +:+ ", preparation time: " +:+ write_seconds (preparation_time_ns node)
                +:+ " sec.")
          +:+ ")")%string)
  ∧ (dumpPipeline ex).1
    = printPipeline (processors ex) (descriptions (dumpPipeline ex).2) (world ex)
        (last_processor_status <$> nodes ex)
  ∧ (dumpPipeline ex).2 = set_descriptions (descriptions (dumpPipeline ex).2) ex
  ∧ ((∃ node, node ∈ nodes ex
              ∧ descriptions ex !! processor node ≠ Some (node_description node)) →
     (dumpPipeline ex).2 ≠ ex).
Proof.
  intros Hnd.
  assert (Hall : ∀ node, node ∈ nodes ex →
            descriptions (dumpPipeline ex).2 !! processor node
            = Some (node_description node)).
  { intros node Hin. simpl. by apply describe_nodes_lookup. }
  split_and!; try done.
  - intros node Hin. split; [by apply Hall|done].
  - intros (node & Hin & Hold) Heq. apply Hold.
    rewrite <- Heq at 1. by apply Hall.
Qed.

Lemma all_processors_finished_true ns :
  all_processors_finished ns = true ↔ ∀ node, node ∈ ns → status node = ExecStatus.Finished.
Proof.
  induction ns as [|n ns IH]; simpl.
  - split; [|done]. intros _ node Hin. by apply elem_of_nil in Hin.
  - case_decide as Hn.
    + split; [done|]. intros Hall. destruct Hn. apply Hall. by left.
    + rewrite IH. split.
      * intros Hall node Hin. apply elem_of_cons in Hin as [->|Hin]; [done|by apply Hall].
      * intros Hall node Hin. apply Hall. by right.
Qed.

(** What [finalizeExecution] returns, by cases. *)
Lemma finalizeExecution_cases ex :
  (finalizeExecution ex).1
  = if query_killed ex
    then Threw {| code := QUERY_WAS_CANCELLED; message := "Query was cancelled" |}
    else if cancelled ex then Returned ()
    else if all_processors_finished (nodes ex) then Returned ()
    else Threw {| code := LOGICAL_ERROR;
                  message := "Pipeline stuck. Current state:" +:+ newline
                             +:+ (dumpPipeline ex).1 |}.
Proof.
  unfold finalizeExecution, query_killed.
  destruct (match process_list_element ex with Some _ => _ | None => _ end); [done|].
  destruct (cancelled ex); [done|].
  by destruct (all_processors_finished (nodes ex)).
Qed.

(** C3.  When the query was not killed, no cancellation was requested
    and some node is not [Finished], [finalizeExecution] throws the
    LOGICAL_ERROR whose message is "Pipeline stuck. Current state:", a
    line break and the whole text returned by [dumpPipeline].  When every
    node is [Finished], or when cancellation was requested, it does not
    throw a LOGICAL_ERROR: it returns, or, for a killed query, throws
    QUERY_WAS_CANCELLED. *)
Theorem finalizeExecution_pipeline_stuck ex :
  (query_killed ex = false → cancelled ex = false →
   (∃ node, node ∈ nodes ex ∧ status node ≠ ExecStatus.Finished) →
   (finalizeExecution ex).1
   = Threw {| code := LOGICAL_ERROR;
              message := "Pipeline stuck. Current state:" +:+ newline
                         +:+ (dumpPipeline ex).1 |})
  ∧ ((∀ node, node ∈ nodes ex → status node = ExecStatus.Finished) ∨ cancelled ex = true →
     (finalizeExecution ex).1
     = if query_killed ex
       then Threw {| code := QUERY_WAS_CANCELLED; message := "Query was cancelled" |}
       else Returned ())
  ∧ ((∀ node, node ∈ nodes ex → status node = ExecStatus.Finished) ∨ cancelled ex = true →
     ∀ e, (finalizeExecution ex).1 = Threw e → code e ≠ LOGICAL_ERROR).
Proof.
  rewrite finalizeExecution_cases.
  assert (Hquiet : (∀ node, node ∈ nodes ex → status node = ExecStatus.Finished)
                   ∨ cancelled ex = true →
            (if query_killed ex
             then Threw {| code := QUERY_WAS_CANCELLED; message := "Query was cancelled" |}
             else if cancelled ex then Returned ()
             else if all_processors_finished (nodes ex) then Returned ()
             else Threw {| code := LOGICAL_ERROR;
                           message := "Pipeline stuck. Current state:" +:+ newline
                                      +:+ (dumpPipeline ex).1 |})
            = if query_killed ex
              then Threw {| code := QUERY_WAS_CANCELLED; message := "Query was cancelled" |}
              else Returned ()).
  { intros Hq. destruct (query_killed ex); [done|].
    destruct (cancelled ex); [done|].
    destruct Hq as [Hall|?]; [|done].
    apply all_processors_finished_true in Hall. by rewrite Hall. }
  split_and!.
  - intros -> -> (node & Hin & Hst).
    destruct (all_processors_finished (nodes ex)) eqn:Hall; [|done].
    destruct Hst. by eapply all_processors_finished_true.
  - done.
  - intros Hq e. rewrite Hquiet by done.
    destruct (query_killed ex); [|done]. intros [= <-]. done.
Qed.








End FinishFacts.

Lemma same_core_refl n : same_core n n.
Proof. unfold same_core. done. Qed.

Lemma same_core_trans n1 n2 n3 : same_core n1 n2 → same_core n2 n3 → same_core n1 n3.
Proof.
  unfold same_core. intros (? & ? & ? & ?) (? & ? & ? & ?).
  split_and!; [congruence|congruence|by etrans|by etrans].
Qed.

Lemma bystander_refl n : bystander n n.
Proof. unfold bystander. split_and!; [apply same_core_refl|done|done|by left]. Qed.

Lemma bystander_trans n1 n2 n3 : bystander n1 n2 → bystander n2 n3 → bystander n1 n3.
Proof.
  intros (Hc1 & Hl1 & He1 & Hs1) (Hc2 & Hl2 & He2 & Hs2).
  split_and!; [by eapply same_core_trans|congruence|congruence|].
  destruct Hs1 as [Hs1|[Hs1 Hs1']], Hs2 as [Hs2|[Hs2 Hs2']];
    [left|right|right|]; try (split; congruence); congruence.
Qed.

Lemma bystander_grown n n' : grown_from n n' → bystander n n'.
Proof.
  intros (ds & bs & ->). unfold bystander, same_core. simpl.
  split_and!; try done; [by apply prefix_app_r|by apply prefix_app_r|by left].
Qed.

Section S.
Context {W : Type} {procs : Processors W} {graph : ExecutingGraph W} {build : Build}.

Lemma restage_spec us bs ds : ∀ stack ns stack' ns',
  restage us bs ds stack ns = Some (stack', ns') →
  ∃ pushed,
    stack' = pushed ++ stack
    ∧ NoDup pushed
    ∧ length ns' = length ns
    ∧ (∀ j, j ∈ pushed → j < length ns)
    ∧ ∀ i n, ns !! i = Some n →
        ∃ n', ns' !! i = Some n' ∧ restaged_from n n'
              ∧ (i ∈ pushed → status n = ExecStatus.Idle ∧ status n' = ExecStatus.Preparing)
              ∧ (i ∉ pushed → status n' = status n).
Proof.
  induction us as [|u us IH]; intros stack ns stack' ns' Hrun; simpl in Hrun.
  - simplify_eq. exists []. split_and!; [done|constructor|done| |].
    { intros j Hj. by apply elem_of_nil in Hj. }
    intros i n Hi. exists n. split_and!; [done|done| |done].
    intros Hin. by apply elem_of_nil in Hin.
  - destruct (ns !! u) as [node|] eqn:Hu; simpl in Hrun; [|done].
    destruct (bs !! u) as [fb|]; simpl in Hrun; [|done].
    destruct (ds !! u) as [fd|]; simpl in Hrun; [|done].
    set (node1 := set_updated_ports _ _ node) in Hrun.
    case_decide as Hidle.
    + apply IH in Hrun as (pushed & -> & Hnd & Hl & Hlt & Hk).
      rewrite length_insert in Hl. setoid_rewrite length_insert in Hlt.
      assert (Hu1 : <[u := set_status ExecStatus.Preparing node1]> ns !! u
                    = Some (set_status ExecStatus.Preparing node1)).
      { by rewrite list_lookup_insert_eq by (by eapply lookup_lt_Some). }
      destruct (Hk u _ Hu1) as (nu' & Hnu' & _ & Hin_u & Hout_u).
      assert (Hfresh : u ∉ pushed).
      { intros Hin. by destruct (Hin_u Hin) as [? _]. }
      exists (pushed ++ [u]). split_and!.
      * by rewrite <- app_assoc.
      * apply NoDup_app. split_and!; [done| |apply NoDup_singleton].
        intros x Hx Hx'. apply list_elem_of_singleton in Hx'. by subst.
      * done.
      * intros j Hj. apply elem_of_app in Hj as [Hj|Hj]; [by apply Hlt|].
        apply list_elem_of_singleton in Hj. subst. by eapply lookup_lt_Some.
      * intros i n Hi. destruct (decide (u = i)) as [<-|Hne].
        -- assert (n = node) as -> by congruence.
           exists nu'. split; [done|].
           destruct (Hk u _ Hu1) as (? & ? & Hr & _). simplify_eq.
           split_and!.
           ++ unfold restaged_from in *. simpl in *. done.
           ++ intros _. split; [done|]. by rewrite Hout_u.
           ++ intros Hnot. destruct Hnot. apply elem_of_app. right. by left.
        -- assert (<[u := set_status ExecStatus.Preparing node1]> ns !! i = Some n) as Hi'.
           { by rewrite list_lookup_insert_ne. }
           destruct (Hk i n Hi') as (n' & Hn' & Hr & Hin & Hout).
           exists n'. split_and!; [done|done| |].
           ++ intros Hx. apply elem_of_app in Hx as [Hx|Hx]; [by apply Hin|].
              apply list_elem_of_singleton in Hx. congruence.
           ++ intros Hx. apply Hout. intros Hp. apply Hx. apply elem_of_app. by left.
    + apply IH in Hrun as (pushed & -> & Hnd & Hl & Hlt & Hk).
      rewrite length_insert in Hl. setoid_rewrite length_insert in Hlt.
      exists pushed. split_and!; [done..|].
      intros i n Hi. destruct (decide (u = i)) as [<-|Hne].
      * assert (n = node) as -> by congruence.
        assert (Hu1 : <[u := node1]> ns !! u = Some node1).
        { by rewrite list_lookup_insert_eq by (by eapply lookup_lt_Some). }
        destruct (Hk u _ Hu1) as (n' & Hn' & Hr & Hin & Hout).
        exists n'. split_and!; [done| | |].
        -- unfold restaged_from in *. simpl in *. done.
        -- intros Hx. destruct (Hin Hx) as [Hs _]. done.
        -- intros Hx. by rewrite (Hout Hx).
      * assert (<[u := node1]> ns !! i = Some n) as Hi'.
        { by rewrite list_lookup_insert_ne. }
        destruct (Hk i n Hi') as (n' & Hn' & Hr & Hin & Hout).
        by exists n'.
Qed.

(** What [expandPipeline] leaves. *)
Lemma expandPipeline_post stack pid ex b stack' ex' :
  expandPipeline stack pid ex = Some (b, stack', ex') →
  (∀ i n, nodes ex !! i = Some n →
     ∃ n', nodes ex' !! i = Some n' ∧ same_core n n'
           ∧ last_processor_status n' = last_processor_status n
           ∧ (status n' = status n
              ∨ (status n = ExecStatus.Idle ∧ status n' = ExecStatus.Preparing))
           ∧ (b = true ∨ i ≠ pid → exception n' = exception n))
  ∧ ∃ pushed,
      stack' = pushed ++ stack
      ∧ NoDup pushed
      ∧ (∀ j, j ∈ pushed →
           node_status ex' j = Some ExecStatus.Preparing
           ∧ (node_status ex j = Some ExecStatus.Idle ∨ node_status ex j = None)).
Proof.
  unfold expandPipeline. intros Hrun.
  destruct (nodes ex !! pid) as [cur|] eqn:Hcur; simpl in Hrun; [|done].
  set (c := proc_expandPipeline (processor cur) (world ex)) in *.
  destruct (returned c) as [new_processors|e].
  - case_decide as Hlen; [|done].
    destruct (graph_expandPipeline _ _ _) as [us ns1] eqn:Hg.
    destruct (restage us _ _ stack ns1) as [[stack2 ns2]|] eqn:Hrs; simpl in Hrun; [|done].
    simplify_eq. simpl.
    apply restage_spec in Hrs as (pushed & -> & Hnd & Hl & Hlt & Hk).
    assert (Hchain : ∀ i n, nodes ex !! i = Some n →
              ∃ n0 n1, <[pid := absorb c cur]> (nodes ex) !! i = Some n0
                       ∧ bystander n n0
                       ∧ ns1 !! i = Some n1 ∧ grown_from n0 n1).
    { intros i n Hi.
      assert (∃ n0, <[pid := absorb c cur]> (nodes ex) !! i = Some n0 ∧ bystander n n0)
        as (n0 & Hn0 & Hb0).
      { destruct (decide (pid = i)) as [<-|Hne].
        - rewrite list_lookup_insert_eq by (by eapply lookup_lt_Some).
          eexists. split; [done|]. assert (n = cur) as -> by congruence.
          unfold bystander, same_core. simpl. split_and!; try done. by left.
        - rewrite list_lookup_insert_ne by done. exists n. split; [done|apply bystander_refl]. }
      destruct (graph_expandPipeline_grows (processors ex ++ new_processors)
                  (world_after c) _ _ _ Hn0) as (n1 & Hn1 & Hgrow).
      rewrite Hg in Hn1. simpl in Hn1. by exists n0, n1. }
    split.
    + intros i n Hi. destruct (Hchain i n Hi) as (n0 & n1 & Hn0 & Hb0 & Hn1 & Hgrow).
      destruct (Hk i n1 Hn1) as (n2 & Hn2 & Hr & Hin & Hout).
      exists n2. split; [done|].
      assert (Hb1 : bystander n n1).
      { eapply bystander_trans; [done|by apply bystander_grown]. }
      destruct Hb1 as ((Hp & Hj & Hd & Hbk) & Hl1 & He1 & Hs1).
      destruct Hr as (Hp2 & Hj2 & Hd2 & Hbk2 & Hl2 & He2).
      split_and!.
      * unfold same_core. rewrite Hp2, Hj2, Hd2, Hbk2. done.
      * congruence.
      * destruct (decide (i ∈ pushed)) as [Hi'|Hi'].
        -- destruct (Hin Hi') as [Hidle Hprep]. right. split; [|done].
           destruct Hs1 as [<-|[? ?]]; congruence.
        -- rewrite (Hout Hi'). done.
      * intros _. congruence.
    + exists pushed. split_and!; [done..|].
      intros j Hj. specialize (Hlt j Hj).
      apply lookup_lt_is_Some_2 in Hlt as [n1 Hn1].
      destruct (Hk j n1 Hn1) as (n2 & Hn2 & Hr & Hin & Hout).
      destruct (Hin Hj) as [Hidle Hprep].
      unfold node_status. simpl. rewrite Hn2. simpl. split; [by rewrite Hprep|].
      destruct (nodes ex !! j) as [n|] eqn:Hn; simpl; [|by right].
      left. destruct (Hchain j n Hn) as (n0 & n1' & Hn0 & Hb0 & Hn1' & Hgrow).
      assert (n1' = n1) as -> by congruence.
      assert (Hb1 : bystander n n1).
      { eapply bystander_trans; [done|by apply bystander_grown]. }
      destruct Hb1 as (_ & _ & _ & [Hs|[Hs _]]); congruence.
  - simplify_eq. simpl. split.
    + intros i n Hi. destruct (decide (pid = i)) as [<-|Hne].
      * rewrite list_lookup_insert_eq by (by eapply lookup_lt_Some).
        eexists. split; [done|]. assert (n = cur) as -> by congruence.
        unfold same_core. simpl. split_and!; try done; [by left|].
        intros [?|?]; done.
      * rewrite list_lookup_insert_ne by done. exists n.
        split_and!; try done. by left.
    + exists []. split_and!; [done|constructor|].
      intros j Hj. by apply elem_of_nil in Hj.
Qed.

Lemma insert_bystander (ns : list Node) j node node' :
  ns !! j = Some node → bystander node node' →
  ∀ i n, ns !! i = Some n →
    ∃ n', <[j := node']> ns !! i = Some n' ∧ same_core n n' ∧ bystander n n'.
Proof.
  intros Hj Hb i n Hi. destruct (decide (j = i)) as [<-|Hne].
  - rewrite list_lookup_insert_eq by (by eapply lookup_lt_Some).
    exists node'. assert (n = node) as -> by congruence.
    split; [done|]. split; [apply Hb|done].
  - rewrite list_lookup_insert_ne by done. exists n.
    split; [done|]. split; [apply same_core_refl|apply bystander_refl].
Qed.

Lemma insert_prepared (ns : list Node) pid node node' :
  ns !! pid = Some node → same_core node node' →
  ∀ i n, ns !! i = Some n →
    ∃ n', <[pid := node']> ns !! i = Some n' ∧ same_core n n'
          ∧ (Some pid ≠ Some i → bystander n n').
Proof.
  intros Hj Hc i n Hi. destruct (decide (pid = i)) as [<-|Hne].
  - rewrite list_lookup_insert_eq by (by eapply lookup_lt_Some).
    exists node'. assert (n = node) as -> by congruence. by split_and!.
  - rewrite list_lookup_insert_ne by done. exists n.
    split; [done|]. split; [apply same_core_refl|]. intros _. apply bystander_refl.
Qed.

Lemma round_spec ex wk :
  match round ex wk with
  | Next ex' wk' => round_post ex wk ex' wk'
  | Return _ ex' wk' => round_post ex wk ex' wk'
  | Raise _ ex' wk' => round_post ex wk ex' wk'
  | Undefined => True
  end.
Proof.
  unfold round. destruct (updated_processors wk) as [|pid rest] eqn:Hp.
  - (* a round for an edge *)
    assert (Hnone : prepared ex wk = []) by (unfold prepared; by rewrite Hp).
    assert (Hquiet : ∀ ex' wk',
              (∀ i n, nodes ex !! i = Some n →
                 ∃ n', nodes ex' !! i = Some n' ∧ same_core n n' ∧ bystander n n') →
              updated_processors wk' = [] →
              round_post ex wk ex' wk').
    { intros ex' wk' Hnodes Hstack. unfold round_post. rewrite Hp, Hnone. split_and!.
      - intros i n Hi. destruct (Hnodes i n Hi) as (n' & ? & ? & ?). by exists n'.
      - exists []. split_and!; [constructor| |by left].
        intros j Hj. by apply elem_of_nil in Hj.
      - intros ? ? [=]. }
    unfold edge_round. destruct (updated_edges wk) as [|p es]; [done|].
    destruct (lookup_edge (nodes ex) p) as [e|]; [|done].
    destruct (nodes ex !! to e) as [node|] eqn:Hto; [|done].
    case_decide as Hfin.
    + case_decide as Hidle.
      * (* the destination is Idle: staged *)
        unfold round_post. rewrite Hp, Hnone. simpl. split_and!.
        -- intros i n Hi.
           destruct (insert_bystander (nodes ex) (to e) node
                       (set_status ExecStatus.Preparing
                          (if backward e
                           then set_updated_ports (updated_input_ports node)
                                  (updated_output_ports node ++ [output_port_number e]) node
                           else set_updated_ports
                                  (updated_input_ports node ++ [input_port_number e])
                                  (updated_output_ports node) node)) Hto) with i n
             as (n' & ? & ? & ?); [|done|by exists n'].
           unfold bystander, same_core.
           destruct (backward e); simpl in *; split_and!; try done; by right.
        -- exists [to e]. split_and!; [apply NoDup_singleton| |by left].
           intros j Hj. apply list_elem_of_singleton in Hj as ->.
           unfold node_status. simpl.
           rewrite list_lookup_insert_eq by (by eapply lookup_lt_Some).
           rewrite Hto. simpl. split; [done|]. left.
           by destruct (backward e); simpl in *; rewrite Hidle.
        -- intros ? ? [=].
      * (* the destination is owned or running: onUpdatePorts *)
        assert (Hb : ∀ i n, nodes ex !! i = Some n →
                  ∃ n', <[to e := absorb (onUpdatePorts
                                           (processor
                                              (if backward e
                                               then set_updated_ports (updated_input_ports node)
                                                      (updated_output_ports node
                                                       ++ [output_port_number e]) node
                                               else set_updated_ports
                                                      (updated_input_ports node
                                                       ++ [input_port_number e])
                                                      (updated_output_ports node) node))
                                           (world ex))
                                  (if backward e
                                   then set_updated_ports (updated_input_ports node)
                                          (updated_output_ports node
                                           ++ [output_port_number e]) node
                                   else set_updated_ports
                                          (updated_input_ports node ++ [input_port_number e])
                                          (updated_output_ports node) node)]> (nodes ex) !! i
                        = Some n' ∧ same_core n n' ∧ bystander n n').
        { apply (insert_bystander (nodes ex) (to e) node); [done|].
          unfold bystander, same_core.
          destruct (backward e); simpl; split_and!; try done; by left. }
        destruct (returned (onUpdatePorts _ _)); by apply Hquiet.
    + (* the destination is Finished: dropped *)
      apply Hquiet; [|done]. intros i n Hi. exists n.
      split; [done|]. split; [apply same_core_refl|apply bystander_refl].
  - (* a round for a node *)
    unfold node_round. rewrite Hp.
    destruct (nodes ex !! pid) as [node|] eqn:Hn; [|done].
    set (c := prepare (processor node) (updated_input_ports node)
                (updated_output_ports node) (world ex)).
    destruct (returned c) as [st|e] eqn:Hret.
    + assert (Hprep : prepared ex wk = [(pid, st)]).
      { unfold prepared. rewrite Hp, Hn. fold c. by rewrite Hret. }
      unfold call_prepare. fold c. rewrite Hret.
      set (node1 := set_updated_ports [] [] _).
      assert (Hcore1 : same_core node node1 ∧ status node1 = status node
                       ∧ exception node1 = exception node
                       ∧ last_processor_status node1 = st).
      { unfold node1, same_core. by destruct NDEBUG. }
      destruct Hcore1 as (Hcore1 & Hs1 & He1 & Hl1).
      simpl. unfold switch_status. rewrite Hl1.
      assert (Hplain : ∀ node2 w2 wk2,
                st ≠ IProcessor.ExpandPipeline →
                same_core node1 node2 →
                status node2 = status_after st (status node) →
                last_processor_status node2 = st →
                updated_processors wk2 = rest →
                round_post ex wk
                  (set_world w2 (set_nodes (<[pid := node2]> (nodes ex)) ex)) wk2).
      { intros node2 w2 wk2 Hst Hc2 Hs2 Hl2 Hstack. unfold round_post.
        rewrite Hp, Hprep. simpl. split_and!.
        - apply (insert_prepared (nodes ex) pid node); [done|].
          by eapply same_core_trans.
        - exists []. split_and!; [constructor| |by left].
          intros j Hj. by apply elem_of_nil in Hj.
        - intros ? ? [= <- <-] _. split; [done|]. exists node, node2.
          rewrite list_lookup_insert_eq by (by eapply lookup_lt_Some). done. }
      destruct st; simpl;
        try (apply Hplain; [done| |done..]; unfold same_core; simpl; done).
      (* ExpandPipeline *)
      destruct (expandPipeline _ _ _) as [[[b stack'] ex']|] eqn:Hexp; [|done].
      apply expandPipeline_post in Hexp as (Hnodes & pushed & -> & Hnd & Hpushed).
      simpl in Hnodes, Hpushed.
      assert (Hn1 : <[pid := node1]> (nodes ex) !! pid = Some node1).
      { by rewrite list_lookup_insert_eq by (by eapply lookup_lt_Some). }
      assert (Hpost : ∀ wk2 top,
                updated_processors wk2 = top ++ pushed ++ rest →
                top = [] ∨ top = [pid] →
                round_post ex wk ex' wk2).
      { intros wk2 top Hstack Htop. unfold round_post. rewrite Hp, Hprep. simpl. split_and!.
        - intros i n Hi. destruct (decide (pid = i)) as [<-|Hne].
          + assert (n = node) as -> by congruence.
            destruct (Hnodes pid node1 Hn1) as (n' & Hn' & Hc & _).
            exists n'. split; [done|]. split; [by eapply same_core_trans|]. done.
          + assert (<[pid := node1]> (nodes ex) !! i = Some n) as Hi'.
            { by rewrite list_lookup_insert_ne. }
            destruct (Hnodes i n Hi') as (n' & Hn' & Hc & Hl & Hs & He).
            exists n'. split; [done|]. split; [done|]. intros _.
            split_and!; [done|done| |done]. apply He. by right.
        - exists pushed. split; [done|]. split.
          + intros j Hj. destruct (Hpushed j Hj) as [Hafter Hbefore].
            split; [done|]. unfold node_status in *. simpl in Hbefore.
            destruct (decide (pid = j)) as [<-|Hne].
            * rewrite Hn1 in Hbefore. rewrite Hn. simpl in *. rewrite Hs1 in Hbefore. done.
            * by rewrite list_lookup_insert_ne in Hbefore.
          + destruct Htop as [->| ->]; [by left|]. right.
            destruct (Hnodes pid node1 Hn1) as (n' & Hn' & _ & _ & Hs & _).
            exists pid, node, n'. rewrite Hs1 in Hs. simpl in Hstack. by split_and!.
        - intros ? ? [= <- <-] Hne. done. }
      destruct b; simpl.
      * apply (Hpost _ [pid]); [done|by right].
      * apply (Hpost _ []); [done|by left].
    + (* prepare threw *)
      assert (Hprep : prepared ex wk = []).
      { unfold prepared. rewrite Hp, Hn. fold c. by rewrite Hret. }
      unfold call_prepare. fold c. rewrite Hret. simpl.
      unfold round_post. rewrite Hp, Hprep. simpl. split_and!.
      * apply (insert_prepared (nodes ex) pid node); [done|]. by unfold same_core.
      * exists []. split_and!; [constructor| |by left].
        intros j Hj. by apply elem_of_nil in Hj.
      * intros ? ? [=].
Qed.

Lemma undisturbed_refl n : undisturbed n n.
Proof. unfold undisturbed. split; [apply same_core_refl|done]. Qed.

Lemma undisturbed_trans n1 n2 n3 : undisturbed n1 n2 → undisturbed n2 n3 → undisturbed n1 n3.
Proof.
  intros (Hc1 & Hs1 & Hl1 & He1) (Hc2 & Hs2 & Hl2 & He2).
  split; [by eapply same_core_trans|]. split_and!; congruence.
Qed.

Lemma head_elem_of {A} (l : list A) x : head l = Some x → x ∈ l.
Proof. destruct l; [done|]. intros [= ->]. by left. Qed.

Lemma tail_elem_of {A} (l : list A) x : x ∈ tail l → x ∈ l.
Proof. destruct l; [done|]. simpl. by right. Qed.

Lemma prepared_head ex wk i st :
  (i, st) ∈ prepared ex wk → head (updated_processors wk) = Some i.
Proof.
  unfold prepared. destruct (updated_processors wk) as [|pid rest].
  { intros Hin. by apply elem_of_nil in Hin. }
  destruct (nodes ex !! pid); [|intros Hin; by apply elem_of_nil in Hin].
  destruct (returned _); [|intros Hin; by apply elem_of_nil in Hin].
  intros Hin. apply list_elem_of_singleton in Hin. by simplify_eq.
Qed.

Lemma prepared_cases ex wk :
  prepared ex wk = []
  ∨ ∃ pid st, prepared ex wk = [(pid, st)] ∧ head (updated_processors wk) = Some pid.
Proof.
  unfold prepared. destruct (updated_processors wk) as [|pid rest]; [by left|].
  destruct (nodes ex !! pid); [|by left].
  destruct (returned _); [|by left]. right. by eexists _, _.
Qed.

(** A node that is off the stack and not Idle is left alone by a round. *)
Lemma round_post_settled ex wk ex' wk' i n :
  round_post ex wk ex' wk' →
  nodes ex !! i = Some n → i ∉ updated_processors wk → status n ≠ ExecStatus.Idle →
  ∃ n', nodes ex' !! i = Some n' ∧ undisturbed n n' ∧ i ∉ updated_processors wk'.
Proof.
  intros (Hnodes & (pushed & Hnd & Hpushed & Hstack) & _) Hi Hoff Hbusy.
  assert (Hhead : head (updated_processors wk) ≠ Some i).
  { intros Hh. by apply head_elem_of in Hh. }
  destruct (Hnodes i n Hi) as (n' & Hn' & Hc & Hb). specialize (Hb Hhead).
  destruct Hb as (_ & Hl & He & Hs).
  exists n'. split; [done|]. split.
  { split; [done|]. split_and!; [|done..]. destruct Hs as [?|[? _]]; done. }
  assert (Hnp : i ∉ pushed).
  { intros Hin. destruct (Hpushed i Hin) as [_ Hbefore].
    unfold node_status in Hbefore. rewrite Hi in Hbefore. simpl in Hbefore.
    destruct Hbefore as [[=]|[=]]. done. }
  assert (Hnt : i ∉ tail (updated_processors wk)).
  { intros Hin. by apply tail_elem_of in Hin. }
  destruct Hstack as [->|(pid & ? & ? & Hh & -> & _)].
  - rewrite elem_of_app. tauto.
  - rewrite elem_of_cons, elem_of_app. intros [->|[?|?]]; [|done..].
    by apply head_elem_of in Hh.
Qed.

Lemma round_post_core ex wk ex' wk' i n :
  round_post ex wk ex' wk' → nodes ex !! i = Some n →
  ∃ n', nodes ex' !! i = Some n' ∧ same_core n n'.
Proof.
  intros (Hnodes & _) Hi. destruct (Hnodes i n Hi) as (n' & ? & ? & _). by exists n'.
Qed.

(** Induction along a walk that ends. *)
Lemma walk_ind (P : PipelineExecutor W → Walk → Prop) fuel : ∀ ex wk b ex2 wk2,
  (∀ ex wk ex' wk', P ex wk → round_post ex wk ex' wk' → P ex' wk') →
  P ex wk →
  walk fuel ex wk = Done (b, ex2, wk2) →
  P ex2 wk2.
Proof.
  induction fuel as [|fuel IH]; intros ex wk b ex2 wk2 Hstep HP Hwalk.
  - rewrite walk_0 in Hwalk. case_decide; by simplify_eq.
  - rewrite walk_S in Hwalk. case_decide; [by simplify_eq|].
    pose proof (round_spec ex wk) as Hround.
    destruct (round ex wk) as [ex' wk'|b' ex' wk'|e ex' wk'|]; [| |done..].
    + eapply IH; [done| |done]. by eapply Hstep.
    + simplify_eq. by eapply Hstep.
Qed.

Lemma walk_core fuel ex wk b ex2 wk2 i n :
  walk fuel ex wk = Done (b, ex2, wk2) → nodes ex !! i = Some n →
  ∃ n', nodes ex2 !! i = Some n' ∧ same_core n n'.
Proof.
  intros Hwalk Hi.
  apply (walk_ind (λ ex' _, ∃ n', nodes ex' !! i = Some n' ∧ same_core n n')
           fuel ex wk b ex2 wk2); [|by exists n; split; [|apply same_core_refl]|done].
  intros ex1 wk1 ex' wk' (n1 & Hn1 & Hc1) Hpost.
  destruct (round_post_core _ _ _ _ i n1 Hpost Hn1) as (n' & Hn' & Hc').
  exists n'. split; [done|]. by eapply same_core_trans.
Qed.

Lemma walk_settled fuel ex wk b ex2 wk2 i n :
  walk fuel ex wk = Done (b, ex2, wk2) →
  nodes ex !! i = Some n → i ∉ updated_processors wk → status n ≠ ExecStatus.Idle →
  ∃ n', nodes ex2 !! i = Some n' ∧ undisturbed n n' ∧ i ∉ updated_processors wk2.
Proof.
  intros Hwalk Hi Hoff Hbusy.
  apply (walk_ind (λ ex' wk', ∃ n', nodes ex' !! i = Some n' ∧ undisturbed n n'
                                    ∧ i ∉ updated_processors wk')
           fuel ex wk b ex2 wk2); [| |done].
  - intros ex1 wk1 ex' wk' (n1 & Hn1 & Hu1 & Hoff1) Hpost.
    assert (Hbusy1 : status n1 ≠ ExecStatus.Idle).
    { destruct Hu1 as (_ & -> & _). done. }
    destruct (round_post_settled _ _ _ _ i n1 Hpost Hn1 Hoff1 Hbusy1) as (n' & Hn' & Hu' & Hoff').
    exists n'. split; [done|]. split; [by eapply undisturbed_trans|done].
  - exists n. split; [done|]. split; [apply undisturbed_refl|done].
Qed.

(** A node that is off the stack and not Idle is never prepared. *)
Lemma walk_never_prepares fuel : ∀ ex wk i n st,
  nodes ex !! i = Some n → i ∉ updated_processors wk → status n ≠ ExecStatus.Idle →
  (i, st) ∉ prepare_trace fuel ex wk.
Proof.
  induction fuel as [|fuel IH]; intros ex wk i n st Hi Hoff Hbusy Hin.
  - simpl in Hin. destruct (updated_processors wk), (updated_edges wk);
      by apply elem_of_nil in Hin.
  - rewrite prepare_trace_S in Hin. case_decide; [by apply elem_of_nil in Hin|].
    assert (Hhere : (i, st) ∉ prepared ex wk).
    { intros Hp. apply prepared_head in Hp. by apply head_elem_of in Hp. }
    pose proof (round_spec ex wk) as Hround.
    destruct (round ex wk) as [ex' wk'|b' ex' wk'|e ex' wk'|]; try done.
    apply elem_of_app in Hin as [?|Hin]; [done|].
    destruct (round_post_settled _ _ _ _ i n Hround Hi Hoff Hbusy) as (n' & Hn' & Hu' & Hoff').
    eapply (IH ex' wk' i n'); [done|done| |done].
    destruct Hu' as (_ & -> & _). done.
Qed.

Lemma handed_out_app tr1 tr2 : handed_out (tr1 ++ tr2) = handed_out tr1 ++ handed_out tr2.
Proof. unfold handed_out. apply filter_app. Qed.

Lemma round_post_inv ex wk ex' wk' H :
  round_post ex wk ex' wk' →
  walk_inv ex wk H →
  walk_inv ex' wk' (H ++ handed_out (prepared ex wk)).
Proof.
  intros Hpost (Hnd & Hbusy & HndH & Hhanded).
  pose proof Hpost as (Hnodes & (pushed & Hndp & Hpushed & Hstack) & Hprep).
  assert (Htail : ∀ j, j ∈ tail (updated_processors wk) →
            head (updated_processors wk) ≠ Some j
            ∧ ∃ n', nodes ex' !! j = Some n' ∧ status n' ≠ ExecStatus.Idle).
  { intros j Hj.
    assert (Hh : head (updated_processors wk) ≠ Some j).
    { destruct (updated_processors wk) as [|p rest]; [done|]. simpl in *.
      apply NoDup_cons in Hnd as [Hp _]. intros [= ->]. done. }
    split; [done|].
    destruct (Hbusy j (tail_elem_of _ _ Hj)) as (n & Hn & Hs).
    destruct (Hnodes j n Hn) as (n' & Hn' & _ & Hb). specialize (Hb Hh).
    exists n'. split; [done|]. destruct Hb as (_ & _ & _ & [->|[? _]]); done. }
  assert (Hpt : ∀ j, j ∈ pushed → j ∉ updated_processors wk).
  { intros j Hj Hin. destruct (Hpushed j Hj) as [_ Hbefore].
    destruct (Hbusy j Hin) as (n & Hn & Hs). unfold node_status in Hbefore.
    rewrite Hn in Hbefore. simpl in Hbefore. destruct Hbefore as [[=]|[=]]. done. }
  assert (Hndt : NoDup (pushed ++ tail (updated_processors wk))).
  { apply NoDup_app. split_and!; [done| |].
    - intros j Hj Hin. apply (Hpt j Hj). by apply tail_elem_of.
    - destruct (updated_processors wk); [constructor|]. by apply NoDup_cons in Hnd as [_ ?]. }
  assert (Hbusy' : ∀ j, j ∈ pushed ++ tail (updated_processors wk) →
            ∃ n', nodes ex' !! j = Some n' ∧ status n' ≠ ExecStatus.Idle).
  { intros j Hj. apply elem_of_app in Hj as [Hj|Hj]; [|by apply Htail].
    destruct (Hpushed j Hj) as [Hafter _]. unfold node_status in Hafter.
    destruct (nodes ex' !! j) as [n'|]; [|done]. exists n'. split; [done|].
    simpl in Hafter. injection Hafter as Hafter. by rewrite Hafter. }
  assert (Hstack' : NoDup (updated_processors wk')
                    ∧ ∀ j, j ∈ updated_processors wk' →
                        ∃ n', nodes ex' !! j = Some n' ∧ status n' ≠ ExecStatus.Idle).
  { destruct Hstack as [->|(pid & n & n' & Hh & -> & _ & Hn & Hn' & Hs)]; [done|].
    pose proof (head_elem_of _ _ Hh) as Hin.
    destruct (Hbusy pid Hin) as (n0 & Hn0 & Hs0). assert (n0 = n) as -> by congruence.
    split.
    - apply NoDup_cons. split; [|done]. rewrite elem_of_app. intros [Hp|Ht].
      + by apply (Hpt pid Hp).
      + by destruct (Htail pid Ht) as [? _].
    - intros j Hj. apply elem_of_cons in Hj as [->|Hj]; [|by apply Hbusy'].
      exists n'. split; [done|]. destruct Hs as [->|[? _]]; done. }
  destruct Hstack' as [Hnd' Hbusy''].
  assert (Hold : ∀ j st, (j, st) ∈ H →
            (j ∉ updated_processors wk')
            ∧ ∃ n, nodes ex' !! j = Some n ∧ status n = ExecStatus.Executing
                   ∧ last_processor_status n = st).
  { intros j st Hj. destruct (Hhanded j st Hj) as (Hoff & n & Hn & Hs & Hl).
    destruct (round_post_settled _ _ _ _ j n Hpost Hn Hoff) as (n' & Hn' & Hu & Hoff').
    { by rewrite Hs. }
    split; [done|]. exists n'. destruct Hu as (_ & Hs' & Hl' & _).
    split; [done|]. split; congruence. }
  destruct (prepared_cases ex wk) as [->|(pid & st & Hp & Hh)].
  { unfold handed_out. simpl. rewrite app_nil_r. done. }
  rewrite Hp. unfold handed_out.
  destruct (decide (st = IProcessor.Ready ∨ st = IProcessor.Async)) as [Hst|Hst].
  2: { rewrite filter_cons_False by done. simpl. rewrite app_nil_r. done. }
  rewrite filter_cons_True by done. simpl.
  assert (Hne : st ≠ IProcessor.ExpandPipeline) by (destruct Hst as [->| ->]; done).
  destruct (Hprep pid st Hp Hne) as (Hstk & n & n' & Hn & Hn' & Hs & Hl).
  assert (Hexec : status n' = ExecStatus.Executing).
  { rewrite Hs. destruct Hst as [->| ->]; done. }
  assert (Hoffp : pid ∉ updated_processors wk').
  { rewrite Hstk. intros Ht. by destruct (Htail pid Ht) as [? _]. }
  split_and!; [done|done| |].
  - rewrite fmap_app. apply NoDup_app. split_and!; [done| |apply NoDup_singleton].
    intros j Hj Hj'. simpl in Hj'. apply list_elem_of_singleton in Hj' as ->.
    apply list_elem_of_fmap in Hj as ([j st'] & -> & Hj). simpl in *.
    destruct (Hhanded _ _ Hj) as [Hoff _]. by apply head_elem_of in Hh.
  - intros j st' Hj. apply elem_of_app in Hj as [Hj|Hj]; [by apply Hold|].
    apply list_elem_of_singleton in Hj. simplify_eq. split; [done|]. by exists n'.
Qed.

Lemma walk_inv_final fuel : ∀ ex wk H b ex2 wk2,
  walk_inv ex wk H →
  walk fuel ex wk = Done (b, ex2, wk2) →
  walk_inv ex2 wk2 (H ++ handed_out (prepare_trace fuel ex wk)).
Proof.
  induction fuel as [|fuel IH]; intros ex wk H b ex2 wk2 Hinv Hwalk.
  - rewrite walk_0 in Hwalk. case_decide as Hover; [|done]. simplify_eq.
    destruct Hover as [Hp He]. simpl. rewrite Hp, He. unfold handed_out. simpl.
    by rewrite app_nil_r.
  - rewrite walk_S in Hwalk. rewrite prepare_trace_S. case_decide.
    { simplify_eq. unfold handed_out. simpl. by rewrite app_nil_r. }
    pose proof (round_spec ex wk) as Hround.
    destruct (round ex wk) as [ex' wk'|b' ex' wk'|e ex' wk'|]; [| |done..].
    + rewrite handed_out_app, app_assoc. eapply IH; [|done].
      by apply round_post_inv.
    + simplify_eq. by apply round_post_inv.
Qed.

Lemma same_core_lookup_edge (ns ns' : list Node) :
  (∀ i n, ns !! i = Some n → ∃ n', ns' !! i = Some n' ∧ same_core n n') →
  ∀ p e, lookup_edge ns p = Some e → lookup_edge ns' p = Some e.
Proof.
  intros Hcore p e. unfold lookup_edge. intros Hp.
  destruct (ns !! edge_owner p) as [n|] eqn:Hn; [|done]. simpl in Hp.
  destruct (Hcore _ _ Hn) as (n' & -> & _ & _ & Hd & Hb). simpl.
  destruct (edge_back p).
  - destruct Hb as [k ->]. by apply lookup_app_l_Some.
  - destruct Hd as [k ->]. by apply lookup_app_l_Some.
Qed.

Lemma returning_handed_out st tr :
  st = IProcessor.Ready ∨ st = IProcessor.Async →
  returning st tr = returning st (handed_out tr).
Proof.
  intros Hst. unfold returning, handed_out. f_equal.
  induction tr as [|[j st'] tr IH]; [done|].
  destruct (decide (st' = st)) as [->|Hne].
  - rewrite filter_cons_True by done.
    rewrite (filter_cons_True (λ x, x.2 = IProcessor.Ready ∨ x.2 = IProcessor.Async)) by done.
    rewrite filter_cons_True by done. by rewrite IH.
  - rewrite filter_cons_False by done.
    destruct (decide (st' = IProcessor.Ready ∨ st' = IProcessor.Async)).
    + rewrite (filter_cons_True (λ x, x.2 = IProcessor.Ready ∨ x.2 = IProcessor.Async)) by done.
      by rewrite filter_cons_False.
    + by rewrite (filter_cons_False (λ x, x.2 = IProcessor.Ready ∨ x.2 = IProcessor.Async)).
Qed.

Lemma elem_of_returning st j (tr : list (nat * IProcessor.Status)) :
  j ∈ returning st tr ↔ (j, st) ∈ tr.
Proof.
  unfold returning. rewrite list_elem_of_fmap. split.
  - intros ([j' st'] & -> & Hin). apply list_elem_of_filter in Hin as [Hst Hin].
    simpl in *. by subst.
  - intros Hin. exists (j, st). split; [done|]. by apply list_elem_of_filter.
Qed.

Lemma returning_NoDup st (H : list (nat * IProcessor.Status)) :
  NoDup H.*1 → NoDup (returning st H).
Proof.
  intros Hnd. unfold returning. eapply sublist_NoDup; [done|].
  apply fmap_sublist, sublist_filter.
Qed.

(** The walk hands a node out at most once. *)
Lemma walk_hands_out_once fuel ex wk b ex2 wk2 :
  walk_inv ex wk [] →
  walk fuel ex wk = Done (b, ex2, wk2) →
  ∃ ready async,
    queue wk2 = queue wk ++ ready ∧ async_queue wk2 = async_queue wk ++ async
    ∧ NoDup (ready ++ async)
    ∧ (∀ j, j ∈ ready → ∃ n, nodes ex2 !! j = Some n ∧ status n = ExecStatus.Executing
                              ∧ last_processor_status n = IProcessor.Ready)
    ∧ (∀ j, j ∈ async → ∃ n, nodes ex2 !! j = Some n ∧ status n = ExecStatus.Executing
                              ∧ last_processor_status n = IProcessor.Async).
Proof.
  intros Hinv Hwalk.
  pose proof (walk_inv_final fuel ex wk [] b ex2 wk2 Hinv Hwalk) as (_ & _ & Hnd & Hhanded).
  simpl in Hnd, Hhanded.
  destruct (walk_queues fuel ex wk b ex2 wk2 Hwalk) as (Hq & Haq & _).
  exists (returning IProcessor.Ready (prepare_trace fuel ex wk)),
         (returning IProcessor.Async (prepare_trace fuel ex wk)).
  split; [done|]. split; [done|].
  rewrite (returning_handed_out IProcessor.Ready) by (by left).
  rewrite (returning_handed_out IProcessor.Async) by (by right).
  split_and!.
  - apply NoDup_app. split_and!; [by apply returning_NoDup| |by apply returning_NoDup].
    intros j Hr Ha. apply elem_of_returning in Hr, Ha.
    destruct (Hhanded _ _ Hr) as (_ & n & Hn & _ & Hl).
    destruct (Hhanded _ _ Ha) as (_ & n0 & Hn0 & _ & Hl0).
    assert (n0 = n) as -> by congruence. congruence.
  - intros j Hj. apply elem_of_returning in Hj. by destruct (Hhanded _ _ Hj) as [_ ?].
  - intros j Hj. apply elem_of_returning in Hj. by destruct (Hhanded _ _ Hj) as [_ ?].
Qed.

Lemma walk_inv_start (ex : PipelineExecutor W) pid q aq n :
  nodes ex !! pid = Some n → status n ≠ ExecStatus.Idle →
  walk_inv ex {| updated_edges := []; updated_processors := [pid];
                 queue := q; async_queue := aq |} [].
Proof.
  intros Hn Hs. split_and!; simpl.
  - apply NoDup_singleton.
  - intros j Hj. apply list_elem_of_singleton in Hj as ->. by exists n.
  - constructor.
  - intros j st Hj. by apply elem_of_nil in Hj.
Qed.

(** X1.  [prepareProcessor] never takes anything out of the graph.  If it
    returns, every node that was there is still there at the same index,
    for the same processor and with the same job count, and its two edge
    lists begin with the edges it had; so a pointer to an edge of the old
    graph points to the same edge in the new one. *)
Theorem prepareProcessor_keeps_graph fuel pid q aq ex b ex2 q2 aq2 :
  prepareProcessor fuel pid q aq ex = Done (b, ex2, q2, aq2) →
  (∀ i n, nodes ex !! i = Some n →
     ∃ n', nodes ex2 !! i = Some n'
           ∧ processor n' = processor n
           ∧ num_executed_jobs n' = num_executed_jobs n
           ∧ direct_edges n `prefix_of` direct_edges n'
           ∧ back_edges n `prefix_of` back_edges n')
  ∧ (∀ p e, lookup_edge (nodes ex) p = Some e → lookup_edge (nodes ex2) p = Some e).
Proof.
  unfold prepareProcessor. intros Hrun.
  destruct (walk fuel ex _) as [[[b' ex'] wk']| | |] eqn:Hwalk; [|done..].
  simplify_eq.
  assert (Hcore : ∀ i n, nodes ex !! i = Some n →
            ∃ n', nodes ex2 !! i = Some n' ∧ same_core n n').
  { intros i n Hi. by eapply walk_core. }
  split; [exact Hcore|]. by apply same_core_lookup_edge.
Qed.

(** X2.  [prepareProcessor(pid, ...)] leaves alone every other node that
    is not Idle when it is called: such a node (Preparing, Executing or
    Finished, so possibly owned by another thread) has the same status,
    the same [last_processor_status] and the same exception slot when the
    call returns. *)
Theorem prepareProcessor_leaves_busy_nodes fuel pid q aq ex b ex2 q2 aq2 i n :
  prepareProcessor fuel pid q aq ex = Done (b, ex2, q2, aq2) →
  nodes ex !! i = Some n → i ≠ pid → status n ≠ ExecStatus.Idle →
  ∃ n', nodes ex2 !! i = Some n'
        ∧ status n' = status n
        ∧ last_processor_status n' = last_processor_status n
        ∧ exception n' = exception n.
Proof.
  unfold prepareProcessor. intros Hrun Hi Hne Hbusy.
  destruct (walk fuel ex _) as [[[b' ex'] wk']| | |] eqn:Hwalk; [|done..].
  simplify_eq.
  destruct (walk_settled _ _ _ _ _ _ i n Hwalk Hi) as (n' & Hn' & (_ & ? & ? & ?) & _);
    [simpl; by intros ?%list_elem_of_singleton|done|].
  by exists n'.
Qed.


(** X4.  Called on a node that is not Idle, [prepareProcessor] hands out
    every node at most once: what it appends to [queue] and [async_queue]
    has no duplicates, within or across the two, and when it returns every
    node it appended to [queue] is Executing with last status Ready and
    every node it appended to [async_queue] is Executing with last status
    Async. *)
Theorem prepareProcessor_hands_out_once fuel pid q aq ex b ex2 q2 aq2 n :
  nodes ex !! pid = Some n → status n ≠ ExecStatus.Idle →
  prepareProcessor fuel pid q aq ex = Done (b, ex2, q2, aq2) →
  ∃ ready async,
    q2 = q ++ ready ∧ aq2 = aq ++ async
    ∧ NoDup (ready ++ async)
    ∧ (∀ j, j ∈ ready → ∃ n, nodes ex2 !! j = Some n ∧ status n = ExecStatus.Executing
                              ∧ last_processor_status n = IProcessor.Ready)
    ∧ (∀ j, j ∈ async → ∃ n, nodes ex2 !! j = Some n ∧ status n = ExecStatus.Executing
                              ∧ last_processor_status n = IProcessor.Async).
Proof.
  unfold prepareProcessor. intros Hn Hs Hrun.
  destruct (walk fuel ex _) as [[[b' ex'] wk']| | |] eqn:Hwalk; [|done..].
  simplify_eq.
  by apply (walk_hands_out_once _ _ _ _ _ _ (walk_inv_start ex pid q aq n Hn Hs) Hwalk).
Qed.

End S.

Section Seeding.
Context {W : Type} {procs : Processors W} {graph : ExecutingGraph W} {build : Build}.

Lemma rev_reverse {A} (l : list A) : rev l = reverse l.
Proof. unfold reverse. by rewrite List.rev_alt. Qed.

Lemma addChildless_from_Some count : ∀ proc stack ns r,
  addChildless_from count proc stack ns = Some r →
  count = 0 ∨ proc + count ≤ length ns.
Proof.
  induction count as [|count IH]; intros proc stack ns r Hrun; [by left|right].
  simpl in Hrun. destruct (ns !! proc) as [n|] eqn:Hn; [|done]. simpl in Hrun.
  apply lookup_lt_Some in Hn.
  case_decide.
  - apply IH in Hrun as [->|Hrun]; [lia|]. rewrite length_insert in Hrun. lia.
  - apply IH in Hrun as [->|Hrun]; lia.
Qed.

Lemma addChildlessProcessorsToStack_Some (ex : PipelineExecutor W) stack' ex' :
  addChildlessProcessorsToStack [] ex = Some (stack', ex') →
  length (processors ex) ≤ length (nodes ex)
  ∧ stack' = rev (filter (λ i, is_childless (nodes ex) i) (seq 0 (length (processors ex))))
  ∧ (∀ i, nodes ex' !! i = seeded 0 (length (processors ex)) i <$> nodes ex !! i)
  ∧ ex' = set_nodes (nodes ex') ex.
Proof.
  intros Hrun. pose proof (addChildlessProcessorsToStack_frame _ _ _ _ Hrun) as Hframe.
  unfold addChildlessProcessorsToStack in Hrun.
  destruct (addChildless_from _ _ _ _) as [[s ns]|] eqn:Hfrom; [|done].
  simpl in Hrun. simplify_eq.
  assert (Hlen : length (processors ex) ≤ length (nodes ex)).
  { apply addChildless_from_Some in Hfrom as [->|?]; lia. }
  split; [done|].
  destruct (addChildless_from_spec (length (processors ex)) 0 [] (nodes ex))
    as (ns' & Hspec & _ & Hns); [lia|].
  rewrite Hfrom in Hspec. simplify_eq. rewrite app_nil_r. done.
Qed.

Lemma seed_inv_start (ex : PipelineExecutor W) stack' ex' :
  addChildlessProcessorsToStack [] ex = Some (stack', ex') →
  seed_inv ex' stack' [].
Proof.
  intros Hrun. apply addChildlessProcessorsToStack_Some in Hrun as (Hlen & -> & Hns & _).
  split_and!.
  - rewrite rev_reverse, reverse_Permutation. apply NoDup_filter, NoDup_seq.
  - intros j Hj. rewrite rev_reverse, elem_of_reverse in Hj.
    apply list_elem_of_filter in Hj as [Hc Hj]. apply elem_of_seq in Hj.
    split; [|simpl; by intros ?%elem_of_nil].
    rewrite Hns. unfold is_childless in Hc.
    destruct (nodes ex !! j) as [n|]; [|done]. simpl.
    apply Is_true_true, bool_decide_eq_true in Hc.
    exists (seeded 0 (length (processors ex)) j n). split; [done|].
    unfold seeded. rewrite decide_True; [done|]. split; [lia|done].
  - constructor.
  - intros j st Hj. by apply elem_of_nil in Hj.
Qed.

(** One call of [prepareProcessor] from the loop of
    [initializeExecution] keeps its invariant. *)
Lemma seed_inv_step fuel proc rest q aq (ex : PipelineExecutor W) H b ex2 q2 aq2 :
  seed_inv ex (proc :: rest) H →
  prepareProcessor fuel proc q aq ex = Done (b, ex2, q2, aq2) →
  seed_inv ex2 rest
    (H ++ handed_out (prepare_trace fuel ex
                        {| updated_edges := []; updated_processors := [proc];
                           queue := q; async_queue := aq |})).
Proof.
  intros (Hnd & Hstack & HndH & Hhanded) Hrun. unfold prepareProcessor in Hrun.
  destruct (walk fuel ex _) as [[[b' ex'] wk']| | |] eqn:Hwalk; [|done..].
  simplify_eq.
  apply NoDup_cons in Hnd as [Hproc Hnd].
  destruct (Hstack proc ltac:(by left)) as ((n & Hn & Hs) & HprocH).
  assert (Hinv : walk_inv ex {| updated_edges := []; updated_processors := [proc];
                                queue := q; async_queue := aq |} H).
  { split_and!; simpl; [apply NoDup_singleton| |done|].
    - intros j Hj. apply list_elem_of_singleton in Hj as ->. exists n. by rewrite Hs.
    - intros j st Hj. split; [|by apply Hhanded].
      intros Hin. apply list_elem_of_singleton in Hin as ->.
      apply HprocH. apply list_elem_of_fmap. by exists (proc, st). }
  destruct (walk_inv_final _ _ _ _ _ _ _ Hinv Hwalk) as (_ & _ & HndH' & Hhanded').
  split_and!; [done| |done|].
  - intros j Hj.
    destruct (Hstack j ltac:(by right)) as ((m & Hm & Hsm) & HjH).
    assert (Hoff : j ∉ [proc]).
    { intros Hin. apply list_elem_of_singleton in Hin as ->. done. }
    assert (Hbusy : status m ≠ ExecStatus.Idle) by (by rewrite Hsm).
    split.
    + destruct (walk_settled _ _ _ _ _ _ j m Hwalk Hm Hoff Hbusy) as (m' & Hm' & Hu & _).
      exists m'. split; [done|]. destruct Hu as (_ & -> & _). done.
    + rewrite fmap_app, elem_of_app. intros [?|Hin]; [done|].
      apply list_elem_of_fmap in Hin as ([j' st] & -> & Hin). simpl in *.
      apply list_elem_of_filter in Hin as [_ Hin].
      eapply (walk_never_prepares fuel ex _ j' m st Hm); [|done|exact Hin]. done.
  - intros j st Hj. by destruct (Hhanded' j st Hj) as [_ ?].
Qed.

Lemma seed_loop_inv fuel : ∀ stack q (ex : PipelineExecutor W) H r ex',
  seed_inv ex stack H →
  seed_loop fuel stack q [] ex = Done (r, ex') →
  NoDup (H ++ handed_out (seed_trace fuel stack q [] ex)).*1
  ∧ ∀ j st, (j, st) ∈ H ++ handed_out (seed_trace fuel stack q [] ex) →
      ∃ n, nodes ex' !! j = Some n ∧ status n = ExecStatus.Executing
           ∧ last_processor_status n = st.
Proof.
  induction stack as [|proc rest IH]; intros q ex H r ex' Hinv Hrun.
  - simpl in Hrun. simplify_eq. simpl. unfold handed_out. simpl. rewrite app_nil_r.
    by destruct Hinv as (_ & _ & ? & ?).
  - simpl in Hrun. simpl.
    destruct (prepareProcessor fuel proc q [] ex) as [[[[b ex2] q2] aq2]| | |] eqn:Hprep;
      [|done..].
    pose proof (seed_inv_step _ _ _ _ _ _ _ _ _ _ _ Hinv Hprep) as Hinv2.
    rewrite handed_out_app, app_assoc.
    destruct aq2 as [|front aq2].
    + by eapply IH.
    + destruct (nodes ex2 !! front); [|done]. simplify_eq.
      change (handed_out []) with (@nil (nat * IProcessor.Status)).
      rewrite app_nil_r.
      by destruct Hinv2 as (_ & _ & ? & ?).
Qed.

(** X5.  When [initializeExecution] returns normally, what it has given
    to the task queue has no duplicates, and each of these nodes is
    Executing with last status Ready. *)
Theorem initializeExecution_schedules_once fuel num_threads (ex : PipelineExecutor W) ex' :
  initializeExecution fuel num_threads ex = Done (Returned (), ex') →
  ∃ ready,
    task_queue (tasks ex') = task_queue (tasks ex) ++ ready
    ∧ NoDup ready
    ∧ ∀ j, j ∈ ready →
        ∃ n, nodes ex' !! j = Some n ∧ status n = ExecStatus.Executing
             ∧ last_processor_status n = IProcessor.Ready.
Proof.
  unfold initializeExecution. intros Hrun.
  destruct (addChildlessProcessorsToStack [] _) as [[stack ex1]|] eqn:Hadd; [|done].
  pose proof (seed_inv_start _ _ _ Hadd) as Hinv.
  apply addChildlessProcessorsToStack_frame in Hadd as Hframe.
  destruct (seed_loop fuel stack [] [] _) as [[[q'|e] ex2]| | |] eqn:Hseed; [|done..].
  simplify_eq.
  destruct (seed_loop_trace _ _ _ _ _ _ Hseed) as (Hctl & _ & Hq).
  assert (Hinv' : seed_inv (set_tasks (tasks_init num_threads (tasks ex1)) ex1) stack [])
    by exact Hinv.
  destruct (seed_loop_inv fuel stack [] _ [] _ _ Hinv' Hseed) as (Hnd & Hhanded).
  simpl in Hnd, Hhanded, Hq.
  exists q'. split_and!.
  - simpl. f_equal. destruct Hctl as (-> & _). simpl. rewrite Hframe. done.
  - rewrite Hq, (returning_handed_out IProcessor.Ready) by (by left).
    by apply returning_NoDup.
  - intros j Hj. rewrite Hq, (returning_handed_out IProcessor.Ready) in Hj by (by left).
    apply elem_of_returning in Hj. simpl. by apply Hhanded.
Qed.

Lemma seed_loop_settled fuel : ∀ stack q (ex : PipelineExecutor W) r ex' i n,
  seed_loop fuel stack q [] ex = Done (r, ex') →
  nodes ex !! i = Some n → i ∉ stack → status n ≠ ExecStatus.Idle →
  ∃ n', nodes ex' !! i = Some n' ∧ undisturbed n n'.
Proof.
  induction stack as [|proc rest IH]; intros q ex r ex' i n Hrun Hi Hoff Hbusy.
  - simpl in Hrun. simplify_eq. exists n. split; [done|apply undisturbed_refl].
  - simpl in Hrun.
    destruct (prepareProcessor fuel proc q [] ex) as [[[[b ex2] q2] aq2]| | |] eqn:Hprep;
      [|done..].
    unfold prepareProcessor in Hprep.
    destruct (walk fuel ex _) as [[[b' ex1] wk1]| | |] eqn:Hwalk; [|done..].
    simplify_eq.
    destruct (walk_settled _ _ _ _ _ _ i n Hwalk Hi) as (n2 & Hn2 & Hu2 & _);
      [simpl; intros ?%list_elem_of_singleton; subst; apply Hoff; by left|done|].
    destruct (async_queue wk1) as [|front aq2].
    + destruct (IH _ _ _ _ i n2 Hrun Hn2) as (n' & Hn' & Hu').
      { intros Hin. apply Hoff. by right. }
      { destruct Hu2 as (_ & -> & _). done. }
      exists n'. split; [done|]. by eapply undisturbed_trans.
    + destruct (nodes ex2 !! front); [|done]. simplify_eq. by exists n2.
Qed.

(** The first round of a walk from [proc] prepares [proc]: its [prepare]
    returns, or it throws and the walk ends at once with the exception on
    the node. *)
Lemma walk_first_prepare fuel (ex : PipelineExecutor W) proc q aq b ex2 wk2 node :
  walk fuel ex {| updated_edges := []; updated_processors := [proc];
                  queue := q; async_queue := aq |} = Done (b, ex2, wk2) →
  nodes ex !! proc = Some node →
  (∃ st, (proc, st) ∈ prepare_trace fuel ex
                        {| updated_edges := []; updated_processors := [proc];
                           queue := q; async_queue := aq |})
  ∨ (∃ e node', b = false ∧ nodes ex2 !! proc = Some node'
                ∧ exception node' = Some e ∧ status node' = status node
                ∧ processor node' = processor node
                ∧ returned (prepare (processor node) (updated_input_ports node)
                              (updated_output_ports node) (world ex)) = Threw e).
Proof.
  intros Hwalk Hnode. destruct fuel as [|fuel].
  { rewrite walk_0 in Hwalk. case_decide as Hover; [|done]. by destruct Hover. }
  rewrite walk_S in Hwalk. rewrite prepare_trace_S.
  case_decide as Hover; [by destruct Hover|].
  destruct (returned (prepare (processor node) (updated_input_ports node)
                        (updated_output_ports node) (world ex))) as [st|e] eqn:Hret.
  - left. exists st.
    assert (Hp : prepared ex {| updated_edges := []; updated_processors := [proc];
                                queue := q; async_queue := aq |} = [(proc, st)]).
    { unfold prepared. simpl. by rewrite Hnode, Hret. }
    rewrite Hp. destruct (round ex _); [apply elem_of_app; left|..]; by left.
  - right.
    destruct (round_prepare_threw ex {| updated_edges := []; updated_processors := [proc];
                                        queue := q; async_queue := aq |}
                proc [] node e eq_refl Hnode Hret)
      as (node' & w' & Hround & He & Hs & Hp & _).
    rewrite Hround in Hwalk. simplify_eq. exists e, node'.
    split; [done|]. split; [|done]. simpl.
    apply list_lookup_insert_eq. by eapply lookup_lt_Some.
Qed.

Lemma seed_loop_covers fuel : ∀ stack q (ex : PipelineExecutor W) H q' ex' i,
  seed_inv ex stack H →
  seed_loop fuel stack q [] ex = Done (Returned q', ex') →
  i ∈ stack →
  (∃ st, (i, st) ∈ seed_trace fuel stack q [] ex)
  ∨ (∃ e, captured ex' i e ∧ node_status ex' i = Some ExecStatus.Preparing).
Proof.
  induction stack as [|proc rest IH]; intros q ex H q' ex' i Hinv Hrun Hi.
  { by apply elem_of_nil in Hi. }
  simpl in Hrun. simpl.
  destruct (prepareProcessor fuel proc q [] ex) as [[[[b ex2] q2] aq2]| | |] eqn:Hprep;
    [|done..].
  pose proof (seed_inv_step _ _ _ _ _ _ _ _ _ _ _ Hinv Hprep) as Hinv2.
  destruct aq2 as [|front aq2]; [|by destruct (nodes ex2 !! front)].
  destruct Hinv as (Hnd & Hstack & _). apply NoDup_cons in Hnd as [Hproc _].
  apply elem_of_cons in Hi as [->|Hi].
  - destruct (Hstack proc ltac:(by left)) as ((node & Hnode & Hs) & _).
    unfold prepareProcessor in Hprep.
    destruct (walk fuel ex _) as [[[b' ex1] wk1]| | |] eqn:Hwalk; [|done..].
    simplify_eq.
    destruct (walk_first_prepare _ _ _ _ _ _ _ _ _ Hwalk Hnode)
      as [[st Hst]|(e & node' & _ & Hnode' & He & Hs' & Hp & Hthrew)].
    + left. exists st. apply elem_of_app. by left.
    + right. exists e.
      destruct (seed_loop_settled _ _ _ _ _ _ proc node' Hrun Hnode' Hproc)
        as (n' & Hn' & (Hc & Hs2 & _ & He2)); [by rewrite Hs', Hs|].
      split.
      * exists n'. split; [done|]. split; [congruence|].
        left. destruct Hc as (-> & _). rewrite Hp. by eexists _, _, _.
      * unfold node_status. rewrite Hn'. simpl. congruence.
  - destruct (IH _ _ _ _ _ i Hinv2 Hrun Hi) as [[st Hst]|?]; [left|by right].
    exists st. apply elem_of_app. by right.
Qed.

(** X6.  When [initializeExecution] returns normally, every childless
    node with a processor in the list has been dealt with: a call of
    [prepare] on it has returned, or its [prepare] threw and the node still
    holds the exception and is still Preparing.  So an exception thrown by
    [prepare] while seeding neither stops the seeding nor makes
    [initializeExecution] throw. *)
Theorem initializeExecution_prepares_every_seed fuel num_threads (ex : PipelineExecutor W)
    ex' i n :
  initializeExecution fuel num_threads ex = Done (Returned (), ex') →
  nodes ex !! i = Some n → i < length (processors ex) → direct_edges n = [] →
  (∃ st, (i, st) ∈ initialize_trace fuel num_threads ex)
  ∨ (∃ e, captured ex' i e ∧ node_status ex' i = Some ExecStatus.Preparing).
Proof.
  unfold initializeExecution, initialize_trace. intros Hrun Hi Hlt Hchildless.
  destruct (addChildlessProcessorsToStack [] _) as [[stack ex1]|] eqn:Hadd; [|done].
  pose proof (seed_inv_start _ _ _ Hadd) as Hinv.
  apply addChildlessProcessorsToStack_Some in Hadd as (_ & Hstack & _).
  destruct (seed_loop fuel stack [] [] _) as [[[q'|e] ex2]| | |] eqn:Hseed; [|done..].
  simplify_eq.
  assert (Hin : i ∈ rev (filter (λ i0, is_childless (nodes ex) i0)
                           (seq 0 (length (processors ex))))).
  { rewrite rev_reverse, elem_of_reverse. apply list_elem_of_filter. split.
    - unfold is_childless. rewrite Hi. by apply Is_true_true, bool_decide_eq_true.
    - apply elem_of_seq. lia. }
  assert (Hinv' : seed_inv (set_tasks (tasks_init num_threads (tasks ex1)) ex1)
                    (rev (filter (λ i0, is_childless (nodes ex) i0)
                            (seq 0 (length (processors ex))))) [])
    by exact Hinv.
  destruct (seed_loop_covers fuel _ [] _ [] _ _ i Hinv' Hseed Hin) as [?|(e & Hc & Hs)];
    [by left|right].
  exists e. done.
Qed.

End Seeding.

Section Staging.
Context {W : Type} {procs : Processors W} {graph : ExecutingGraph W} {build : Build}.

(** A node that is [Preparing] after [expandPipeline] was so before, or
    has been pushed. *)
Lemma expandPipeline_staged stack pid (ex : PipelineExecutor W) b stack' ex' :
  expandPipeline stack pid ex = Some (b, stack', ex') →
  ∀ i n n', nodes ex !! i = Some n → nodes ex' !! i = Some n' →
    status n' = ExecStatus.Preparing →
    status n = ExecStatus.Preparing ∨ i ∈ stack'.
Proof.
  unfold expandPipeline. intros Hrun i n n' Hi Hi' Hs.
  destruct (nodes ex !! pid) as [cur|] eqn:Hcur; simpl in Hrun; [|done].
  set (c := proc_expandPipeline (processor cur) (world ex)) in *.
  assert (∃ n0, <[pid := absorb c cur]> (nodes ex) !! i = Some n0 ∧ status n0 = status n)
    as (n0 & Hn0 & Hs0).
  { destruct (decide (pid = i)) as [<-|Hne].
    - rewrite list_lookup_insert_eq by (by eapply lookup_lt_Some).
      eexists. split; [done|]. assert (n = cur) as -> by congruence. done.
    - rewrite list_lookup_insert_ne by done. by exists n. }
  destruct (returned c) as [new_processors|e].
  - case_decide as Hlen; [|done].
    destruct (graph_expandPipeline _ _ _) as [us ns1] eqn:Hg.
    destruct (restage us _ _ stack ns1) as [[stack2 ns2]|] eqn:Hrs; simpl in Hrun; [|done].
    simplify_eq. simpl in Hi'.
    apply restage_spec in Hrs as (pushed & -> & _ & _ & _ & Hk).
    destruct (graph_expandPipeline_grows (processors ex ++ new_processors)
                (world_after c) _ _ _ Hn0) as (n1 & Hn1 & (ds & bs & ->)).
    rewrite Hg in Hn1. simpl in Hn1.
    destruct (Hk i _ Hn1) as (n2 & Hn2 & _ & _ & Hout).
    assert (n2 = n') as -> by congruence.
    destruct (decide (i ∈ pushed)) as [Hin|Hnot].
    + right. apply elem_of_app. by left.
    + left. rewrite (Hout Hnot) in Hs. simpl in Hs. congruence.
  - simplify_eq. simpl in Hi'. left.
    destruct (decide (pid = i)) as [<-|Hne].
    + rewrite list_lookup_insert_eq in Hi' by (by eapply lookup_lt_Some).
      rewrite list_lookup_insert_eq in Hn0 by (by eapply lookup_lt_Some).
      simplify_eq. simpl in *. congruence.
    + rewrite list_lookup_insert_ne in Hi' by done. congruence.
Qed.

(** A node that is [Preparing] when a round hands over to the next was so
    before and has not been prepared in the round, or is on the stack of
    nodes to prepare. *)
Lemma round_next_staged (ex : PipelineExecutor W) wk ex' wk' :
  round ex wk = Next ex' wk' →
  ∀ i n n', nodes ex !! i = Some n → nodes ex' !! i = Some n' →
    status n' = ExecStatus.Preparing →
    (status n = ExecStatus.Preparing ∧ head (updated_processors wk) ≠ Some i)
    ∨ i ∈ updated_processors wk'.
Proof.
  intros Hround i n n' Hi Hi' Hs.
  destruct (updated_processors wk) as [|pid rest] eqn:Hp.
  - (* a round for an edge *)
    unfold round in Hround. rewrite Hp in Hround. unfold edge_round in Hround.
    destruct (updated_edges wk) as [|p es]; [done|].
    destruct (lookup_edge (nodes ex) p) as [e|]; [|done].
    destruct (nodes ex !! to e) as [node|] eqn:Hto; [|done].
    case_decide as Hfin.
    + case_decide as Hidle.
      * simplify_eq. simpl in *. destruct (decide (to e = i)) as [<-|Hne].
        -- right. by left.
        -- left. rewrite list_lookup_insert_ne in Hi' by done.
           split; [congruence|done].
      * left. split; [|done].
        destruct (returned (onUpdatePorts _ _)); [|done]. simplify_eq. simpl in Hi'.
        destruct (decide (to e = i)) as [<-|Hne].
        -- rewrite list_lookup_insert_eq in Hi' by (by eapply lookup_lt_Some).
           simplify_eq. by destruct (backward e).
        -- rewrite list_lookup_insert_ne in Hi' by done. congruence.
    + simplify_eq. left. split; [congruence|done].
  - (* a round for a node *)
    destruct (nodes ex !! pid) as [node|] eqn:Hn.
    2: { unfold round, node_round in Hround. by rewrite Hp, Hn in Hround. }
    destruct (returned (prepare (processor node) (updated_input_ports node)
                          (updated_output_ports node) (world ex))) as [st|e] eqn:Hret.
    2: { destruct (round_prepare_threw ex wk pid rest node e Hp Hn Hret)
           as (? & ? & Hr & _). congruence. }
    destruct (decide (st = IProcessor.ExpandPipeline)) as [->|Hst].
    + destruct (round_prepare_expand ex wk pid rest node Hp Hn Hret)
        as (node1 & Hs1 & _ & _ & _ & _ & Hr).
      rewrite Hr in Hround.
      destruct (expandPipeline _ _ _) as [[[[] stack'] ex1]|] eqn:Hexp; [|done..].
      simplify_eq. simpl.
      destruct (decide (pid = i)) as [<-|Hne]; [right; by left|].
      destruct (expandPipeline_staged _ _ _ _ _ _ Hexp i n n') as [?|?]; [|done|done| |].
      * simpl. by rewrite list_lookup_insert_ne.
      * left. split; [done|congruence].
      * right. by right.
    + destruct (round_prepare_returned ex wk pid rest node st Hp Hn Hret Hst)
        as (node' & w' & Hr & Hs' & _).
      rewrite Hr in Hround. simplify_eq. simpl in *.
      destruct (decide (pid = i)) as [<-|Hne].
      * rewrite list_lookup_insert_eq in Hi' by (by eapply lookup_lt_Some).
        simplify_eq. rewrite Hs' in Hs. by destruct st.
      * left. rewrite list_lookup_insert_ne in Hi' by done.
        split; [congruence|congruence].
Qed.

(** Induction along a walk that comes to its end with both stacks empty. *)
Lemma walk_ind_true (P : PipelineExecutor W → Walk → Prop) fuel : ∀ ex wk ex2 wk2,
  (∀ ex wk ex' wk', P ex wk → round ex wk = Next ex' wk' → P ex' wk') →
  P ex wk →
  walk fuel ex wk = Done (true, ex2, wk2) →
  P ex2 wk2 ∧ walk_over wk2.
Proof.
  induction fuel as [|fuel IH]; intros ex wk ex2 wk2 Hstep HP Hwalk.
  - rewrite walk_0 in Hwalk. case_decide; by simplify_eq.
  - rewrite walk_S in Hwalk. case_decide; [by simplify_eq|].
    destruct (round ex wk) as [ex' wk'|b' ex' wk'|e ex' wk'|] eqn:Hround; [| |done..].
    + eapply IH; [done| |done]. by eapply Hstep.
    + simplify_eq. exfalso. revert Hround. unfold round.
      destruct (updated_processors wk) as [|pid rest] eqn:Hp.
      * unfold edge_round. destruct (updated_edges wk); [done|].
        destruct (lookup_edge _ _); [|done]. destruct (nodes ex !! to _); [|done].
        repeat case_decide; try done. by destruct (returned _).
      * unfold node_round. rewrite Hp. destruct (nodes ex !! pid); [|done].
        destruct (call_prepare _ _) as [[[] ?] ?]; simpl; [|done].
        destruct (switch_status _ _ _) as [[? ?] []]; [|done].
        by destruct (expandPipeline _ _ _) as [[[[] ?] ?]|].
Qed.

(** When the walk comes to its end, no node it has staged is left
    staged. *)
Lemma walk_leaves_none_staged fuel (ex : PipelineExecutor W) pid q aq ex2 wk2 i n n' :
  walk fuel ex {| updated_edges := []; updated_processors := [pid];
                  queue := q; async_queue := aq |} = Done (true, ex2, wk2) →
  nodes ex !! i = Some n → nodes ex2 !! i = Some n' →
  status n' = ExecStatus.Preparing →
  i ≠ pid ∧ status n = ExecStatus.Preparing.
Proof.
  intros Hwalk Hi Hi' Hs.
  set (P := λ (ex' : PipelineExecutor W) (wk' : Walk),
              (∃ m, nodes ex' !! i = Some m)
              ∧ ∀ m, nodes ex' !! i = Some m → status m = ExecStatus.Preparing →
                     i ∈ updated_processors wk'
                     ∨ (i ≠ pid ∧ status n = ExecStatus.Preparing)).
  assert (Hstep : ∀ ex1 wk1 ex' wk', P ex1 wk1 → round ex1 wk1 = Next ex' wk' → P ex' wk').
  { intros ex1 wk1 ex' wk' [[m Hm] HP] Hround.
    pose proof (round_spec ex1 wk1) as Hpost. rewrite Hround in Hpost.
    split.
    { destruct (round_post_core _ _ _ _ i m Hpost Hm) as (m' & ? & _). by exists m'. }
    intros m' Hm' Hsm'.
    destruct (round_next_staged _ _ _ _ Hround i m m' Hm Hm' Hsm') as [[Hsm Hhead]|?];
      [|by left].
    destruct (HP m Hm Hsm) as [Hin|?]; [left|by right].
    assert (Htail : i ∈ tail (updated_processors wk1)).
    { destruct (updated_processors wk1) as [|p rest]; [by apply elem_of_nil in Hin|].
      simpl in *. apply elem_of_cons in Hin as [->|?]; done. }
    destruct Hpost as (_ & (pushed & _ & _ & Hstack) & _).
    destruct Hstack as [->|(p & ? & ? & _ & -> & _)].
    - apply elem_of_app. by right.
    - right. apply elem_of_app. by right. }
  assert (Hstart : P ex {| updated_edges := []; updated_processors := [pid];
                           queue := q; async_queue := aq |}).
  { split; [by exists n|]. intros m Hm Hsm. simpl.
    destruct (decide (i = pid)) as [->|Hne]; [left; by left|right].
    split; [done|congruence]. }
  destruct (walk_ind_true P fuel _ _ _ _ Hstep Hstart Hwalk) as [[_ Hend] [Hover _]].
  destruct (Hend n' Hi' Hs) as [Hin|?]; [|done].
  rewrite Hover in Hin. by apply elem_of_nil in Hin.
Qed.

(** X7.  When [prepareProcessor(pid, ...)] returns [true], it has
    prepared every node it has staged: a node of the graph it was given
    that is Preparing afterwards is not [pid] and was Preparing before the
    call. *)
Theorem prepareProcessor_leaves_none_staged fuel pid q aq (ex : PipelineExecutor W)
    ex2 q2 aq2 i n n' :
  prepareProcessor fuel pid q aq ex = Done (true, ex2, q2, aq2) →
  nodes ex !! i = Some n → nodes ex2 !! i = Some n' →
  status n' = ExecStatus.Preparing →
  i ≠ pid ∧ status n = ExecStatus.Preparing.
Proof.
  unfold prepareProcessor. intros Hrun.
  destruct (walk fuel ex _) as [[[b' ex'] wk']| | |] eqn:Hwalk; [|done..].
  simplify_eq. by eapply walk_leaves_none_staged.
Qed.

End Staging.

Section Control.
Context {W : Type} {procs : Processors W} {graph : ExecutingGraph W} {build : Build}
        {cancelling : Cancelling W}.

(** X8.  [addChildlessProcessorsToStack] reads [graph->nodes[proc]] for
    every [proc] below [processors.size()]: it stays within the node table
    exactly when the table has at least as many nodes as there are
    processors.  Nodes beyond [processors.size()] are never looked at: they
    are left as they are and are not pushed, childless or not. *)
Theorem addChildlessProcessorsToStack_in_bounds stack (ex : PipelineExecutor W) :
  (is_Some (addChildlessProcessorsToStack stack ex)
   ↔ length (processors ex) ≤ length (nodes ex))
  ∧ ∀ stack' ex' i,
      addChildlessProcessorsToStack stack ex = Some (stack', ex') →
      length (processors ex) ≤ i →
      nodes ex' !! i = nodes ex !! i ∧ (i ∈ stack' → i ∈ stack).
Proof.
  split.
  - unfold addChildlessProcessorsToStack. split.
    + intros [[stack' ex'] Hrun].
      destruct (addChildless_from _ _ _ _) as [r|] eqn:Hfrom; [|done].
      apply addChildless_from_Some in Hfrom as [->|?]; lia.
    + intros Hlen.
      destruct (addChildless_from_spec (length (processors ex)) 0 stack (nodes ex))
        as (ns' & -> & _); [lia|]. done.
  - intros stack' ex' i Hrun Hi. unfold addChildlessProcessorsToStack in Hrun.
    destruct (addChildless_from _ _ _ _) as [[s ns]|] eqn:Hfrom; [|done].
    simpl in Hrun. simplify_eq. simpl.
    pose proof Hfrom as Hlen. apply addChildless_from_Some in Hlen.
    destruct (addChildless_from_spec (length (processors ex)) 0 stack (nodes ex))
      as (ns' & Hspec & _ & Hns); [lia|].
    rewrite Hfrom in Hspec. simplify_eq. split.
    + rewrite Hns. destruct (nodes ex !! i) as [n|]; [|done]. simpl.
      unfold seeded. rewrite decide_False; [done|]. lia.
    + rewrite elem_of_app. intros [Hin|?]; [|done].
      rewrite rev_reverse, elem_of_reverse in Hin.
      apply list_elem_of_filter in Hin as [_ Hin]. apply elem_of_seq in Hin. lia.
Qed.

Lemma cancel_all_world ps : ∀ w, ∃ r w', cancel_all ps w = (r, w').
Proof. intros w. destruct (cancel_all ps w) as [r w']. by exists r, w'. Qed.

Lemma cancel_frame (ex : PipelineExecutor W) :
  ∃ w, (cancel ex).2 = set_world w (finish (set_cancelled true ex)).
Proof.
  unfold cancel. destruct (cancel_all _ _) as [r w]. by exists w.
Qed.

Lemma query_killed_frame (ex ex' : PipelineExecutor W) :
  process_list_element ex' = process_list_element ex →
  query_killed ex' = query_killed ex.
Proof. unfold query_killed. by intros ->. Qed.

(** X9.  After [cancel()], whether or not a processor's [cancel()] threw,
    the executor is cancelled and its tasks are finished, the graph and
    the processors list are untouched, and [finalizeExecution] never
    reports a stuck pipeline, whatever state the nodes are in: it throws
    QUERY_WAS_CANCELLED if the query was killed and returns otherwise,
    without dumping the pipeline. *)
Theorem finalizeExecution_after_cancel (ex : PipelineExecutor W) :
  cancelled (cancel ex).2 = true
  ∧ finished (tasks (cancel ex).2) = true
  ∧ nodes (cancel ex).2 = nodes ex
  ∧ processors (cancel ex).2 = processors ex
  ∧ finalizeExecution (cancel ex).2
    = (if query_killed ex
       then Threw {| code := QUERY_WAS_CANCELLED; message := "Query was cancelled" |}
       else Returned (),
       (cancel ex).2).
Proof.
  destruct (cancel_frame ex) as [w ->]. split_and!; [done..|].
  unfold finalizeExecution, query_killed. simpl.
  by destruct (process_list_element ex) as [[[]]|].
Qed.

(** X10.  Cancellation does not hide a failure.  When [executeImpl] has
    returned on a cancelled executor, [execute] still throws the exception
    of the first node that holds one, else the first thread exception;
    only without any does it come to [finalizeExecution], which then
    throws QUERY_WAS_CANCELLED for a killed query and returns otherwise. *)
Theorem execute_after_cancel (ex : PipelineExecutor W) :
  (execute (Returned ()) (cancel ex).2).1
  = match first_node_exception (nodes ex) with
    | Some e => Threw e
    | None =>
        match rethrowFirstThreadException (thread_exceptions (tasks ex)) with
        | Some e => Threw e
        | None =>
            if query_killed ex
            then Threw {| code := QUERY_WAS_CANCELLED; message := "Query was cancelled" |}
            else Returned ()
        end
    end.
Proof.
  destruct (cancel_frame ex) as [w ->]. unfold execute. simpl.
  destruct (first_node_exception (nodes ex)); [done|].
  destruct (rethrowFirstThreadException _); [done|].
  unfold finalizeExecution, query_killed. simpl.
  by destruct (process_list_element ex) as [[[]]|].
Qed.

Lemma describe_nodes_covered ns : ∀ (d1 d2 : gmap ProcPtr string) p,
  p ∈ processor <$> ns → describe_nodes ns d1 !! p = describe_nodes ns d2 !! p.
Proof.
  induction ns as [|n ns IH]; intros d1 d2 p Hp; [by apply elem_of_nil in Hp|].
  rewrite !describe_nodes_cons.
  destruct (decide (p ∈ processor <$> ns)) as [Hin|Hnot]; [by apply IH|].
  rewrite !describe_nodes_other by done.
  rewrite fmap_cons in Hp. apply elem_of_cons in Hp as [->|?]; [|done].
  by rewrite !lookup_insert_eq.
Qed.

Lemma describe_nodes_idemp ns (d : gmap ProcPtr string) :
  describe_nodes ns (describe_nodes ns d) = describe_nodes ns d.
Proof.
  apply map_eq. intros p.
  destruct (decide (p ∈ processor <$> ns)) as [Hin|Hnot].
  - by apply describe_nodes_covered.
  - by rewrite describe_nodes_other.
Qed.

(** X11.  [dumpPipeline] is idempotent: a second dump returns the same
    text as the first and leaves the executor as the first left it, also
    when several nodes share a processor. *)
Theorem dumpPipeline_idempotent (ex : PipelineExecutor W) :
  dumpPipeline (dumpPipeline ex).2 = dumpPipeline ex.
Proof.
  unfold dumpPipeline. simpl. rewrite describe_nodes_idemp. done.
Qed.

(** X12.  When [expandPipeline] returns [true], the processors list has
    only been appended to and there is a node for every processor; what it
    has pushed on the stack sits above what the stack held, without
    duplicates, and every node pushed is Preparing; a node of the old graph
    is pushed only if it was Idle, and one that is not pushed keeps its
    status; every node of the old graph keeps its exception slot and its
    [last_processor_status]. *)
Theorem expandPipeline_stages_idle_nodes stack pid (ex : PipelineExecutor W) stack' ex' :
  expandPipeline stack pid ex = Some (true, stack', ex') →
  processors ex `prefix_of` processors ex'
  ∧ length (nodes ex') = length (processors ex')
  ∧ ∃ pushed,
      stack' = pushed ++ stack
      ∧ NoDup pushed
      ∧ (∀ j, j ∈ pushed → node_status ex' j = Some ExecStatus.Preparing)
      ∧ ∀ i n, nodes ex !! i = Some n →
          ∃ n', nodes ex' !! i = Some n'
                ∧ exception n' = exception n
                ∧ last_processor_status n' = last_processor_status n
                ∧ (i ∈ pushed → status n = ExecStatus.Idle)
                ∧ (i ∉ pushed → status n' = status n).
Proof.
  unfold expandPipeline. intros Hrun.
  destruct (nodes ex !! pid) as [cur|] eqn:Hcur; simpl in Hrun; [|done].
  set (c := proc_expandPipeline (processor cur) (world ex)) in *.
  destruct (returned c) as [new_processors|e]; [|done].
  case_decide as Hlen; [|done].
  pose proof (graph_expandPipeline_nodes (processors ex ++ new_processors) (world_after c)
                (<[pid := absorb c cur]> (nodes ex)) Hlen) as Hnodes.
  pose proof (graph_expandPipeline_grows (processors ex ++ new_processors) (world_after c)
                (<[pid := absorb c cur]> (nodes ex))) as Hgrows.
  destruct (graph_expandPipeline _ _ _) as [us ns1] eqn:Hg.
  destruct (restage us _ _ stack ns1) as [[stack2 ns2]|] eqn:Hrs; simpl in Hrun; [|done].
  simplify_eq. simpl in *.
  apply restage_spec in Hrs as (pushed & -> & Hnd & Hl & Hlt & Hk).
  split; [by apply prefix_app_r|]. split; [congruence|].
  exists pushed. split_and!; [done..| |].
  - intros j Hj. specialize (Hlt j Hj).
    apply lookup_lt_is_Some_2 in Hlt as [n1 Hn1].
    destruct (Hk j n1 Hn1) as (n2 & Hn2 & _ & Hin & _).
    destruct (Hin Hj) as [_ Hprep].
    unfold node_status. simpl. rewrite Hn2. simpl. by rewrite Hprep.
  - intros i n Hi.
    assert (∃ n0, <[pid := absorb c cur]> (nodes ex) !! i = Some n0
                  ∧ status n0 = status n ∧ exception n0 = exception n
                  ∧ last_processor_status n0 = last_processor_status n)
      as (n0 & Hn0 & Hs0 & He0 & Hl0).
    { destruct (decide (pid = i)) as [<-|Hne].
      - rewrite list_lookup_insert_eq by (by eapply lookup_lt_Some).
        eexists. split; [done|]. assert (n = cur) as -> by congruence. done.
      - rewrite list_lookup_insert_ne by done. by exists n. }
    destruct (Hgrows i n0 Hn0) as (n1 & Hn1 & (ds & bs & ->)).
    destruct (Hk i _ Hn1) as (n2 & Hn2 & Hr & Hin & Hout).
    destruct Hr as (_ & _ & _ & _ & Hl2 & He2). simpl in *.
    exists n2. split_and!; [done|congruence|congruence| |].
    + intros Hp. destruct (Hin Hp) as [? _]. congruence.
    + intros Hp. rewrite (Hout Hp). done.
Qed.

End Control.

Section SteppingFacts.
Context {W C : Type} {procs : Processors W} {graph : ExecutingGraph W}
        {build : Build} {cancelling : Cancelling W} {scheduler : Scheduler W C}.

Lemma run_tasks_yielded fuel bound yield_flag : ∀ (c : C) (ex : PipelineExecutor W) c' ex',
  run_tasks fuel bound yield_flag c ex = Done (true, c', ex') →
  yield_requested yield_flag ex' = true.
Proof.
  induction fuel as [|fuel IH]; intros c ex c' ex' Hrun; simpl in Hrun.
  - by destruct (hasTask c).
  - destruct (hasTask c); [|done].
    destruct (task_round bound yield_flag c ex) as [[[[brk y] c1] ex1]| | |] eqn:Hround;
      [|done..].
    destruct brk; [done|]. destruct y.
    + simplify_eq. unfold task_round in Hround.
      destruct (finished (tasks ex)); [done|].
      destruct (executeTask c ex) as [[[ok c2] ex2]|]; [|done].
      destruct (if ok then _ else _) as [[] ex3]; [|done].
      destruct (finished (tasks ex3)); [done|].
      destruct (prepareProcessor _ _ _ _ _) as [[[[ok' ex4] q] aq]| | |]; [|done..].
      destruct (pushTasks _ _ _ _) as [[c5 ex5]|]; [|done].
      by simplify_eq.
    + by eapply IH.
Qed.

Lemma step_loop_ends fuel bound yield_flag : ∀ (c : C) (ex : PipelineExecutor W) c' ex',
  step_loop fuel bound yield_flag c ex = Done (c', ex') →
  finished (tasks ex') = true ∨ yield_requested yield_flag ex' = true.
Proof.
  induction fuel as [|fuel IH]; intros c ex c' ex' Hrun; simpl in Hrun.
  - destruct (finished (tasks ex)) eqn:Hf; [|done]. simplify_eq. by left.
  - destruct (finished (tasks ex)) eqn:Hf; [simplify_eq; by left|].
    destruct (find_task bound c ex) as [[c1 ex1]| | |]; [|done..].
    destruct (run_tasks bound bound yield_flag c1 ex1) as [[[y c2] ex2]| | |] eqn:Htasks;
      [|done..].
    destruct y.
    + simplify_eq. right. by eapply run_tasks_yielded.
    + by eapply IH.
Qed.

Lemma executeStepImpl_ends fuel yield_flag (c : C) (ex : PipelineExecutor W) c' ex' :
  executeStepImpl fuel yield_flag c ex = Done (c', ex') →
  finished (tasks ex') = true ∨ yield_requested yield_flag ex' = true.
Proof.
  unfold executeStepImpl. intros Hrun.
  destruct (step_loop fuel fuel yield_flag c ex) as [[c1 ex1]| | |] eqn:Hloop; [|done..].
  simplify_eq. by eapply step_loop_ends.
Qed.

Lemma finalizeExecution_returned (ex : PipelineExecutor W) u ex' :
  finalizeExecution ex = (Returned u, ex') →
  ex' = ex ∧ query_killed ex = false
  ∧ (cancelled ex = true ∨ ∀ node, node ∈ nodes ex → status node = ExecStatus.Finished).
Proof.
  unfold finalizeExecution, query_killed. intros Hrun.
  destruct (match process_list_element ex with Some _ => _ | None => _ end); [done|].
  destruct (cancelled ex); [simplify_eq; split_and!; [done|done|by left]|].
  destruct (all_processors_finished (nodes ex)) eqn:Hall; simpl in Hrun.
  - simplify_eq. split_and!; [done|done|right]. by apply all_processors_finished_true.
  - by destruct (dumpPipeline ex).
Qed.

(** X13.  [executeStep] returns [true] only if it was given a yield flag
    and the flag reads true when it returns.  Without a yield flag it
    never returns [true]: it runs until the tasks are finished and then
    returns [false] or throws. *)
Theorem executeStep_true_means_yield fuel yield_flag (c : C) (ex : PipelineExecutor W)
    c' ex' :
  executeStep fuel yield_flag c ex = Done (Returned true, c', ex') →
  ∃ flag, yield_flag = Some flag ∧ flag (world ex') = true.
Proof.
  assert (Hflag : ∀ ex0 : PipelineExecutor W, yield_requested yield_flag ex0 = true →
            ∃ flag, yield_flag = Some flag ∧ flag (world ex0) = true).
  { intros ex0. unfold yield_requested. destruct yield_flag as [flag|]; [|done].
    intros ?. by exists flag. }
  unfold executeStep. intros Hrun.
  destruct (first_step fuel yield_flag c ex) as [[[[r|] c1] ex1]| | |] eqn:Hfirst; [| |done..].
  - simplify_eq. unfold first_step in Hfirst.
    destruct (is_execution_initialized ex); [done|].
    destruct (initializeExecution fuel 1 ex) as [[[[]|e] ex2]| | |]; [| |done..].
    + destruct (yield_requested yield_flag ex2) eqn:Hy; [|done]. simplify_eq.
      by apply Hflag.
    + done.
  - destruct (executeStepImpl fuel yield_flag c1 ex1) as [[c2 ex2]| | |] eqn:Himpl; [|done..].
    destruct (finished (tasks ex2)) eqn:Hf; simpl in Hrun.
    + destruct (first_node_exception (nodes ex2)); [done|].
      by destruct (finalizeExecution ex2) as [[] ?].
    + simplify_eq. apply executeStepImpl_ends in Himpl as [?|?]; [congruence|].
      by apply Hflag.
Qed.

(** X14.  When [executeStep] returns [false] the run is over and clean:
    the tasks are finished, no node holds an exception, the query has not
    been killed, and the executor has been cancelled or every node is
    Finished. *)
Theorem executeStep_false_means_done fuel yield_flag (c : C) (ex : PipelineExecutor W)
    c' ex' :
  executeStep fuel yield_flag c ex = Done (Returned false, c', ex') →
  finished (tasks ex') = true
  ∧ first_node_exception (nodes ex') = None
  ∧ query_killed ex' = false
  ∧ (cancelled ex' = true ∨ ∀ node, node ∈ nodes ex' → status node = ExecStatus.Finished).
Proof.
  unfold executeStep. intros Hrun.
  destruct (first_step fuel yield_flag c ex) as [[[[r|] c1] ex1]| | |] eqn:Hfirst; [| |done..].
  - simplify_eq. unfold first_step in Hfirst.
    destruct (is_execution_initialized ex); [done|].
    destruct (initializeExecution fuel 1 ex) as [[[[]|e] ex2]| | |]; [| |done..].
    + by destruct (yield_requested yield_flag ex2).
    + done.
  - destruct (executeStepImpl fuel yield_flag c1 ex1) as [[c2 ex2]| | |] eqn:Himpl; [|done..].
    destruct (finished (tasks ex2)) eqn:Hf; simpl in Hrun; [|done].
    destruct (first_node_exception (nodes ex2)) eqn:Hexc; [done|].
    destruct (finalizeExecution ex2) as [[u|e] ex3] eqn:Hfin; [|done].
    simplify_eq. apply finalizeExecution_returned in Hfin as (-> & Hk & Hall).
    done.
Qed.

Lemma step_loop_finished fuel bound yield_flag (c : C) (ex : PipelineExecutor W) :
  finished (tasks ex) = true → step_loop fuel bound yield_flag c ex = Done (c, ex).
Proof. intros Hf. destruct fuel; simpl; by rewrite Hf. Qed.

Lemma step_loop_S fuel bound yield_flag (c : C) (ex : PipelineExecutor W) :
  step_loop (S fuel) bound yield_flag c ex
  = if finished (tasks ex) then Done (c, ex)
    else match find_task bound c ex with
         | Done (c, ex) =>
             match run_tasks bound bound yield_flag c ex with
             | Done (true, c, ex) => Done (c, ex)
             | Done (false, c, ex) => step_loop fuel bound yield_flag c ex
             | Uncaught e => Uncaught e
             | Fault => Fault
             | OutOfFuel => OutOfFuel
             end
         | Uncaught e => Uncaught e
         | Fault => Fault
         | OutOfFuel => OutOfFuel
         end.
Proof. done. Qed.

Lemma run_tasks_S fuel bound yield_flag (c : C) (ex : PipelineExecutor W) :
  run_tasks (S fuel) bound yield_flag c ex
  = if hasTask c then
      match task_round bound yield_flag c ex with
      | Done (true, _, c, ex) => Done (false, c, ex)
      | Done (false, true, c, ex) => Done (true, c, ex)
      | Done (false, false, c, ex) => run_tasks fuel bound yield_flag c ex
      | Uncaught e => Uncaught e
      | Fault => Fault
      | OutOfFuel => OutOfFuel
      end
    else Done (false, c, ex).
Proof. done. Qed.

(** X15.  On an initialized executor whose tasks are finished,
    [executeStep] takes no task and prepares nothing, whatever the bound on
    its loops: it throws the exception of the first node that holds one;
    otherwise it ends as [finalizeExecution] does, and returns [false]
    when that returns.  The exceptions of the threads are not looked
    at. *)
Theorem executeStep_when_finished fuel yield_flag (c : C) (ex : PipelineExecutor W) :
  is_execution_initialized ex = true →
  finished (tasks ex) = true →
  executeStep fuel yield_flag c ex
  = Done (match first_node_exception (nodes ex) with
          | Some e => Threw e
          | None =>
              match (finalizeExecution ex).1 with
              | Returned _ => Returned false
              | Threw e => Threw e
              end
          end,
          if NDEBUG then c else add_total_time 0 c,
          match first_node_exception (nodes ex) with
          | Some _ => ex
          | None => (finalizeExecution ex).2
          end).
Proof.
  intros Hinit Hf. unfold executeStep, first_step, executeStepImpl.
  rewrite Hinit, step_loop_finished by done. rewrite Hf, N.sub_diag. simpl.
  destruct (first_node_exception (nodes ex)); [done|].
  by destruct (finalizeExecution ex) as [[] ?].
Qed.

(** X16.  When the task of the thread fails ([executeTask] returns
    [false]), [executeStepImpl] cancels the executor and returns at once:
    the node is not prepared, nothing is pushed, and the executor it leaves
    is the one [cancel()] left.  An exception of [cancel()] leaves
    [executeStepImpl]. *)
Theorem executeStepImpl_failed_task_cancels fuel yield_flag (c : C)
    (ex : PipelineExecutor W) c1 ex1 :
  finished (tasks ex) = false →
  hasTask c = true →
  executeTask c ex = Returned (false, c1, ex1) →
  executeStepImpl (S fuel) yield_flag c ex
  = match cancel ex1 with
    | (Returned _, ex2) =>
        Done (if NDEBUG then c1
              else add_total_time (clock (world ex2) - clock (world ex))%N c1, ex2)
    | (Threw e, _) => Uncaught e
    end.
Proof.
  intros Hf Htask Hexec.
  assert (Hfind : find_task (S fuel) c ex = Done (c, ex)).
  { simpl. by rewrite Htask, andb_false_r. }
  assert (Hround : task_round (S fuel) yield_flag c ex
                   = match cancel ex1 with
                     | (Returned _, ex2) => Done (true, false, c1, ex2)
                     | (Threw e, _) => Uncaught e
                     end).
  { unfold task_round. rewrite Hf, Hexec.
    destruct (cancel_frame ex1) as [w Hframe].
    destruct (cancel ex1) as [[u|e] ex2]; [|done].
    simpl in Hframe. by subst ex2. }
  unfold executeStepImpl.
  rewrite step_loop_S, Hf, Hfind, run_tasks_S, Htask, Hround.
  destruct (cancel_frame ex1) as [w Hframe].
  destruct (cancel ex1) as [[u|e] ex2]; [|done].
  simpl in Hframe. subst ex2. by rewrite step_loop_finished.
Qed.

Lemma executeSingleThread_returns_finished_aux fuel (c : C) (ex : PipelineExecutor W) c' ex' :
  executeSingleThread fuel c ex = Done (c', ex') →
  finished (tasks ex') = true.
Proof.
  unfold executeSingleThread. intros Hrun.
  apply executeStepImpl_ends in Hrun as [?|?]; done.
Qed.

(** X17.  [executeSingleThread] returns only when the tasks are
    finished. *)
Theorem executeSingleThread_returns_finished fuel (c : C) (ex : PipelineExecutor W) c' ex' :
  executeSingleThread fuel c ex = Done (c', ex') →
  finished (tasks ex') = true.
Proof. apply executeSingleThread_returns_finished_aux. Qed.

(** X18.  [execute] with one thread returns normally only when the run
    is over and clean: the tasks are finished, no node and no thread holds
    an exception, the query has not been killed, and the executor has been
    cancelled or every node is Finished. *)
Theorem execute_one_thread_returns_complete fuel (ex : PipelineExecutor W) ex' :
  execute_one_thread (C := C) fuel ex = Done (Returned (), ex') →
  finished (tasks ex') = true
  ∧ first_node_exception (nodes ex') = None
  ∧ rethrowFirstThreadException (thread_exceptions (tasks ex')) = None
  ∧ query_killed ex' = false
  ∧ (cancelled ex' = true ∨ ∀ node, node ∈ nodes ex' → status node = ExecStatus.Finished).
Proof.
  unfold execute_one_thread, executeImpl_one_thread. intros Hrun.
  destruct (initializeExecution fuel 1 ex) as [[[[]|e] ex1]| | |]; [| |done..].
  - destruct (executeSingleThread fuel new_context ex1) as [[c2 ex2]| | |] eqn:Hthread;
      [|done..].
    apply executeSingleThread_returns_finished_aux in Hthread.
    injection Hrun as Hexec. unfold execute in Hexec.
    destruct (first_node_exception (nodes ex2)) eqn:Hexc.
    { by destruct NDEBUG, log_trace_enabled. }
    destruct (rethrowFirstThreadException _) eqn:Hthr.
    { by destruct NDEBUG, log_trace_enabled. }
    apply finalizeExecution_returned in Hexec as (-> & Hk & Hall). done.
  - injection Hrun as Hexec. unfold execute in Hexec.
    by destruct NDEBUG, log_trace_enabled.
Qed.

End SteppingFacts.

(** ** The theorems at work on concrete pipelines *)

(** Closes a goal by running the model. *)
Ltac run := vm_compute; reflexivity.

#[local] Existing Instance release_build.

(** Seeding [early_async]: node 1 is childless, node 0 is not. *)
Lemma addChildlessProcessorsToStack_seeds_witness :
  length (processors early_async) = length (nodes early_async)
  ∧ ∃ ex', addChildlessProcessorsToStack [] early_async = Some ([1], ex')
           ∧ node_status ex' 0 = Some ExecStatus.Idle
           ∧ node_status ex' 1 = Some ExecStatus.Preparing.
Proof.
  split; [reflexivity|].
  destruct (addChildlessProcessorsToStack_seeds early_async [] eq_refl)
    as (ex' & Hrun & _ & Hchildless & Hother & _).
  exists ex'. split; [exact Hrun|]. unfold node_status. split.
  - destruct (Hother 0 _ eq_refl ltac:(discriminate)) as [-> _]. reflexivity.
  - rewrite (Hchildless 1 _ eq_refl eq_refl). reflexivity.
Defined.

(** Node 1 of [chain] answers PortFull; the node of [expanding] asks for
    an expansion by two processors. *)
Lemma prepare_status_transition_witness :
  (∃ ex' wk',
      round chain (walk_from 1) = Next ex' wk'
      ∧ node_status ex' 1 = Some ExecStatus.Idle)
  ∧ (∃ ex' wk' restaged,
       round expanding (walk_from 0) = Next ex' wk'
       ∧ node_status ex' 0 = Some ExecStatus.Preparing
       ∧ processors ex' = [0; 7; 8]
       ∧ length (nodes ex') = 3
       ∧ updated_processors wk' = 0 :: restaged ++ []).
Proof.
  split.
  - destruct (prepare_status_transition (procs := scripted_processors)
                (build := release_build) chain (walk_from 1) 1 [] _ IProcessor.PortFull
                eq_refl eq_refl ltac:(run)) as (ex' & wk' & Hround & Hstatus & _).
    exists ex', wk'. split; [exact Hround|exact Hstatus].
  - destruct (prepare_status_transition (procs := scripted_processors)
                (build := release_build) expanding (walk_from 0) 0 [] _
                IProcessor.ExpandPipeline eq_refl eq_refl ltac:(run) [7; 8] ltac:(run)
                ltac:(vm_compute; lia))
      as (ex' & wk' & restaged & Hround & _ & Hstill & Hps & Hfull & _ & Hstack & _).
    exists ex', wk', restaged.
    split; [exact Hround|]. split; [exact (Hstill eq_refl)|]. split; [exact Hps|].
    split; [|exact Hstack]. rewrite Hfull, Hps. reflexivity.
Defined.

(** Node 1 of [chain] has a dirty input port and a dirty output port. *)
Lemma input_notifications_before_output_witness :
  ∃ ex' wk',
    round chain (walk_from 1) = Next ex' wk'
    ∧ updated_edges wk' = [ptr_back 1 0; ptr_direct 1 0]
    ∧ [ptr_back 1 0; ptr_direct 1 0] `sublist_of` deliveries 10 ex' wk'.
Proof.
  destruct (input_notifications_before_output (procs := scripted_processors)
              (build := release_build) chain (walk_from 1) 1 [] _
              IProcessor.PortFull eq_refl eq_refl ltac:(run) ltac:(discriminate))
    as (ex' & wk' & node' & ins & outs & Hround & -> & -> & Hedges & _ & _ & _ & _ & Hall).
  exists ex', wk'. split; [exact Hround|]. split; [exact Hedges|].
  assert (Hcomputed : round chain (walk_from 1) = Next ex' wk') by exact Hround.
  vm_compute in Hcomputed. injection Hcomputed as <- <-.
  refine (Hall 10 _ _ _). run.
Defined.


(** [failing_twice] after a first initialization: the slot of node 0 holds
    the first exception, and the next failing round stores the second. *)
Lemma exception_slot_assigned_on_failure_witness :
  node_exception (initialized failing_twice) 0 = Some (Some (boom 1))
  ∧ fails_with (initialized failing_twice) 0 (boom 2)
  ∧ ∃ ex' wk',
      round (initialized failing_twice) (walk_from 0) = Return false ex' wk'
      ∧ node_exception ex' 0 = Some (Some (boom 2))
      ∧ slots_kept (Some 0) (initialized failing_twice) ex'.
Proof.
  assert (Hfails : fails_with (initialized failing_twice) 0 (boom 2)).
  { eexists. split; [run|]. left. run. }
  split; [run|]. split; [exact Hfails|].
  exact (proj1 (exception_slot_assigned_on_failure (procs := scripted_processors)
                  (build := release_build) (initialized failing_twice))
           (walk_from 0) 0 [] (boom 2) eq_refl Hfails).
Defined.

(** Exception slots are not sticky: initialized twice, the node of
    [failing_twice] first holds the exception of its first failure and
    then that of its second. *)
Lemma exception_slot_overwritten :
  initializeExecution 5 1 failing_twice = Done (Returned (), initialized failing_twice)
  ∧ node_exception (initialized failing_twice) 0 = Some (Some (boom 1))
  ∧ initializeExecution 5 1 (initialized failing_twice)
    = Done (Returned (), initialized (initialized failing_twice))
  ∧ node_exception (initialized (initialized failing_twice)) 0 = Some (Some (boom 2))
  ∧ ¬ exception_slots_sticky (procs := scripted_processors).
Proof.
  split; [run|]. split; [run|]. split; [run|]. split; [run|].
  intros Hsticky.
  pose proof (Hsticky 5 1 (initialized failing_twice) (Returned ())
                (initialized (initialized failing_twice)) 0 (boom 1)
                ltac:(run) ltac:(run)) as Hkept.
  vm_compute in Hkept. discriminate Hkept.
Qed.


(** The expansion of [failing_expansion] throws. *)
Lemma expandPipeline_throw_leaves_graph_witness :
  nodes failing_expansion !! 0 = Some (set_status ExecStatus.Preparing (fresh_node 0))
  ∧ ∃ ex' cur',
      expandPipeline [5] 0 failing_expansion = Some (false, [5], ex')
      ∧ processors ex' = processors failing_expansion
      ∧ nodes ex' !! 0 = Some cur'
      ∧ exception cur' = Some (boom 3)
      ∧ status cur' = ExecStatus.Preparing.
Proof.
  split; [reflexivity|].
  destruct (expandPipeline_throw_leaves_graph (procs := scripted_processors) [5] 0
              failing_expansion _ (boom 3) eq_refl ltac:(run))
    as (ex' & cur' & Hrun & Hps & _ & _ & Hcur & He & Hs & _).
  exists ex', cur'. split; [exact Hrun|]. split; [exact Hps|]. split; [exact Hcur|].
  split; [exact He|exact Hs].
Defined.

(** Dumping [after_run] describes processor 1 by its 12 jobs. *)
Lemma dumpPipeline_overwrites_descriptions_witness :
  NoDup (processor <$> nodes after_run)
  ∧ descriptions (dumpPipeline after_run).2 !! 1 = Some "(12 jobs)"
  ∧ (dumpPipeline after_run).2 ≠ after_run.
Proof.
  assert (Hnd : NoDup (processor <$> nodes after_run)).
  { apply (bool_decide_unpack _). vm_compute. exact I. }
  split; [exact Hnd|].
  destruct (dumpPipeline_overwrites_descriptions (procs := scripted_processors)
              (build := release_build) after_run Hnd) as (Hall & _ & _ & Hchanged).
  split.
  - destruct (Hall (default (fresh_node 0) (nodes after_run !! 1))) as [Hd _].
    { vm_compute. right. left. }
    exact Hd.
  - apply Hchanged. exists (default (fresh_node 0) (nodes after_run !! 1)). split.
    + vm_compute. right. left.
    + vm_compute. discriminate.
Defined.

(** [after_run] is stuck: node 1 is not finished. *)
Lemma finalizeExecution_pipeline_stuck_witness :
  (finalizeExecution after_run).1
  = Threw {| code := LOGICAL_ERROR;
             message := "Pipeline stuck. Current state:" +:+ newline
                        +:+ (dumpPipeline after_run).1 |}
  ∧ (dumpPipeline after_run).1 = "(3 jobs);(12 jobs)".
Proof.
  split; [|run].
  apply (proj1 (finalizeExecution_pipeline_stuck (procs := scripted_processors)
                  (build := release_build) after_run)); [reflexivity..|].
  exists (default (fresh_node 0) (nodes after_run !! 1)). split.
  - vm_compute. right. left.
  - vm_compute. discriminate.
Defined.


(** The edge from node 1 to node 2 of [chain] is where it was after node 1
    has been prepared. *)
Lemma prepareProcessor_keeps_graph_witness :
  prepareProcessor 10 1 [] [] chain = Done (true, after_prepare 1 chain, [0], [2])
  ∧ lookup_edge (nodes (after_prepare 1 chain)) (ptr_direct 1 0) = Some (direct_edge 2 0).
Proof.
  split; [run|].
  apply (proj2 (prepareProcessor_keeps_graph (procs := scripted_processors)
                  (build := release_build) 10 1 [] [] chain true (after_prepare 1 chain)
                  [0] [2] ltac:(run))).
  run.
Defined.

(** The sink of the row is executing while node 1 is prepared: it is
    notified and left alone. *)
Lemma prepareProcessor_leaves_busy_nodes_witness :
  ∃ n', nodes (after_prepare 1 (chain_with_sink ExecStatus.Executing)) !! 2 = Some n'
        ∧ status n' = ExecStatus.Executing
        ∧ last_processor_status n' = IProcessor.NeedData
        ∧ exception n' = None.
Proof.
  exact (prepareProcessor_leaves_busy_nodes (procs := scripted_processors)
           (build := release_build) 10 1 [] [] (chain_with_sink ExecStatus.Executing)
           true (after_prepare 1 (chain_with_sink ExecStatus.Executing)) [0] [] 2
           (set_status ExecStatus.Executing (set_edges [] [back_edge 1 0] (fresh_node 2)))
           ltac:(run) ltac:(run) ltac:(lia) ltac:(discriminate)).
Defined.


(** Preparing node 1 of [chain] hands out the source and the sink, once
    each. *)
Lemma prepareProcessor_hands_out_once_witness :
  ∃ ready async,
    [0] = [] ++ ready ∧ [2] = [] ++ async
    ∧ NoDup (ready ++ async)
    ∧ (∀ j, j ∈ ready →
         ∃ n, nodes (after_prepare 1 chain) !! j = Some n
              ∧ status n = ExecStatus.Executing
              ∧ last_processor_status n = IProcessor.Ready)
    ∧ (∀ j, j ∈ async →
         ∃ n, nodes (after_prepare 1 chain) !! j = Some n
              ∧ status n = ExecStatus.Executing
              ∧ last_processor_status n = IProcessor.Async).
Proof.
  eapply (prepareProcessor_hands_out_once (procs := scripted_processors)
            (build := release_build) 10 1 [] [] chain true (after_prepare 1 chain) [0] [2]);
    [run|discriminate|run].
Defined.

(** With its sink already staged, the row is left with the sink staged
    and nothing else. *)
Lemma prepareProcessor_leaves_none_staged_witness :
  2 ≠ 1
  ∧ status (set_status ExecStatus.Preparing (set_edges [] [back_edge 1 0] (fresh_node 2)))
    = ExecStatus.Preparing.
Proof.
  eapply (prepareProcessor_leaves_none_staged (procs := scripted_processors)
            (build := release_build) 10 1 [] [] (chain_with_sink ExecStatus.Preparing)
            (after_prepare 1 (chain_with_sink ExecStatus.Preparing)) [0] [] 2
            (set_status ExecStatus.Preparing (set_edges [] [back_edge 1 0] (fresh_node 2))));
    [run|run|run|run].
Defined.

(** [source_and_sink] is initialized with its source scheduled once. *)
Lemma initializeExecution_schedules_once_witness :
  ∃ ready,
    task_queue (tasks (initialized source_and_sink))
    = task_queue (tasks source_and_sink) ++ ready
    ∧ NoDup ready
    ∧ ∀ j, j ∈ ready →
        ∃ n, nodes (initialized source_and_sink) !! j = Some n
             ∧ status n = ExecStatus.Executing
             ∧ last_processor_status n = IProcessor.Ready.
Proof.
  exact (initializeExecution_schedules_once (procs := scripted_processors)
           (build := release_build) 5 1 source_and_sink (initialized source_and_sink)
           ltac:(run)).
Defined.

(** The node of [failing_twice] is seeded and its [prepare] throws. *)
Lemma initializeExecution_prepares_every_seed_witness :
  (∃ st, (0, st) ∈ initialize_trace 5 1 failing_twice)
  ∨ (∃ e, captured (initialized failing_twice) 0 e
          ∧ node_status (initialized failing_twice) 0 = Some ExecStatus.Preparing).
Proof.
  exact (initializeExecution_prepares_every_seed (procs := scripted_processors)
           (build := release_build) 5 1 failing_twice (initialized failing_twice) 0
           (fresh_node 0) ltac:(run) ltac:(run) ltac:(vm_compute; lia) ltac:(run)).
Defined.

(** In [surplus_node] the second node has no processor in the list: it is
    childless and yet neither seeded nor touched. *)
Lemma addChildlessProcessorsToStack_in_bounds_witness :
  addChildlessProcessorsToStack [] surplus_node
  = Some ([0], set_nodes [set_status ExecStatus.Preparing (fresh_node 0); fresh_node 1]
                 surplus_node)
  ∧ nodes (set_nodes [set_status ExecStatus.Preparing (fresh_node 0); fresh_node 1]
             surplus_node) !! 1
    = nodes surplus_node !! 1.
Proof.
  split; [run|].
  apply (proj2 (addChildlessProcessorsToStack_in_bounds [] surplus_node) [0] _ 1);
    [run|vm_compute; lia].
Defined.

(** The expansion of [expanding] by the processors 7 and 8. *)
Lemma expandPipeline_stages_idle_nodes_witness :
  ∃ ex', expandPipeline [5] 0 expanding = Some (true, [5], ex')
         ∧ processors expanding `prefix_of` processors ex'
         ∧ length (nodes ex') = length (processors ex').
Proof.
  destruct (expandPipeline (procs := scripted_processors) [5] 0 expanding)
    as [[[b stack'] ex']|] eqn:Hrun; [|vm_compute in Hrun; discriminate].
  assert (b = true ∧ stack' = [5]) as [-> ->].
  { vm_compute in Hrun. by simplify_eq. }
  exists ex'. split; [reflexivity|].
  destruct (expandPipeline_stages_idle_nodes (procs := scripted_processors) [5] 0
              expanding [5] ex' Hrun) as (Hps & Hlen & _).
  split; [exact Hps|exact Hlen].
Defined.

(** With the flag set, the first step of [source_and_sink] only
    initializes. *)
Lemma executeStep_true_means_yield_witness :
  executeStep 5 (Some (λ _, true)) None source_and_sink
  = Done (Returned true, None, initialized source_and_sink)
  ∧ ∃ flag, Some (λ _ : Scripted, true) = Some flag
            ∧ flag (world (initialized source_and_sink)) = true.
Proof.
  split; [run|].
  apply (executeStep_true_means_yield (procs := scripted_processors)
           (build := release_build) 5 (Some (λ _, true)) None source_and_sink None
           (initialized source_and_sink)).
  run.
Defined.

(** [one_finished] is run to its end by one step. *)
Lemma executeStep_false_means_done_witness :
  executeStep 5 None None one_finished = Done (Returned false, None, stepped one_finished)
  ∧ finished (tasks (stepped one_finished)) = true
  ∧ first_node_exception (nodes (stepped one_finished)) = None.
Proof.
  split; [run|].
  assert (Hrun : executeStep 5 None None one_finished
                 = Done (Returned false, None, stepped one_finished)) by run.
  destruct (executeStep_false_means_done (procs := scripted_processors)
              (build := release_build) 5 None None one_finished None
              (stepped one_finished) Hrun) as (Hf & He & _).
  split; [exact Hf|exact He].
Defined.

(** A step of [after_run], which is finished, rethrows the exception of
    node 1 without any round of any loop. *)
Lemma executeStep_when_finished_witness :
  executeStep 0 None None after_run = Done (Threw (boom 1), None, after_run).
Proof.
  exact (executeStep_when_finished (procs := scripted_processors)
           (build := release_build) 0 None None after_run eq_refl eq_refl).
Defined.

(** The node of [failing_twice] holds an exception after the
    initialization: the task fails and the executor is cancelled. *)
Lemma executeStepImpl_failed_task_cancels_witness :
  executeStepImpl 1 None (Some 0) (initialized failing_twice)
  = Done (Some 0, (cancel (initialized failing_twice)).2).
Proof.
  etrans.
  - apply (executeStepImpl_failed_task_cancels (procs := scripted_processors)
             (build := release_build) 0 None (Some 0) (initialized failing_twice)
             (Some 0) (initialized failing_twice)); [run|reflexivity|run].
  - run.
Defined.

(** A thread that finds no task in [one_finished] finishes the tasks. *)
Lemma executeSingleThread_returns_finished_witness :
  finished (tasks (finish one_finished)) = true.
Proof.
  apply (executeSingleThread_returns_finished (procs := scripted_processors)
           (build := release_build) 5 None one_finished None (finish one_finished)).
  run.
Defined.

(** [execute(1)] runs [one_finished] to its end. *)
Lemma execute_one_thread_returns_complete_witness :
  execute_one_thread (C := option nat) 5 one_finished
  = Done (Returned (), executed one_finished)
  ∧ finished (tasks (executed one_finished)) = true
  ∧ (cancelled (executed one_finished) = true
     ∨ ∀ node, node ∈ nodes (executed one_finished) → status node = ExecStatus.Finished).
Proof.
  assert (Hrun : execute_one_thread (C := option nat) 5 one_finished
                 = Done (Returned (), executed one_finished)) by run.
  split; [exact Hrun|].
  destruct (execute_one_thread_returns_complete (procs := scripted_processors)
              (build := release_build) (C := option nat) 5 one_finished
              (executed one_finished) Hrun) as (Hf & _ & _ & _ & Hall).
  split; [exact Hf|exact Hall].
Defined.
